(** * IPAM engine: the Space router ([engine/app/routers/space.py])

    A shallow embedding of the request handlers of the Space router and of
    the part of the [netaddr] library they rely on, followed by the
    properties of the allocation, settlement and validation paths. *)

From Stdlib Require Import ZArith Lia Bool Ascii String.
From stdpp Require Import base option list strings pretty sorting.

Local Open Scope Z_scope.

(** ** netaddr: IPv4 networks

    [IPNetwork] keeps the address as written (host bits included) and the
    prefix length; [value] is the 32-bit address as an integer. *)

Record IPNetwork := mkNet { value : Z; prefixlen : nat }.

Definition width : nat := 32.

Definition hostbits (n : IPNetwork) : Z := Z.of_nat (width - prefixlen n).

(** [IPNetwork.size] *)
Definition net_size (n : IPNetwork) : Z := 2 ^ hostbits n.

(** [IPNetwork.first]: the address with the host bits cleared. *)
Definition first (n : IPNetwork) : Z :=
  Z.shiftl (Z.shiftr (value n) (hostbits n)) (hostbits n).

(** [IPNetwork.cidr]: the canonical network. *)
Definition cidr (n : IPNetwork) : IPNetwork := mkNet (first n) (prefixlen n).

Definition IPNetwork_eqb (a b : IPNetwork) : bool :=
  (value a =? value b) && Nat.eqb (prefixlen a) (prefixlen b).

(** [str(IPNetwork(x).cidr) == x]: the text of a network is canonical. *)
Definition canonical (n : IPNetwork) : bool := IPNetwork_eqb (cidr n) n.

(** An IPv4 network as netaddr can hold one. *)
Definition valid_net (n : IPNetwork) : bool :=
  (0 <=? value n) && (value n <? 2 ^ 32) && (prefixlen n <=? width)%nat.

(** [other in self] for two networks ([IPNetwork.__contains__]): the
    network bits of [self] agree and [self] is the shorter prefix. *)
Definition net_in (other self : IPNetwork) : bool :=
  (Z.shiftr (value self) (hostbits self) =? Z.shiftr (value other) (hostbits self))
  && (prefixlen self <=? prefixlen other)%nat.

(** The addresses of a network: those that share its network bits. *)
Definition net_has (n : IPNetwork) (a : Z) : bool :=
  a / 2 ^ hostbits n =? value n / 2 ^ hostbits n.

(** Two networks share an address exactly when one lies in the other. *)
Definition overlaps (a b : IPNetwork) : bool := net_in a b || net_in b a.

(** [IPNetwork.subnet(prefixlen)], as a list: nothing when the requested
    length is shorter than the network's own, otherwise the consecutive
    subnets from [first]. *)
Definition subnet_at (n : IPNetwork) (newlen : nat) (i : Z) : IPNetwork :=
  mkNet (first n + 2 ^ Z.of_nat (width - newlen) * i) newlen.

Definition subnet (n : IPNetwork) (newlen : nat) : list IPNetwork :=
  if (newlen <? prefixlen n)%nat then []
  else
    let max_subnets := 2 ^ hostbits n / 2 ^ Z.of_nat (width - newlen) in
    List.map (fun i => subnet_at n newlen (Z.of_nat i)) (seq 0 (Z.to_nat max_subnets)).

(** ** netaddr: IP sets

    Modelled from the spec: netaddr's [IPSet] is not part of the router's
    source.  The spec's PrefixAlgebra asks for sets of prefixes with union,
    intersection, symmetric difference, subset test and [iter_cidrs], a
    canonical ascending list of maximal prefixes.  An [IPSet] is kept as a
    binary trie over the address bits, most significant first: [Leaf true]
    is a whole prefix, [Leaf false] an absent one.  [node] keeps the trie
    coalesced, so two sets with the same addresses are the same trie. *)

Inductive IPSet := Leaf (b : bool) | Node (lo hi : IPSet).

#[global] Instance IPSet_eq_dec : EqDecision IPSet.
Proof. solve_decision. Defined.

Definition node (l h : IPSet) : IPSet :=
  match l, h with
  | Leaf a, Leaf b => if Bool.eqb a b then Leaf a else Node l h
  | _, _ => Node l h
  end.

Fixpoint compl (t : IPSet) : IPSet :=
  match t with
  | Leaf b => Leaf (negb b)
  | Node l h => Node (compl l) (compl h)
  end.

(** [s | t] *)
Fixpoint union (s t : IPSet) : IPSet :=
  match s, t with
  | Leaf true, _ => Leaf true
  | Leaf false, _ => t
  | Node _ _, Leaf true => Leaf true
  | Node _ _, Leaf false => s
  | Node a b, Node c d => node (union a c) (union b d)
  end.

(** [s & t] *)
Fixpoint inter (s t : IPSet) : IPSet :=
  match s, t with
  | Leaf true, _ => t
  | Leaf false, _ => Leaf false
  | Node _ _, Leaf true => s
  | Node _ _, Leaf false => Leaf false
  | Node a b, Node c d => node (inter a c) (inter b d)
  end.

(** [s ^ t] *)
Fixpoint xor (s t : IPSet) : IPSet :=
  match s, t with
  | Leaf true, _ => compl t
  | Leaf false, _ => t
  | Node _ _, Leaf true => compl s
  | Node _ _, Leaf false => s
  | Node a b, Node c d => node (xor a c) (xor b d)
  end.

(** [s - t] *)
Fixpoint diff (s t : IPSet) : IPSet :=
  match s, t with
  | Leaf true, _ => compl t
  | Leaf false, _ => Leaf false
  | Node _ _, Leaf true => Leaf false
  | Node _ _, Leaf false => s
  | Node a b, Node c d => node (diff a c) (diff b d)
  end.

(** [s.issubset(t)] *)
Fixpoint issubset (s t : IPSet) : bool :=
  match s, t with
  | Leaf false, _ => true
  | Leaf true, Leaf b => b
  | Leaf true, Node _ _ => false
  | Node _ _, Leaf b => b
  | Node a b, Node c d => issubset a c && issubset b d
  end.

(** [bool(s)]: the set holds an address. *)
Definition nonempty (s : IPSet) : bool :=
  match s with Leaf false => false | _ => true end.

(** The set of one prefix: the first [p] of the [bits] low bits of [v]. *)
Fixpoint prefix_set (bits p : nat) (v : Z) {struct p} : IPSet :=
  match p, bits with
  | S p', S b =>
      if v <? 2 ^ Z.of_nat b
      then Node (prefix_set b p' v) (Leaf false)
      else Node (Leaf false) (prefix_set b p' (v - 2 ^ Z.of_nat b))
  | _, _ => Leaf true
  end.

Definition net_set (n : IPNetwork) : IPSet := prefix_set width (prefixlen n) (value n).

(** [IPSet(iterable)] *)
Definition IPSet_of (l : list IPNetwork) : IPSet :=
  fold_right (fun n acc => union (net_set n) acc) (Leaf false) l.

(** Membership of one address, with [bits] address bits left. *)
Fixpoint mem (t : IPSet) (bits : nat) (a : Z) {struct t} : bool :=
  match t with
  | Leaf b => b
  | Node l h =>
      match bits with
      | O => false
      | S b => if a <? 2 ^ Z.of_nat b then mem l b a else mem h b (a - 2 ^ Z.of_nat b)
      end
  end.

(** The prefix made of the first [p] of the [bits] low bits of [v] lies
    inside [t]: one of its supernets is a prefix of the set. *)
Fixpoint covers (t : IPSet) (bits p : nat) (v : Z) {struct t} : bool :=
  match t with
  | Leaf b => b
  | Node l h =>
      match p, bits with
      | S p', S b =>
          if v <? 2 ^ Z.of_nat b then covers l b p' v
          else covers h b p' (v - 2 ^ Z.of_nat b)
      | _, _ => false
      end
  end.

(** [IPNetwork in IPSet] *)
Definition net_in_set (n : IPNetwork) (s : IPSet) : bool :=
  covers s width (prefixlen n) (value n).

(** The prefixes of the trie in address order, [base] being the address
    of the subtrie and [bits] its height. *)
Fixpoint cidrs_from (t : IPSet) (bits : nat) (base : Z) {struct t}
  : list IPNetwork :=
  match t with
  | Leaf true => [mkNet base (width - bits)]
  | Leaf false => []
  | Node l h =>
      match bits with
      | O => []
      | S b => cidrs_from l b base ++ cidrs_from h b (base + 2 ^ Z.of_nat b)
      end
  end.

(** [IPSet.iter_cidrs()] *)
Definition iter_cidrs (s : IPSet) : list IPNetwork := cidrs_from s width 0.

Definition siblings_differ (l h : IPSet) : bool :=
  match l, h with
  | Leaf x, Leaf y => negb (Bool.eqb x y)
  | _, _ => true
  end.

(** A trie of height at most [bits] with no pair of equal sibling leaves. *)
Fixpoint wf (bits : nat) (t : IPSet) {struct t} : bool :=
  match t with
  | Leaf _ => true
  | Node l h =>
      match bits with
      | O => false
      | S b => wf b l && wf b h && siblings_differ l h
      end
  end.

(** The network one bit shorter. *)
Definition supernet (n : IPNetwork) : IPNetwork := mkNet (value n) (prefixlen n - 1).

(** [n] is a prefix of the set that cannot be widened inside the set. *)
Definition maximal_in (n : IPNetwork) (s : IPSet) : bool :=
  net_in_set n s && ((prefixlen n =? 0)%nat || negb (net_in_set (supernet n) s)).

(** The order of [iter_cidrs]: each prefix ends before the next starts. *)
Definition before (x y : IPNetwork) : Prop := value x + net_size x <= value y.

(** Dotted-quad addresses, for the examples. *)
Definition ip (a b c d : Z) : Z := ((a * 256 + b) * 256 + c) * 256 + d.

(** ** Python values

    A text is the list of its characters, and a character is a code point
    below U+0100, the range an [ascii] holds: texts with a character
    beyond it are not part of this development.  [str.lower] on that
    range moves the letters A to Z and the capital letters of Latin-1
    (U+00C0 to U+00DE, the multiplication sign U+00D7 apart) up by 32 and
    keeps every other character. *)

Definition lower_char (c : ascii) : ascii :=
  let n := nat_of_ascii c in
  if (65 <=? n)%nat && (n <=? 90)%nat
     || (192 <=? n)%nat && (n <=? 222)%nat && negb (n =? 215)%nat
  then ascii_of_nat (n + 32) else c.

Fixpoint lower (s : string) : string :=
  match s with
  | EmptyString => EmptyString
  | String c r => String (lower_char c) (lower r)
  end.

Definition str_eqb (a b : string) : bool := String.eqb a b.

(** The truth value of a timestamp field that holds [None] or a float. *)
Definition truthy (t : option Z) : bool :=
  match t with
  | Some x => negb (x =? 0)
  | None => false
  end.

(** [next((x for x in l if f x), None)], with the position of the hit:
    the handlers go on to mutate the object they found inside its list. *)
Definition next_where {A} (f : A -> bool) (l : list A) : option (nat * A) :=
  list_find (fun x => f x = true) l.

Definition elem_str (x : string) (l : list string) : bool :=
  existsb (str_eqb x) l.

(** [str(network)] of an IPv4 network: dotted quad, slash, prefix length. *)
Definition str_of_addr (a : Z) : string :=
  pretty (a / 16777216 mod 256) ++ "." ++ pretty (a / 65536 mod 256) ++ "."
  ++ pretty (a / 256 mod 256) ++ "." ++ pretty (a mod 256).

Definition str_of_net (n : IPNetwork) : string :=
  str_of_addr (value n) ++ "/" ++ pretty (prefixlen n).

(** [set(l)], as the list of its members: each one once.  Python fixes
    no order for the members of a set; they stand in the order of their
    first appearance. *)
Fixpoint py_set (l : list string) : list string :=
  match l with
  | [] => []
  | x :: r => x :: List.filter (fun y => negb (str_eqb y x)) (py_set r)
  end.

(** [str(list)] of a list of names that hold no quote or escape. *)
Definition py_list (l : list string) : string :=
  "[" ++ String.concat ", " (List.map (fun x : string => "'" ++ x ++ "'")%string l)
  ++ "]".

(** ** The Space document *)

Record Reservation := mkReservation {
  resv_id : string;
  resv_cidr : IPNetwork;
  resv_desc : option string;
  createdOn : Z;
  createdBy : string;
  settledOn : option Z;
  settledBy : option string;
  status : string
}.

Record VNetRef := mkVNetRef { vnet_id : string; active : bool }.

Record ExtEndpoint := mkExtEndpoint {
  endpoint_name : string;
  endpoint_desc : string;
  endpoint_ip : Z
}.

Record ExtSubnet := mkExtSubnet {
  subnet_name : string;
  subnet_desc : string;
  subnet_cidr : IPNetwork;
  endpoints : list ExtEndpoint
}.

Record ExtNet := mkExtNet {
  ext_name : string;
  ext_desc : string;
  ext_cidr : IPNetwork;
  subnets : list ExtSubnet
}.

Record Block := mkBlock {
  block_name : string;
  block_cidr : IPNetwork;
  vnets : list VNetRef;
  externals : list ExtNet;
  resv : list Reservation
}.

Record Space := mkSpace {
  space_id : string;
  tenant_id : string;
  space_name : string;
  space_desc : string;
  blocks : list Block
}.

(** One network of the inventory returned by [get_network]. *)
Record Network := mkNetwork { net_id : string; prefixes : list IPNetwork }.

Definition set_resv (b : Block) (r : list Reservation) : Block :=
  mkBlock (block_name b) (block_cidr b) (vnets b) (externals b) r.

Definition set_externals (b : Block) (e : list ExtNet) : Block :=
  mkBlock (block_name b) (block_cidr b) (vnets b) e (resv b).

Definition set_vnets (b : Block) (v : list VNetRef) : Block :=
  mkBlock (block_name b) (block_cidr b) v (externals b) (resv b).

Definition set_block_name (b : Block) (n : string) : Block :=
  mkBlock n (block_cidr b) (vnets b) (externals b) (resv b).

Definition set_block_cidr (b : Block) (c : IPNetwork) : Block :=
  mkBlock (block_name b) c (vnets b) (externals b) (resv b).

Definition set_blocks (s : Space) (bs : list Block) : Space :=
  mkSpace (space_id s) (tenant_id s) (space_name s) (space_desc s) bs.

Definition set_subnets (e : ExtNet) (l : list ExtSubnet) : ExtNet :=
  mkExtNet (ext_name e) (ext_desc e) (ext_cidr e) l.

(** [target_space['blocks'][i] = b] after the in-place mutation of the
    block found at position [i]. *)
Definition put_block (s : Space) (i : nat) (b : Block) : Space :=
  set_blocks s (<[i := b]> (blocks s)).

(** ** Handlers: exceptions and the document store

    A handler runs against the tenant's Space documents.  It ends with a
    value or with an exception: an [HTTPException] raised by the handler,
    or a Python error that escapes it. *)

Inductive Exc :=
| HTTPException (status_code : Z) (detail : string)
| ValueError
| TypeError
| IndexError
| AttributeError
| AddrFormatError.

Inductive Outcome (A : Type) :=
| Return (a : A)
| Raise (e : Exc).

Arguments Return {A} a.
Arguments Raise {A} e.

Definition Store := list Space.

Definition M (A : Type) : Type := Store -> Outcome A * Store.

#[global] Instance M_ret : MRet M := fun A a st => (Return a, st).

#[global] Instance M_bind : MBind M := fun A B f m st =>
  match m st with
  | (Return a, st') => f a st'
  | (Raise e, st') => (Raise e, st')
  end.

Definition raise {A} (e : Exc) : M A := fun st => (Raise e, st).

(** Exceptions alone, for the loops that touch no document. *)
#[global] Instance Outcome_ret : MRet Outcome := fun A a => Return a.

#[global] Instance Outcome_bind : MBind Outcome := fun A B f m =>
  match m with
  | Return a => f a
  | Raise e => Raise e
  end.

Definition lift {A} (o : Outcome A) : M A := fun st => (o, st).

(** Modelled from the spec: the document store helpers
    ([app.routers.common.helper]) are not part of the router's source.
    [query] reads documents, [replace(oldDoc, newDoc)] writes [newDoc] over
    the document of [oldDoc], [upsert] adds a document.  One request runs
    alone here, so the conditional replace finds the version it read. *)
Definition cosmos_query_spaces : M (list Space) := fun st => (Return st, st).

Definition cosmos_query_space (space : string) : M (list Space) := fun st =>
  (Return (List.filter (fun c => str_eqb (lower (space_name c)) (lower space)) st), st).

Definition replace_doc (old new : Space) (st : Store) : Store :=
  List.map (fun c => if str_eqb (space_id c) (space_id old) then new else c) st.

Definition cosmos_replace (old new : Space) : M unit := fun st =>
  (Return tt, replace_doc old new st).

Definition cosmos_upsert (new : Space) : M unit := fun st =>
  (Return tt,
   if existsb (fun c => str_eqb (space_id c) (space_id new)) st
   then replace_doc new new st else st ++ [new]).

Definition cosmos_delete (old : Space) : M unit := fun st =>
  (Return tt, List.filter (fun c => negb (str_eqb (space_id c) (space_id old))) st).

(** [copy.deepcopy(space_query[0])] inside [try], else 400. *)
Definition first_space (space_query : list Space) : M Space :=
  match space_query with
  | s :: _ => mret s
  | [] => raise (HTTPException 400 "Invalid space name.")
  end.

(** What a request carries besides its body and path: the caller, the
    inventory snapshot, the successive readings of [time.time()] and the
    identifier [shortuuid.uuid()] hands out. *)
Record Ctx := mkCtx {
  user_name : string;
  is_admin : bool;
  net_list : list Network;
  clock : nat -> Z;
  new_id : string
}.

(** ** Allocation inside a block

    The part shared by [create_block_reservation] and
    [create_multi_block_reservation]: the CIDRs already claimed in the
    block and the set left over. *)

Definition unsettled (r : Reservation) : bool := negb (truthy (settledOn r)).

Definition in_block_prefixes (nets : list Network) (b : Block) (v : VNetRef)
  : list IPNetwork :=
  match List.find (fun x => str_eqb (lower (net_id x)) (lower (vnet_id v))) nets with
  | Some target => List.filter (fun x => net_in x (block_cidr b)) (prefixes target)
  | None => []
  end.

Definition block_all_cidrs (nets : list Network) (b : Block) : list IPNetwork :=
  flat_map (in_block_prefixes nets b) (vnets b)
  ++ List.map resv_cidr (List.filter unsettled (resv b))
  ++ List.map ext_cidr (externals b).

(** [available_set = block_set ^ reserved_set] *)
Definition available_set (nets : list Network) (b : Block) : IPSet :=
  xor (IPSet_of [block_cidr b]) (IPSet_of (block_all_cidrs nets b)).

(** [l[available_slicer]] and [l[next_selector]] *)
Definition sliced {A} (reverse : bool) (l : list A) : list A :=
  if reverse then rev l else l.

Definition selected {A} (reverse : bool) (l : list A) : option A :=
  if reverse then last l else head l.

Definition fits (size : Z) (n : IPNetwork) : bool := Z.of_nat (prefixlen n) <=? size.

(** [max(iterable)] with no default raises on an empty iterable. *)
Definition max_of (l : list nat) : Outcome nat :=
  match l with
  | [] => Raise ValueError
  | x :: r => Return (fold_left Nat.max r x)
  end.

(** [max(iterable, default=None)] *)
Definition max_default (l : list nat) : option nat :=
  match l with
  | [] => None
  | x :: r => Some (fold_left Nat.max r x)
  end.

(** [list(available_block.subnet(req.size))[next_selector]] *)
Definition carve (n : IPNetwork) (size : Z) (reverse : bool) : Outcome IPNetwork :=
  if size <? Z.of_nat (prefixlen n) then Raise IndexError
  else if Z.of_nat width <? size then Raise AddrFormatError
  else
    match selected reverse (subnet n (Z.to_nat size)) with
    | Some c => Return c
    | None => Raise IndexError
    end.

Record BlockCIDRReq := mkBlockCIDRReq {
  req_size : Z;
  (** [None]: no [cidr] in the body; [Some None]: a text netaddr rejects;
      [Some (Some n)]: the text of network [n]. *)
  req_cidr : option (option IPNetwork);
  req_desc : option string;
  reverse_search : bool;
  smallest_cidr : bool
}.

Record SpaceCIDRReq := mkSpaceCIDRReq {
  sreq_blocks : list string;
  sreq_size : Z;
  sreq_desc : option string;
  sreq_reverse_search : bool;
  sreq_smallest_cidr : bool
}.

Record ReservationExpand := mkReservationExpand {
  rx_resv : Reservation;
  rx_space : string;
  rx_block : option string
}.

(** The search of [create_block_reservation] for a free prefix. *)
Definition find_available (reverse smallest : bool) (size : Z) (avail : IPSet)
  : Outcome (option IPNetwork) :=
  if smallest then
    let cidr_list := List.filter (fits size) (sliced reverse (iter_cidrs avail)) in
    min_mask ← max_of (List.map prefixlen cidr_list);
    mret (List.find (fun network => Nat.eqb (prefixlen network) min_mask) cidr_list)
  else
    mret (List.find (fits size) (sliced reverse (iter_cidrs avail))).

(** The same search in [create_multi_block_reservation]. *)
Definition find_available_multi (reverse smallest : bool) (size : Z) (avail : IPSet)
  : option IPNetwork :=
  if smallest then
    let cidr_list := List.filter (fits size) (sliced reverse (iter_cidrs avail)) in
    match max_default (List.map prefixlen cidr_list) with
    | Some min_mask =>
        List.find (fun network => Nat.eqb (prefixlen network) min_mask) cidr_list
    | None => None
    end
  else
    List.find (fits size) (sliced reverse (iter_cidrs avail)).

Definition same_name (name : string) (b : Block) : bool :=
  str_eqb (lower (block_name b)) (lower name).

Definition new_reservation (ctx : Ctx) (next_cidr : IPNetwork) (desc : option string)
  : Reservation :=
  mkReservation (new_id ctx) next_cidr desc (clock ctx 0) (user_name ctx) None None "wait".

(** POST /spaces/{space}/blocks/{block}/reservations *)
Definition create_block_reservation (ctx : Ctx) (req : BlockCIDRReq)
    (space block : string) : M ReservationExpand :=
  space_query ← cosmos_query_space space;
  target_space ← first_space space_query;
  match next_where (same_name block) (blocks target_space) with
  | None => raise (HTTPException 400 "Invalid block name.")
  | Some (i, target_block) =>
      let avail := available_set (net_list ctx) target_block in
      next_cidr ←
        match req_cidr req with
        | Some None => raise (HTTPException 400 "Invalid network CIDR format.")
        | Some (Some n) =>
            if negb (net_in_set n avail)
            then raise (HTTPException 409 "Requested CIDR overlaps existing network(s).")
            else mret n
        | None =>
            available_block ←
              lift (find_available (reverse_search req) (smallest_cidr req)
                                   (req_size req) avail);
            match available_block with
            | None =>
                raise (HTTPException 500
                         "Network of requested size unavailable in target block.")
            | Some a => lift (carve a (req_size req) (reverse_search req))
            end
        end;
      let new_cidr := new_reservation ctx next_cidr (req_desc req) in
      let target_block' := set_resv target_block (resv target_block ++ [new_cidr]) in
      cosmos_replace target_space (put_block target_space i target_block');;
      mret (mkReservationExpand new_cidr (space_name target_space)
                                (Some (block_name target_block)))
  end.

(** The loop of [create_multi_block_reservation] over [req.blocks]: the
    three variables it leaves behind are [available_block],
    [available_block_name] and [target_block] (with its position). *)
Definition WalkState : Type :=
  (option IPNetwork * option string * option (nat * Block))%type.

Fixpoint walk_blocks (ctx : Ctx) (req : SpaceCIDRReq) (target_space : Space)
    (names : list string) (s : WalkState) : Outcome WalkState :=
  match names with
  | [] => Return s
  | block :: rest =>
      match s with
      | (Some _, _, _) => walk_blocks ctx req target_space rest s
      | (None, _, _) =>
          match next_where (same_name block) (blocks target_space) with
          | None => Raise TypeError
          | Some (i, target_block) =>
              let available_block :=
                find_available_multi (sreq_reverse_search req) (sreq_smallest_cidr req)
                  (sreq_size req) (available_set (net_list ctx) target_block) in
              let available_block_name :=
                match available_block with Some _ => Some block | None => None end in
              walk_blocks ctx req target_space rest
                (available_block, available_block_name, Some (i, target_block))
          end
      end
  end.

(** POST /spaces/{space}/reservations *)
Definition create_multi_block_reservation (ctx : Ctx) (req : SpaceCIDRReq)
    (space : string) : M ReservationExpand :=
  space_query ← cosmos_query_space space;
  target_space ← first_space space_query;
  let request_blocks := py_set (sreq_blocks req) in
  let space_blocks := py_set (List.map block_name (blocks target_space)) in
  let invalid_blocks :=
    List.filter (fun x => negb (elem_str x space_blocks)) request_blocks in
  match invalid_blocks with
  | _ :: _ =>
      raise (HTTPException 400
               ("Invalid Block(s) in Block list: " ++ py_list invalid_blocks ++ "."))
  | [] =>
      s ← lift (walk_blocks ctx req target_space (sreq_blocks req) (None, None, None));
      match s with
      | (None, _, _) =>
          raise (HTTPException 500
                   "Network of requested size unavailable in target block(s).")
      | (Some available_block, available_block_name, target) =>
          next_cidr ← lift (carve available_block (sreq_size req)
                                  (sreq_reverse_search req));
          match target with
          | None => raise TypeError
          | Some (i, target_block) =>
              let new_cidr := new_reservation ctx next_cidr (sreq_desc req) in
              let target_block' :=
                set_resv target_block (resv target_block ++ [new_cidr]) in
              cosmos_replace target_space (put_block target_space i target_block');;
              mret (mkReservationExpand new_cidr (space_name target_space)
                                        available_block_name)
          end
      end
  end.

(** ** Settling reservations *)

Definition settle (ctx : Ctx) (k : nat) (r : Reservation) : Reservation :=
  mkReservation (resv_id r) (resv_cidr r) (resv_desc r) (createdOn r) (createdBy r)
    (Some (clock ctx k)) (Some (user_name ctx)) "cancelledByUser".

(** The loop over [filtered_req]; [k] counts the readings of the clock. *)
Fixpoint settle_all (ctx : Ctx) (k : nat) (ids : list string)
    (l : list Reservation) : Outcome (list Reservation) :=
  match ids with
  | [] => Return l
  | id :: rest =>
      match next_where (fun item => str_eqb (resv_id item) id) l with
      | Some (index, item) => settle_all ctx (S k) rest (<[index := settle ctx k item]> l)
      | None => Raise TypeError
      end
  end.

Definition not_owned (ctx : Ctx) (req : list string) (x : Reservation) : bool :=
  elem_str (resv_id x) req && negb (str_eqb (createdBy x) (user_name ctx)).

(** DELETE /spaces/{space}/blocks/{block}/reservations *)
Definition delete_block_reservations (ctx : Ctx) (req : list string)
    (space block : string) : M unit :=
  space_query ← cosmos_query_space space;
  target_space ← first_space space_query;
  match next_where (same_name block) (blocks target_space) with
  | None => raise (HTTPException 400 "Invalid block name.")
  | Some (i, target_block) =>
      if negb (bool_decide (NoDup req))
      then raise (HTTPException 400 "List contains one or more duplicate id's.")
      else
        let current_reservations := List.map resv_id (resv target_block) in
        if negb (forallb (fun elem => elem_str elem current_reservations) req)
        then raise (HTTPException 400 "List contains one or more invalid id's.")
        else
          if negb (is_admin ctx)
             && existsb (not_owned ctx req) (resv target_block)
          then raise (HTTPException 403 "Users can only delete their own reservations.")
          else
            let filtered_req :=
              List.map resv_id
                (List.filter (fun r => unsettled r && elem_str (resv_id r) req)
                             (resv target_block)) in
            resv' ← lift (settle_all ctx 0 filtered_req (resv target_block));
            cosmos_replace target_space
              (put_block target_space i (set_resv target_block resv'));;
            mret tt
  end.

(** DELETE /spaces/{space}/blocks/{block}/reservations/{reservation}; the
    source gives this handler the name of the bulk one. *)
Definition delete_block_reservation (ctx : Ctx) (space block reservation : string)
  : M unit :=
  space_query ← cosmos_query_space space;
  target_space ← first_space space_query;
  match next_where (same_name block) (blocks target_space) with
  | None => raise (HTTPException 400 "Invalid block name.")
  | Some (i, target_block) =>
      match next_where (fun x => str_eqb (resv_id x) reservation) (resv target_block) with
      | None => raise (HTTPException 400 "Invalid reservation ID.")
      | Some (j, target_reservation) =>
          if negb (is_admin ctx)
             && negb (str_eqb (createdBy target_reservation) (user_name ctx))
          then raise (HTTPException 403 "Users can only delete their own reservations.")
          else
            if unsettled target_reservation
            then
              cosmos_replace target_space
                (put_block target_space i
                   (set_resv target_block
                      (<[j := settle ctx 0 target_reservation]> (resv target_block))))
            else mret tt
      end
  end.

(** ** Utilization

    [GET /spaces/{space}] and [GET /spaces/{space}/blocks/{block}] with
    [utilization]: the sizes the handlers add to the document they return.
    The per-network fields of [expand] are left out of the view. *)

Record BlockView := mkBlockView {
  bv_block : Block;
  bv_size : option Z;
  bv_used : option Z
}.

Record SpaceView := mkSpaceView {
  sv_space : Space;
  sv_blocks : list BlockView;
  sv_size : option Z;
  sv_used : option Z
}.

(** [s[key]] where [s] is a [str] and [key] a [str]: Python raises
    [TypeError] (string indices must be integers). *)
Definition str_getitem (s key : string) : Outcome Z := Raise TypeError.

(** The prefixes of a block network that lie inside the block; the
    utilization handlers match the network id exactly. *)
Definition net_prefixes (nets : list Network) (b : Block) (net : VNetRef)
  : list IPNetwork :=
  match List.find (fun i => str_eqb (net_id i) (vnet_id net)) nets with
  | Some target_net => List.filter (fun x => net_in x (block_cidr b)) (prefixes target_net)
  | None => []
  end.

Definition sum_sizes (l : list IPNetwork) : Z :=
  fold_left (fun acc x => acc + net_size x) l 0.

Definition own_resv (ctx : Ctx) (b : Block) : Block :=
  if is_admin ctx then b
  else set_resv b (List.filter (fun x => str_eqb (createdBy x) (user_name ctx)) (resv b)).

(** The loop of [get_space] over the externals of a block: it adds to
    [space['used']], and [space] is the path parameter, a [str]. *)
Fixpoint space_externals (space : string) (exts : list ExtNet) (block_used : Z)
  : Outcome Z :=
  match exts with
  | [] => Return block_used
  | ext :: rest =>
      _ ← str_getitem space "used";
      space_externals space rest (block_used + net_size (ext_cidr ext))
  end.

(** The loop of [get_space] over the blocks; the state is
    [target_space['size']], [target_space['used']] and the blocks done. *)
Fixpoint space_blocks (ctx : Ctx) (space : string) (utilization : bool)
    (bs : list Block) (size used : Z) (done : list BlockView)
  : Outcome (Z * Z * list BlockView) :=
  match bs with
  | [] => Return (size, used, done)
  | block :: rest =>
      if utilization then
        let block_size := net_size (block_cidr block) in
        let vnet_used :=
          sum_sizes (flat_map (net_prefixes (net_list ctx) block) (vnets block)) in
        block_used ← space_externals space (externals block) vnet_used;
        space_blocks ctx space utilization rest (size + block_size) (used + vnet_used)
          (done ++ [mkBlockView (own_resv ctx block) (Some block_size) (Some block_used)])
      else
        space_blocks ctx space utilization rest size used
          (done ++ [mkBlockView (own_resv ctx block) None None])
  end.

(** GET /spaces/{space} *)
Definition get_space (ctx : Ctx) (space : string) (expand utilization : bool)
  : M SpaceView :=
  if expand && negb (is_admin ctx)
  then raise (HTTPException 403 "Expand parameter can only be used by admins.")
  else
    space_query ← cosmos_query_space space;
    target_space ← first_space space_query;
    r ← lift (space_blocks ctx space utilization (blocks target_space) 0 0 []);
    let '(size, used, views) := r in
    mret (mkSpaceView target_space views
            (if utilization then Some size else None)
            (if utilization then Some used else None)).

(** GET /spaces/{space}/blocks/{block} *)
Definition get_block (ctx : Ctx) (space block : string) (expand utilization : bool)
  : M BlockView :=
  if expand && negb (is_admin ctx)
  then raise (HTTPException 403 "Expand parameter can only be used by admins.")
  else
    space_query ← cosmos_query_space space;
    target_space ← first_space space_query;
    match next_where (same_name block) (blocks target_space) with
    | None => raise (HTTPException 400 "Invalid block name.")
    | Some (_, target_block) =>
        if utilization then
          let vnet_used :=
            sum_sizes (flat_map (net_prefixes (net_list ctx) target_block)
                                (vnets target_block)) in
          let used :=
            fold_left (fun acc ext => acc + net_size (ext_cidr ext))
                      (externals target_block) vnet_used in
          mret (mkBlockView (own_resv ctx target_block)
                            (Some (net_size (block_cidr target_block))) (Some used))
        else mret (mkBlockView (own_resv ctx target_block) None None)
    end.

(** ** Networks that can be attached to a block *)

Definition unclaimed (b : Block) (excluded_cidrs : IPSet) (x : IPNetwork) : bool :=
  net_in x (block_cidr b) && negb (nonempty (inter (IPSet_of [x]) excluded_cidrs)).

Definition candidate_nets (nets : list Network) (b : Block) : list Network :=
  let resv_cidrs := IPSet_of (List.map resv_cidr (List.filter unsettled (resv b))) in
  let ext_cidrs := IPSet_of (List.map ext_cidr (externals b)) in
  let excluded_cidrs := union resv_cidrs ext_cidrs in
  flat_map
    (fun net =>
       match List.filter (unclaimed b excluded_cidrs) (prefixes net) with
       | [] => []
       | valid => [mkNetwork (net_id net) valid]
       end)
    nets.

(** The ids the three nested loops of [available_block_nets] visit and
    pass on to the removal, in order. *)
Definition attached_elsewhere (space_query : list Space) (space block : string)
  : list string :=
  flat_map
    (fun space_iter =>
       flat_map
         (fun block_iter =>
            flat_map
              (fun net_iter =>
                 if negb (str_eqb (space_name space_iter) space)
                    && negb (str_eqb (block_name block_iter) block)
                 then [vnet_id net_iter] else [])
              (vnets block_iter))
         (blocks space_iter))
    space_query.

(** [net_index = next(...); if net_index: del available_vnets[net_index]]:
    the truth value of an index is that it is neither [None] nor [0]. *)
Definition drop_net (available_vnets : list Network) (id : string) : list Network :=
  match next_where (fun item => str_eqb (net_id item) id) available_vnets with
  | Some (S k, _) => delete (S k) available_vnets
  | _ => available_vnets
  end.

(** GET /spaces/{space}/blocks/{block}/available *)
Definition available_block_nets (ctx : Ctx) (space block : string)
  : M (list Network) :=
  space_query ← cosmos_query_spaces;
  match List.find (fun x => str_eqb (lower (space_name x)) (lower space)) space_query with
  | None => raise (HTTPException 400 "Invalid space name.")
  | Some target_space =>
      match next_where (same_name block) (blocks target_space) with
      | None => raise (HTTPException 400 "Invalid block name.")
      | Some (_, target_block) =>
          mret (fold_left drop_net (attached_elsewhere space_query space block)
                          (candidate_nets (net_list ctx) target_block))
      end
  end.

(** ** Names and descriptions

    [re.match] against the two shapes of pattern the router uses:
    [^(?![edge])([class]){1,max}(?<![edge])$].  The class is the
    alphanumerics and the edge characters; [$] also matches before one
    trailing newline.  The create handlers and the description entries of
    the patches pass [re.IGNORECASE]: the class holds both cases of each of
    its letters, and no other character below U+0100 folds onto one of
    them, so the flag changes no answer on the texts of this development. *)

Definition is_alnum (c : ascii) : bool :=
  let n := nat_of_ascii c in
  ((48 <=? n) && (n <=? 57) || (65 <=? n) && (n <=? 90) || (97 <=? n) && (n <=? 122))%nat.

Definition name_edge (c : ascii) : bool :=
  let n := nat_of_ascii c in ((n =? 46) || (n =? 95) || (n =? 45))%nat.

Definition desc_edge (c : ascii) : bool :=
  let n := nat_of_ascii c in (name_edge c || (n =? 32) || (n =? 47))%nat.

Definition chomp (l : list ascii) : list ascii :=
  match last l with
  | Some c => if (nat_of_ascii c =? 10)%nat then removelast l else l
  | None => l
  end.

Definition regex_match (edge : ascii -> bool) (maxlen : nat) (s : string) : bool :=
  let body := chomp (list_ascii_of_string s) in
  match head body, last body with
  | Some c0, Some c1 =>
      (length body <=? maxlen)%nat
      && forallb (fun c => is_alnum c || edge c) body
      && negb (edge c0) && negb (edge c1)
  | _, _ => false
  end.

Definition name_regex (s : string) : bool := regex_match name_edge 64 s.
Definition desc_regex (s : string) : bool := regex_match desc_edge 128 s.

(** ** JSON patches of a block *)

(** The value of a patch entry is a text.  It comes with what netaddr
    makes of it: [CidrValue t n] is a text [t] that [IPNetwork] reads as
    the network [n], in whatever spelling; [AddrValue t a] a text that
    [IPAddress] reads as the address [a]; [TextValue t] a text netaddr
    rejects. *)
Inductive PatchValue :=
| CidrValue (t : string) (n : IPNetwork)
| AddrValue (t : string) (a : Z)
| TextValue (t : string).

Definition text_of (v : PatchValue) : string :=
  match v with
  | CidrValue t _ => t
  | AddrValue t _ => t
  | TextValue t => t
  end.

Record PatchOp := mkPatchOp { op : string; path : string; pvalue : PatchValue }.

(** [cidr == target_block['cidr']] on the two texts: the document holds
    the text [str] gives the network. *)
Definition value_is (v : PatchValue) (c : IPNetwork) : bool :=
  str_eqb (text_of v) (str_of_net c).

Definition cidr_error (what : string) : Exc :=
  HTTPException 400 (what ++ " CIDR must be in valid CIDR notation (x.x.x.x/x).").

Definition not_canonical (n : IPNetwork) : Exc :=
  HTTPException 400 ("Invalid CIDR value, try '" ++ str_of_net (cidr n) ++ "' instead.").

(** The checks a [/cidr] value meets once the target is known and the
    value differs from the current one: [IPNetwork(cidr)] inside [try],
    then [str(network.cidr) != cidr] on the texts.  The text of one
    address parses as a /32 whose canonical text carries the prefix
    length, which the text lacks. *)
Definition parse_canonical (what : string) (v : PatchValue) : M IPNetwork :=
  match v with
  | TextValue _ => raise (cidr_error what)
  | AddrValue _ a => raise (not_canonical (mkNet a 32))
  | CidrValue t n =>
      if negb (str_eqb (str_of_net (cidr n)) t) then raise (not_canonical n) else mret n
  end.

(** [IPSet([cidr])] on the raw value. *)
Definition value_set (v : PatchValue) : M IPSet :=
  match v with
  | TextValue _ => raise AddrFormatError
  | AddrValue _ a => mret (IPSet_of [mkNet a 32])
  | CidrValue _ n => mret (IPSet_of [n])
  end.

Definition valid_block_name_update (name : PatchValue) (in_space of_block : string)
  : M bool :=
  spaces ← cosmos_query_space in_space;
  let other_blocks :=
    List.map (fun t => lower (block_name t))
      (List.filter (fun t => negb (str_eqb (lower (block_name t)) (lower of_block)))
                   (flat_map blocks spaces)) in
  if elem_str (lower (text_of name)) other_blocks
  then raise (HTTPException 400
                "Updated Block name cannot match existing Blocks within the Space.")
  else mret (name_regex (text_of name)).

(** The CIDRs [valid_block_cidr_update] gathers under the patched block:
    every prefix of its networks, its externals, its open reservations. *)
Definition block_children (nets : list Network) (b : Block) : list IPNetwork :=
  flat_map
    (fun vnet =>
       match List.find (fun i => str_eqb (net_id i) (vnet_id vnet)) nets with
       | Some target_net => prefixes target_net
       | None => []
       end)
    (vnets b)
  ++ List.map ext_cidr (externals b)
  ++ List.map resv_cidr (List.filter unsettled (resv b)).

Definition valid_block_cidr_update (ctx : Ctx) (cidr : PatchValue)
    (in_space of_block : string) : M bool :=
  spaces ← cosmos_query_space in_space;
  let all_blocks := flat_map blocks spaces in
  match List.find (same_name of_block) all_blocks with
  | Some target_block =>
      if value_is cidr (block_cidr target_block) then mret true
      else parse_canonical "Updated Block" cidr ≫= λ _, mret false
  | None => mret false
  end ≫= λ same,
  if same : bool then mret true
  else
    let space_cidrs :=
      List.map block_cidr
        (List.filter (fun b => negb (str_eqb (block_name b) of_block)) all_blocks) in
    let block_cidrs :=
      flat_map (block_children (net_list ctx))
        (List.filter (fun b => str_eqb (block_name b) of_block) all_blocks) in
    update_set ← value_set cidr;
    if nonempty (inter (IPSet_of space_cidrs) update_set)
    then raise (HTTPException 400
                  "Updated CIDR cannot overlap other Block CIDRs within the Space.")
    else mret (issubset (IPSet_of block_cidrs) update_set).

Definition block_name_error : string :=
  "Block name can be a maximum of 64 characters and may contain alphanumerics, underscores, hypens, slashes, and periods.".

Definition block_cidr_error : string :=
  "Block CIDR must be in valid CIDR notation (x.x.x.x/x), cannot overlap existing Blocks within the Space and must contain all existing Virtual Networks, External Networks and unfulfilled Reservations within the Block.".

Definition keep_valid (item : PatchOp) (error : string) (ok : bool) : M (list PatchOp) :=
  if ok then mret [item] else raise (HTTPException 400 error).

Fixpoint scrub_block_patch (ctx : Ctx) (patch : list PatchOp)
    (in_space of_block : string) : M (list PatchOp) :=
  match patch with
  | [] => mret []
  | item :: rest =>
      kept ←
        (if str_eqb (op item) "replace" && str_eqb (path item) "/name" then
           valid_block_name_update (pvalue item) in_space of_block
             ≫= keep_valid item block_name_error
         else if str_eqb (op item) "replace" && str_eqb (path item) "/cidr" then
           valid_block_cidr_update ctx (pvalue item) in_space of_block
             ≫= keep_valid item block_cidr_error
         else mret []);
      scrubbed ← scrub_block_patch ctx rest in_space of_block;
      mret (kept ++ scrubbed)
  end.

(** [scrubbed_patch.apply(update_block, in_place=True)]: a text that
    passed [valid_block_cidr_update] and is no network is the text the
    block holds already. *)
Definition apply_block_op (b : Block) (item : PatchOp) : Block :=
  if str_eqb (path item) "/name" then set_block_name b (text_of (pvalue item))
  else
    match pvalue item with CidrValue _ n => set_block_cidr b n | _ => b end.

(** PATCH /spaces/{space}/blocks/{block} *)
Definition update_block (ctx : Ctx) (updates : list PatchOp) (space block : string)
  : M Block :=
  if negb (is_admin ctx)
  then raise (HTTPException 403 "This API is admin restricted.")
  else
    space_query ← cosmos_query_space space;
    target_space ← first_space space_query;
    match next_where (same_name block) (blocks target_space) with
    | None => raise (HTTPException 400 "Invalid block name.")
    | Some (i, update_block) =>
        scrubbed_patch ← scrub_block_patch ctx updates space block;
        let update_block' := fold_left apply_block_op scrubbed_patch update_block in
        cosmos_replace target_space (put_block target_space i update_block');;
        mret update_block'
    end.

Record BlockReq := mkBlockReq { breq_name : string; breq_cidr : option IPNetwork }.

(** POST /spaces/{space}/blocks *)
Definition create_block (ctx : Ctx) (block : BlockReq) (space : string) : M Block :=
  if negb (is_admin ctx)
  then raise (HTTPException 403 "This API is admin restricted.")
  else
    space_query ← cosmos_query_space space;
    target_space ← first_space space_query;
    if negb (name_regex (breq_name block))
    then raise (HTTPException 400 "Block name can be a maximum of 32 characters and may contain alphanumerics, underscores, hypens, slashes, and periods.")
    else
      match breq_cidr block with
      | None => raise (HTTPException 400 "Invalid CIDR, please ensure CIDR is in valid IPv4 CIDR notation (x.x.x.x/x).")
      | Some block_network =>
          if negb (canonical block_network)
          then raise (HTTPException 400
                        ("Invalid CIDR value, Try '" ++ str_of_net (cidr block_network)
                         ++ "' instead."))
          else
            let block_cidrs := IPSet_of (List.map block_cidr (blocks target_space)) in
            if nonempty (inter (IPSet_of [block_network]) block_cidrs)
            then raise (HTTPException 400 "New block cannot overlap existing blocks.")
            else
              let new_block := mkBlock (breq_name block) block_network [] [] [] in
              cosmos_replace target_space
                (set_blocks target_space (blocks target_space ++ [new_block]));;
              mret new_block
      end.

(** DELETE /spaces/{space}/blocks/{block} *)
Definition delete_block (ctx : Ctx) (space block : string) (force : bool) : M unit :=
  if negb (is_admin ctx)
  then raise (HTTPException 403 "This API is admin restricted.")
  else
    space_query ← cosmos_query_space space;
    target_space ← first_space space_query;
    match next_where (same_name block) (blocks target_space) with
    | None => raise (HTTPException 400 "Invalid block name.")
    | Some (_, target_block) =>
        if negb force
           && (negb (Nat.eqb (length (vnets target_block)) 0)
               || negb (Nat.eqb (length (resv target_block)) 0))
        then raise (HTTPException 400
                      "Cannot delete block while it contains vNets or reservations.")
        else
          match next_where (fun item => str_eqb (block_name item) block)
                           (blocks target_space) with
          | None => raise TypeError
          | Some (index, _) =>
              cosmos_replace target_space
                (set_blocks target_space (delete index (blocks target_space)))
          end
    end.

(** ** Networks of a block *)

Definition first_in_block (b : Block) (target_net : Network) : option IPNetwork :=
  List.find (fun x => net_in x (block_cidr b)) (prefixes target_net).

Definition find_net (nets : list Network) (id : string) : option Network :=
  List.find (fun x => str_eqb (lower (net_id x)) (lower id)) nets.

(** POST /spaces/{space}/blocks/{block}/networks *)
Definition create_block_net (ctx : Ctx) (vnet : VNetRef) (space block : string)
  : M Block :=
  if negb (is_admin ctx)
  then raise (HTTPException 403 "API restricted to admins.")
  else
    space_query ← cosmos_query_space space;
    target_space ← first_space space_query;
    match next_where (same_name block) (blocks target_space) with
    | None => raise (HTTPException 400 "Invalid block name.")
    | Some (i, target_block) =>
        if elem_str (vnet_id vnet) (List.map vnet_id (vnets target_block))
        then raise (HTTPException 400 "Network already exists in block.")
        else
          match find_net (net_list ctx) (vnet_id vnet) with
          | None => raise (HTTPException 400 "Invalid network ID.")
          | Some target_net =>
              match first_in_block target_block target_net with
              | None => raise (HTTPException 400 "Network CIDR not within block CIDR.")
              | Some target_cidr =>
                  let block_net_cidrs :=
                    List.map resv_cidr (List.filter unsettled (resv target_block))
                    ++ List.map ext_cidr (externals target_block)
                    ++ flat_map (in_block_prefixes (net_list ctx) target_block)
                                (vnets target_block) in
                  let cidr_overlap :=
                    inter (IPSet_of block_net_cidrs) (IPSet_of [target_cidr]) in
                  if nonempty cidr_overlap
                  then raise (HTTPException 400 "Block already contains network(s) and/or reservation(s) within the CIDR range of target network.")
                  else
                    let target_block' :=
                      set_vnets target_block
                        (vnets target_block ++ [mkVNetRef (vnet_id vnet) true]) in
                    cosmos_replace target_space (put_block target_space i target_block');;
                    mret target_block'
              end
          end
    end.

(** The loop of [update_block_vnets] over the supplied ids: the state is
    [invalid_nets], [outside_block_cidr], [net_ipset] and [net_overlap]. *)
Definition VNetScan : Type := (list string * list string * IPSet * bool)%type.

Definition scan_vnet (ctx : Ctx) (b : Block) (s : VNetScan) (v : string) : VNetScan :=
  let '(invalid_nets, outside_block_cidr, net_ipset, net_overlap) := s in
  match find_net (net_list ctx) v with
  | None => (invalid_nets ++ [v], outside_block_cidr, net_ipset, net_overlap)
  | Some target_net =>
      match first_in_block b target_net with
      | None => (invalid_nets, outside_block_cidr ++ [v], net_ipset, net_overlap)
      | Some target_cidr =>
          if negb (nonempty (inter net_ipset (IPSet_of [target_cidr])))
          then (invalid_nets, outside_block_cidr, union net_ipset (net_set target_cidr),
                net_overlap)
          else (invalid_nets, outside_block_cidr, net_ipset, true)
      end
  end.

(** PUT /spaces/{space}/blocks/{block}/networks *)
Definition update_block_vnets (ctx : Ctx) (ids : list string) (space block : string)
  : M (list VNetRef) :=
  if negb (is_admin ctx)
  then raise (HTTPException 403 "API restricted to admins.")
  else
    space_query ← cosmos_query_space space;
    target_space ← first_space space_query;
    match next_where (same_name block) (blocks target_space) with
    | None => raise (HTTPException 400 "Invalid block name.")
    | Some (i, target_block) =>
        if negb (bool_decide (NoDup ids))
        then raise (HTTPException 400 "List contains duplicate networks.")
        else
          let resv_cidrs :=
            IPSet_of (List.map resv_cidr (List.filter unsettled (resv target_block))) in
          let ext_cidrs := IPSet_of (List.map ext_cidr (externals target_block)) in
          let '(invalid_nets, outside_block_cidr, net_ipset, net_overlap) :=
            fold_left (scan_vnet ctx target_block) ids ([], [], Leaf false, false) in
          match invalid_nets with
          | _ :: _ =>
              raise (HTTPException 400 ("Invalid network ID(s): " ++ py_list invalid_nets))
          | [] =>
              if net_overlap
              then raise (HTTPException 400 "Network list contains overlapping CIDRs.")
              else if nonempty (inter net_ipset resv_cidrs)
              then raise (HTTPException 400 "Network list contains CIDR(s) that overlap outstanding reservations.")
              else if nonempty (inter net_ipset ext_cidrs)
              then raise (HTTPException 400 "Network list contains CIDR(s) that overlap external networks.")
              else
                match outside_block_cidr with
                | _ :: _ =>
                    raise (HTTPException 400
                             ("Network CIDR(s) not within Block CIDR: "
                              ++ py_list outside_block_cidr))
                | [] =>
                    let new_net_list := List.map (fun net => mkVNetRef net true) ids in
                    cosmos_replace target_space
                      (put_block target_space i (set_vnets target_block new_net_list));;
                    mret new_net_list
                end
          end
    end.

(** The loop of [delete_block_nets]: the networks left and [invalid_nets]. *)
Definition remove_net (s : list VNetRef * list string) (id : string)
  : list VNetRef * list string :=
  let '(current, invalid_nets) := s in
  match next_where (fun item => str_eqb (vnet_id item) id) current with
  | Some (index, _) => (delete index current, invalid_nets)
  | None => (current, invalid_nets ++ [id])
  end.

(** DELETE /spaces/{space}/blocks/{block}/networks *)
Definition delete_block_nets (ctx : Ctx) (req : list string) (space block : string)
  : M unit :=
  if negb (is_admin ctx)
  then raise (HTTPException 403 "API restricted to admins.")
  else
    space_query ← cosmos_query_space space;
    target_space ← first_space space_query;
    match next_where (same_name block) (blocks target_space) with
    | None => raise (HTTPException 400 "Invalid block name.")
    | Some (i, target_block) =>
        if negb (bool_decide (NoDup req))
        then raise (HTTPException 400 "List contains one or more duplicate network id's.")
        else
          let current_nets := List.map vnet_id (vnets target_block) in
          if negb (forallb (fun elem => elem_str elem current_nets) req)
          then raise (HTTPException 400 "List contains one or more invalid network id's.")
          else
            let '(remaining, invalid_nets) :=
              fold_left remove_net req (vnets target_block, []) in
            match invalid_nets with
            | _ :: _ =>
                raise (HTTPException 400
                         ("Invalid network id(s): " ++ py_list invalid_nets ++ "."))
            | [] =>
                cosmos_replace target_space
                  (put_block target_space i (set_vnets target_block remaining))
            end
    end.

(** ** External networks and their subnets *)

Record ExtNetReq := mkExtNetReq {
  ereq_name : string;
  ereq_desc : string;
  ereq_cidr : option (option IPNetwork);
  ereq_size : Z
}.

(** POST /spaces/{space}/blocks/{block}/externals *)
Definition create_external_network (ctx : Ctx) (req : ExtNetReq) (space block : string)
  : M ExtNet :=
  if negb (is_admin ctx)
  then raise (HTTPException 403 "API restricted to admins.")
  else if negb (name_regex (ereq_name req))
  then raise (HTTPException 400 "External network name can be a maximum of 64 characters and may contain alphanumerics, underscores, hypens, and periods.")
  else if negb (desc_regex (ereq_desc req))
  then raise (HTTPException 400 "External network description can be a maximum of 128 characters and may contain alphanumerics, spaces, underscores, hypens, slashes, and periods.")
  else
    space_query ← cosmos_query_space space;
    target_space ← first_space space_query;
    match next_where (same_name block) (blocks target_space) with
    | None => raise (HTTPException 400 "Invalid block name.")
    | Some (i, target_block) =>
        if elem_str (ereq_name req) (List.map ext_name (externals target_block))
        then raise (HTTPException 400 "External network name already exists in block.")
        else
          let block_set :=
            IPSet_of (flat_map (in_block_prefixes (net_list ctx) target_block)
                               (vnets target_block)) in
          let resv_set :=
            IPSet_of (List.map resv_cidr (List.filter unsettled (resv target_block))) in
          let external_set := IPSet_of (List.map ext_cidr (externals target_block)) in
          let avail :=
            xor (IPSet_of [block_cidr target_block])
                (union (union resv_set external_set) block_set) in
          next_cidr ←
            match ereq_cidr req with
            | Some None => raise (HTTPException 400 "Invalid CIDR, please ensure CIDR is in valid IPv4 CIDR notation (x.x.x.x/x).")
            | Some (Some n) =>
                if negb (canonical n)
                then raise (HTTPException 400
                              ("External network cidr invalid, should be "
                               ++ str_of_net (cidr n)))
                else if negb (net_in n (block_cidr target_block))
                then raise (HTTPException 400 "External network CIDR not within block CIDR.")
                else if nonempty (inter (IPSet_of [n]) external_set)
                then raise (HTTPException 400 "Block contains external network(s) which overlap the target external network.")
                else if nonempty (inter (IPSet_of [n]) resv_set)
                then raise (HTTPException 400 "Block contains unfulfilled reservation(s) which overlap the target external network.")
                else if nonempty (inter (IPSet_of [n]) block_set)
                then raise (HTTPException 400 "Block contains a virtual network(s) or hub(s) which overlap the target external network.")
                else mret n
            | None =>
                match List.find (fits (ereq_size req)) (iter_cidrs avail) with
                | None => raise (HTTPException 500 "Network of requested size unavailable in target block.")
                | Some available_network =>
                    lift (carve available_network (ereq_size req) false)
                end
            end;
          let new_external := mkExtNet (ereq_name req) (ereq_desc req) next_cidr [] in
          let target_block' :=
            set_externals target_block (externals target_block ++ [new_external]) in
          cosmos_replace target_space (put_block target_space i target_block');;
          mret new_external
    end.

(** DELETE /spaces/{space}/blocks/{block}/externals/{external} *)
Definition delete_external_network (ctx : Ctx) (space block external : string)
    (force : bool) : M unit :=
  if negb (is_admin ctx)
  then raise (HTTPException 403 "API restricted to admins.")
  else
    space_query ← cosmos_query_space space;
    target_space ← first_space space_query;
    match next_where (same_name block) (blocks target_space) with
    | None => raise (HTTPException 400 "Invalid block name.")
    | Some (i, target_block) =>
        match next_where (fun item => str_eqb (ext_name item) external)
                         (externals target_block) with
        | None => raise (HTTPException 400 "Invalid external network name.")
        | Some (index, ext) =>
            if negb force && negb (Nat.eqb (length (subnets ext)) 0)
            then raise (HTTPException 400 "Cannot delete external network while it contains subnets.")
            else
              cosmos_replace target_space
                (put_block target_space i
                   (set_externals target_block (delete index (externals target_block))))
        end
    end.

Record ExtSubnetReq := mkExtSubnetReq {
  snreq_name : string;
  snreq_desc : string;
  snreq_cidr : option (option IPNetwork);
  snreq_size : Z
}.

(** POST /spaces/{space}/blocks/{block}/externals/{external}/subnets *)
Definition create_external_subnet (ctx : Ctx) (req : ExtSubnetReq)
    (space block external : string) : M ExtSubnet :=
  if negb (is_admin ctx)
  then raise (HTTPException 403 "API restricted to admins.")
  else if negb (name_regex (snreq_name req))
  then raise (HTTPException 400 "External subnet name can be a maximum of 64 characters and may contain alphanumerics, underscores, hypens, and periods.")
  else if negb (desc_regex (snreq_desc req))
  then raise (HTTPException 400 "External subnet description can be a maximum of 128 characters and may contain alphanumerics, spaces, underscores, hypens, slashes, and periods.")
  else
    space_query ← cosmos_query_space space;
    target_space ← first_space space_query;
    match next_where (same_name block) (blocks target_space) with
    | None => raise (HTTPException 400 "Invalid block name.")
    | Some (i, target_block) =>
        match next_where (fun x => str_eqb (lower (ext_name x)) (lower external))
                         (externals target_block) with
        | None => raise (HTTPException 400 "Invalid external network name.")
        | Some (j, target_external) =>
            if elem_str (snreq_name req) (List.map subnet_name (subnets target_external))
            then raise (HTTPException 400 "Subnet name already exists in external network.")
            else
              let subnet_cidrs := List.map subnet_cidr (subnets target_external) in
              let avail :=
                xor (IPSet_of [ext_cidr target_external]) (IPSet_of subnet_cidrs) in
              next_cidr ←
                match snreq_cidr req with
                | Some None => raise (HTTPException 400 "Invalid CIDR, please ensure CIDR is in valid IPv4 CIDR notation (x.x.x.x/x).")
                | Some (Some n) =>
                    if negb (canonical n)
                    then raise (HTTPException 400
                                  ("External subnet CIDR invalid, should be "
                                   ++ str_of_net (cidr n)))
                    else if negb (net_in n (ext_cidr target_external))
                    then raise (HTTPException 400 "External subnet CIDR not within external network CIDR.")
                    else if negb (net_in_set n avail)
                    then raise (HTTPException 409 "Requested subnet CIDR overlaps existing subnet(s).")
                    else mret n
                | None =>
                    match List.find (fits (snreq_size req)) (iter_cidrs avail) with
                    | None => raise (HTTPException 500 "Subnet of requested size unavailable in target external network.")
                    | Some available_subnet =>
                        lift (carve available_subnet (snreq_size req) false)
                    end
                end;
              let new_subnet := mkExtSubnet (snreq_name req) (snreq_desc req) next_cidr [] in
              let target_external' :=
                set_subnets target_external (subnets target_external ++ [new_subnet]) in
              let target_block' :=
                set_externals target_block (<[j := target_external']> (externals target_block)) in
              cosmos_replace target_space (put_block target_space i target_block');;
              mret new_subnet
        end
    end.

(** ** Spaces *)

Record SpaceReq := mkSpaceReq { spreq_name : string; spreq_desc : string }.

(** POST /spaces *)
Definition create_space (ctx : Ctx) (tenant : string) (space : SpaceReq) : M Space :=
  if negb (is_admin ctx)
  then raise (HTTPException 403 "This API is admin restricted.")
  else if negb (name_regex (spreq_name space))
  then raise (HTTPException 400 "Space name can be a maximum of 32 characters and may contain alphanumerics, underscores, hypens, and periods.")
  else if negb (desc_regex (spreq_desc space))
  then raise (HTTPException 400 "Space description can be a maximum of 64 characters and may contain alphanumerics, spaces, underscores, hypens, slashes, and periods.")
  else
    space_query ← cosmos_query_spaces;
    match List.find (fun x => str_eqb (lower (space_name x)) (lower (spreq_name space)))
                    space_query with
    | Some _ => raise (HTTPException 400 "Space name must be unique.")
    | None =>
        let new_space :=
          mkSpace (new_id ctx) tenant (spreq_name space) (spreq_desc space) [] in
        cosmos_upsert new_space;;
        mret new_space
    end.

(** DELETE /spaces/{space} *)
Definition delete_space (ctx : Ctx) (space : string) (force : bool) : M unit :=
  if negb (is_admin ctx)
  then raise (HTTPException 403 "This API is admin restricted.")
  else
    space_query ← cosmos_query_space space;
    target_space ← first_space space_query;
    if negb force && negb (Nat.eqb (length (blocks target_space)) 0)
    then raise (HTTPException 400 "Cannot delete space while it contains blocks.")
    else cosmos_delete target_space.

Definition set_space_name (s : Space) (n : string) : Space :=
  mkSpace (space_id s) (tenant_id s) n (space_desc s) (blocks s).

Definition set_space_desc (s : Space) (d : string) : Space :=
  mkSpace (space_id s) (tenant_id s) (space_name s) d (blocks s).

Definition valid_space_name_update (name : PatchValue) (of_space : string) : M bool :=
  spaces ← cosmos_query_spaces;
  let space_names :=
    List.map (fun c => lower (space_name c))
      (List.filter (fun c => negb (str_eqb (lower (space_name c)) (lower of_space)))
                   spaces) in
  if elem_str (lower (text_of name)) space_names
  then raise (HTTPException 400 "Updated Space name must be unique.")
  else mret (name_regex (text_of name)).

(** A regular expression as validator: [re.match(valid, str(value))]. *)
Definition regex_valid (re : string -> bool) (v : PatchValue) : M bool :=
  mret (re (text_of v)).

Fixpoint scrub_space_patch (patch : list PatchOp) (of_space : string)
  : M (list PatchOp) :=
  match patch with
  | [] => mret []
  | item :: rest =>
      kept ←
        (if str_eqb (op item) "replace" && str_eqb (path item) "/name" then
           valid_space_name_update (pvalue item) of_space
             ≫= keep_valid item "Space name can be a maximum of 64 characters and may contain alphanumerics, underscores, hypens, and periods."
         else if str_eqb (op item) "replace" && str_eqb (path item) "/desc" then
           regex_valid desc_regex (pvalue item)
             ≫= keep_valid item "Space description can be a maximum of 128 characters and may contain alphanumerics, spaces, underscores, hypens, slashes, and periods."
         else mret []);
      scrubbed ← scrub_space_patch rest of_space;
      mret (kept ++ scrubbed)
  end.

Definition apply_space_op (s : Space) (item : PatchOp) : Space :=
  let v := text_of (pvalue item) in
  if str_eqb (path item) "/name" then set_space_name s v else set_space_desc s v.

(** PATCH /spaces/{space} *)
Definition update_space (ctx : Ctx) (updates : list PatchOp) (space : string) : M Space :=
  if negb (is_admin ctx)
  then raise (HTTPException 403 "This API is admin restricted.")
  else
    space_query ← cosmos_query_space space;
    target_space ← first_space space_query;
    scrubbed_patch ← scrub_space_patch updates space;
    let update_space := fold_left apply_space_op scrubbed_patch target_space in
    cosmos_replace target_space update_space;;
    mret update_space.

(** *** Patches of an external network *)

Definition same_ext (name : string) (e : ExtNet) : bool :=
  str_eqb (lower (ext_name e)) (lower name).

Definition same_subnet (name : string) (s : ExtSubnet) : bool :=
  str_eqb (lower (subnet_name s)) (lower name).

Definition same_endpoint (name : string) (e : ExtEndpoint) : bool :=
  str_eqb (lower (endpoint_name e)) (lower name).

(** The rows of the validators' queries: the blocks, externals, subnets
    and endpoints under the names of the path. *)
Definition rows_blocks (st : list Space) : list Block := flat_map blocks st.

Definition rows_externals (of_block : string) (bs : list Block) : list ExtNet :=
  flat_map externals (List.filter (same_name of_block) bs).

Definition rows_subnets (of_ext : string) (es : list ExtNet) : list ExtSubnet :=
  flat_map subnets (List.filter (same_ext of_ext) es).

Definition rows_endpoints (of_subnet : string) (ss : list ExtSubnet) : list ExtEndpoint :=
  flat_map endpoints (List.filter (same_subnet of_subnet) ss).

Definition valid_ext_network_name_update (name : PatchValue)
    (in_space of_block of_ext : string) : M bool :=
  spaces ← cosmos_query_space in_space;
  let other_networks :=
    List.map (fun u => lower (ext_name u))
      (List.filter (fun u => negb (same_ext of_ext u))
                   (rows_externals of_block (rows_blocks spaces))) in
  if elem_str (lower (text_of name)) other_networks
  then raise (HTTPException 400 "Updated External Network name cannot match existing External Networks within the Block.")
  else mret (name_regex (text_of name)).

(** Every prefix of the networks of a block, matched by exact id. *)
Definition vnet_prefixes (nets : list Network) (b : Block) : list IPNetwork :=
  flat_map
    (fun vnet =>
       match List.find (fun i => str_eqb (net_id i) (vnet_id vnet)) nets with
       | Some target_net => prefixes target_net
       | None => []
       end)
    (vnets b).

Definition valid_ext_network_cidr_update (ctx : Ctx) (cidr : PatchValue)
    (in_space of_block of_ext : string) : M bool :=
  spaces ← cosmos_query_space in_space;
  let all_blocks := rows_blocks spaces in
  let all_externals := rows_externals of_block all_blocks in
  let target_block := List.find (same_name of_block) all_blocks in
  match target_block, List.find (same_ext of_ext) all_externals with
  | Some tb, Some target_external =>
      if value_is cidr (ext_cidr target_external) then mret true
      else
        external_network ← parse_canonical "Updated External Network" cidr;
        if negb (net_in external_network (block_cidr tb))
        then raise (HTTPException 400 "Updated External Network CIDR must be contained within the Block CIDR.")
        else mret false
  | _, _ => mret false
  end ≫= λ same,
  if same : bool then mret true
  else
    match target_block with
    | None => raise TypeError
    | Some tb =>
        let block_cidrs :=
          vnet_prefixes (net_list ctx) tb
          ++ List.map resv_cidr (List.filter unsettled (resv tb))
          ++ List.map ext_cidr
               (List.filter (fun e => negb (str_eqb (ext_name e) of_ext)) all_externals) in
        let external_cidrs :=
          List.map subnet_cidr
            (flat_map subnets
               (List.filter (fun e => str_eqb (ext_name e) of_ext) all_externals)) in
        update_set ← value_set cidr;
        if nonempty (inter (IPSet_of block_cidrs) update_set)
        then raise (HTTPException 400 "Updated CIDR cannot overlap other Virtual Networks, External Networks, or unfulfilled Reservations within the Block.")
        else mret (issubset (IPSet_of external_cidrs) update_set)
    end.

Definition set_ext_name (e : ExtNet) (n : string) : ExtNet :=
  mkExtNet n (ext_desc e) (ext_cidr e) (subnets e).

Definition set_ext_desc (e : ExtNet) (d : string) : ExtNet :=
  mkExtNet (ext_name e) d (ext_cidr e) (subnets e).

Definition set_ext_cidr (e : ExtNet) (c : IPNetwork) : ExtNet :=
  mkExtNet (ext_name e) (ext_desc e) c (subnets e).

Fixpoint scrub_ext_network_patch (ctx : Ctx) (patch : list PatchOp)
    (in_space of_block of_ext : string) : M (list PatchOp) :=
  match patch with
  | [] => mret []
  | item :: rest =>
      kept ←
        (if str_eqb (op item) "replace" && str_eqb (path item) "/name" then
           valid_ext_network_name_update (pvalue item) in_space of_block of_ext
             ≫= keep_valid item "External Network name can be a maximum of 64 characters and may contain alphanumerics, underscores, hypens, slashes, and periods."
         else if str_eqb (op item) "replace" && str_eqb (path item) "/desc" then
           regex_valid desc_regex (pvalue item)
             ≫= keep_valid item "External Network description can be a maximum of 128 characters and may contain alphanumerics, spaces, underscores, hypens, slashes, and periods."
         else if str_eqb (op item) "replace" && str_eqb (path item) "/cidr" then
           valid_ext_network_cidr_update ctx (pvalue item) in_space of_block of_ext
             ≫= keep_valid item "External Network CIDR must be in valid CIDR notation (x.x.x.x/x), must contain all existing External Subnets and cannot overlap existing External Networks, Virtual Networks or unfulfilled Reservations within the Block."
         else mret []);
      scrubbed ← scrub_ext_network_patch ctx rest in_space of_block of_ext;
      mret (kept ++ scrubbed)
  end.

Definition apply_ext_op (e : ExtNet) (item : PatchOp) : ExtNet :=
  let v := text_of (pvalue item) in
  if str_eqb (path item) "/name" then set_ext_name e v
  else if str_eqb (path item) "/desc" then set_ext_desc e v
  else
    match pvalue item with CidrValue _ n => set_ext_cidr e n | _ => e end.

(** PATCH /spaces/{space}/blocks/{block}/externals/{external} *)
Definition update_ext_network (ctx : Ctx) (updates : list PatchOp)
    (space block external : string) : M ExtNet :=
  if negb (is_admin ctx)
  then raise (HTTPException 403 "This API is admin restricted.")
  else
    space_query ← cosmos_query_space space;
    target_space ← first_space space_query;
    match next_where (same_name block) (blocks target_space) with
    | None => raise (HTTPException 400 "Invalid block name.")
    | Some (i, target_block) =>
        match next_where (same_ext external) (externals target_block) with
        | None => raise (HTTPException 400 "Invalid external network name.")
        | Some (j, update_ext_network) =>
            scrubbed_patch ← scrub_ext_network_patch ctx updates space block external;
            let updated := fold_left apply_ext_op scrubbed_patch update_ext_network in
            cosmos_replace target_space
              (put_block target_space i
                 (set_externals target_block (<[j := updated]> (externals target_block))));;
            mret updated
        end
    end.

(** *** Patches of an external subnet *)

(** The query of [valid_ext_subnet_name_update] selects the subnets, not
    their names: the new name, a [str], is never [in] the result. *)
Definition valid_ext_subnet_name_update (name : PatchValue) : M bool :=
  regex_valid name_regex name.

Definition valid_ext_subnet_cidr_update (cidr : PatchValue)
    (in_space of_block of_ext of_subnet : string) : M bool :=
  spaces ← cosmos_query_space in_space;
  let all_externals := rows_externals of_block (rows_blocks spaces) in
  let all_subnets := rows_subnets of_ext all_externals in
  match List.find (same_ext of_ext) all_externals,
        List.find (same_subnet of_subnet) all_subnets with
  | Some target_external, Some target_subnet =>
      if value_is cidr (subnet_cidr target_subnet) then mret true
      else
        subnet_network ← parse_canonical "Updated External Subnet" cidr;
        if negb (net_in subnet_network (ext_cidr target_external))
        then raise (HTTPException 400 "Updated External Subnet CIDR must be contained within the External Network CIDR.")
        else mret false
  | _, _ => mret false
  end ≫= λ same,
  if same : bool then mret true
  else
    let external_cidrs :=
      List.map subnet_cidr
        (List.filter (fun s => negb (str_eqb (subnet_name s) of_subnet)) all_subnets) in
    let subnet_ips :=
      List.map (fun e => mkNet (endpoint_ip e) 32)
        (flat_map endpoints
           (List.filter (fun s => str_eqb (subnet_name s) of_subnet) all_subnets)) in
    update_set ← value_set cidr;
    if nonempty (inter (IPSet_of external_cidrs) update_set)
    then raise (HTTPException 400 "Updated CIDR cannot overlap other External Subnets within the External Network.")
    else mret (issubset (IPSet_of subnet_ips) update_set).

Definition set_subnet_name (s : ExtSubnet) (n : string) : ExtSubnet :=
  mkExtSubnet n (subnet_desc s) (subnet_cidr s) (endpoints s).

Definition set_subnet_desc (s : ExtSubnet) (d : string) : ExtSubnet :=
  mkExtSubnet (subnet_name s) d (subnet_cidr s) (endpoints s).

Definition set_subnet_cidr (s : ExtSubnet) (c : IPNetwork) : ExtSubnet :=
  mkExtSubnet (subnet_name s) (subnet_desc s) c (endpoints s).

Definition set_endpoints (s : ExtSubnet) (l : list ExtEndpoint) : ExtSubnet :=
  mkExtSubnet (subnet_name s) (subnet_desc s) (subnet_cidr s) l.

Fixpoint scrub_ext_subnet_patch (patch : list PatchOp)
    (in_space of_block of_ext of_subnet : string) : M (list PatchOp) :=
  match patch with
  | [] => mret []
  | item :: rest =>
      kept ←
        (if str_eqb (op item) "replace" && str_eqb (path item) "/name" then
           valid_ext_subnet_name_update (pvalue item)
             ≫= keep_valid item "External Subnet name can be a maximum of 64 characters and may contain alphanumerics, underscores, hypens, slashes, and periods."
         else if str_eqb (op item) "replace" && str_eqb (path item) "/desc" then
           regex_valid desc_regex (pvalue item)
             ≫= keep_valid item "External Subnet description can be a maximum of 128 characters and may contain alphanumerics, spaces, underscores, hypens, slashes, and periods."
         else if str_eqb (op item) "replace" && str_eqb (path item) "/cidr" then
           valid_ext_subnet_cidr_update (pvalue item) in_space of_block of_ext of_subnet
             ≫= keep_valid item "External Subnet CIDR must be in valid CIDR notation (x.x.x.x/x), must contain all existing Endpoints and cannot overlap existing External Subnets within the External Network."
         else mret []);
      scrubbed ← scrub_ext_subnet_patch rest in_space of_block of_ext of_subnet;
      mret (kept ++ scrubbed)
  end.

Definition apply_subnet_op (e : ExtSubnet) (item : PatchOp) : ExtSubnet :=
  let v := text_of (pvalue item) in
  if str_eqb (path item) "/name" then set_subnet_name e v
  else if str_eqb (path item) "/desc" then set_subnet_desc e v
  else
    match pvalue item with CidrValue _ n => set_subnet_cidr e n | _ => e end.

(** The walk every subnet handler starts with: the block, the external
    network and the subnet of the path, each with its position. *)
Definition find_subnet (target_space : Space) (block external subnet : string)
    (no_subnet : string)
  : M (nat * Block * (nat * ExtNet) * (nat * ExtSubnet)) :=
  match next_where (same_name block) (blocks target_space) with
  | None => raise (HTTPException 400 "Invalid block name.")
  | Some (i, target_block) =>
      match next_where (same_ext external) (externals target_block) with
      | None => raise (HTTPException 400 "Invalid external network name.")
      | Some (j, target_ext_network) =>
          match next_where (same_subnet subnet) (subnets target_ext_network) with
          | None => raise (HTTPException 400 no_subnet)
          | Some (k, target_ext_subnet) =>
              mret (i, target_block, (j, target_ext_network), (k, target_ext_subnet))
          end
      end
  end.

(** The document after the subnet at [i], [j], [k] became [sn]. *)
Definition put_subnet (target_space : Space) (i : nat) (b : Block)
    (j : nat) (e : ExtNet) (k : nat) (sn : ExtSubnet) : Space :=
  put_block target_space i
    (set_externals b (<[j := set_subnets e (<[k := sn]> (subnets e))]> (externals b))).

(** PATCH .../externals/{external}/subnets/{subnet} *)
Definition update_ext_subnet (ctx : Ctx) (updates : list PatchOp)
    (space block external subnet : string) : M ExtSubnet :=
  if negb (is_admin ctx)
  then raise (HTTPException 403 "This API is admin restricted.")
  else
    space_query ← cosmos_query_space space;
    target_space ← first_space space_query;
    found ← find_subnet target_space block external subnet "Invalid external subnet name.";
    let '(i, b, (j, e), (k, update_ext_subnet)) := found in
    scrubbed_patch ← scrub_ext_subnet_patch updates space block external subnet;
    let updated := fold_left apply_subnet_op scrubbed_patch update_ext_subnet in
    cosmos_replace target_space (put_subnet target_space i b j e k updated);;
    mret updated.

(** DELETE .../externals/{external}/subnets/{subnet} *)
Definition delete_external_subnet (ctx : Ctx) (space block external subnet : string)
    (force : bool) : M unit :=
  if negb (is_admin ctx)
  then raise (HTTPException 403 "API restricted to admins.")
  else
    space_query ← cosmos_query_space space;
    target_space ← first_space space_query;
    match next_where (same_name block) (blocks target_space) with
    | None => raise (HTTPException 400 "Invalid block name.")
    | Some (i, target_block) =>
        match next_where (same_ext external) (externals target_block) with
        | None => raise (HTTPException 400 "Invalid external network name.")
        | Some (j, target_ext_network) =>
            match next_where (fun item => str_eqb (subnet_name item) subnet)
                             (subnets target_ext_network) with
            | None => raise (HTTPException 400 "Invalid external subnet name.")
            | Some (index, sn) =>
                if negb force && negb (Nat.eqb (length (endpoints sn)) 0)
                then raise (HTTPException 400 "Cannot delete external subnet while it contains endpoints.")
                else
                  cosmos_replace target_space
                    (put_block target_space i
                       (set_externals target_block
                          (<[j := set_subnets target_ext_network
                                    (delete index (subnets target_ext_network))]>
                             (externals target_block))))
            end
        end
    end.

(** ** Endpoints of an external subnet

    Two operations of netaddr stay parameters of this part: the host
    addresses of a network ([IPNetwork.iter_hosts]) and the subset test of
    an [IPSet] against a network object ([IPSet.issubset(IPNetwork)]). *)

Record ExtEndpointReq := mkExtEndpointReq {
  epreq_name : string;
  epreq_desc : string;
  (** [None]: no address; [Some None]: a text that is no address. *)
  epreq_ip : option (option Z)
}.

Definition addr_set (l : list Z) : IPSet := IPSet_of (List.map (fun a => mkNet a 32) l).

(** [IPAddress in IPNetwork] *)
Definition addr_in (a : Z) (n : IPNetwork) : bool :=
  Z.shiftr (value n) (hostbits n) =? Z.shiftr a (hostbits n).

Definition valid_ext_endpoint_name_update (name : PatchValue) : M bool :=
  regex_valid name_regex name.

Definition valid_ext_endpoint_ip_update (ip_value : PatchValue)
    (in_space of_block of_ext of_subnet of_endpoint : string) : M bool :=
  spaces ← cosmos_query_space in_space;
  let all_subnets := rows_subnets of_ext (rows_externals of_block (rows_blocks spaces)) in
  let all_endpoints := rows_endpoints of_subnet all_subnets in
  match List.find (same_subnet of_subnet) all_subnets,
        List.find (same_endpoint of_endpoint) all_endpoints with
  | Some target_subnet, Some target_endpoint =>
      if str_eqb (text_of ip_value) (str_of_addr (endpoint_ip target_endpoint))
      then mret true
      else
        match ip_value with
        | AddrValue _ a =>
            if negb (addr_in a (subnet_cidr target_subnet))
            then raise (HTTPException 400 "Updated External Endpoint IP must be contained within the External Subnet CIDR.")
            else mret false
        | _ => raise (HTTPException 400 "Updated External Endpoint IP must be in valid IPv4 notation (x.x.x.x).")
        end
  | _, _ => mret false
  end ≫= λ same,
  if same : bool then mret true
  else
    let subnet_ips :=
      List.map endpoint_ip
        (List.filter (fun e => negb (str_eqb (endpoint_name e) of_endpoint)) all_endpoints) in
    update_set ← value_set ip_value;
    if nonempty (inter (addr_set subnet_ips) update_set)
    then raise (HTTPException 400 "Updated IP cannot overlap other External Endpoints within the External Subnet.")
    else mret true.

Fixpoint scrub_ext_endpoint_patch (patch : list PatchOp)
    (in_space of_block of_ext of_subnet of_endpoint : string) : M (list PatchOp) :=
  match patch with
  | [] => mret []
  | item :: rest =>
      kept ←
        (if str_eqb (op item) "replace" && str_eqb (path item) "/name" then
           valid_ext_endpoint_name_update (pvalue item)
             ≫= keep_valid item "External Endpoint name can be a maximum of 64 characters and may contain alphanumerics, underscores, hypens, slashes, and periods."
         else if str_eqb (op item) "replace" && str_eqb (path item) "/desc" then
           regex_valid desc_regex (pvalue item)
             ≫= keep_valid item "External Endpoint description can be a maximum of 128 characters and may contain alphanumerics, spaces, underscores, hypens, slashes, and periods."
         else if str_eqb (op item) "replace" && str_eqb (path item) "/ip" then
           valid_ext_endpoint_ip_update (pvalue item)
             in_space of_block of_ext of_subnet of_endpoint
             ≫= keep_valid item "External Endpoint IP must be in valid IPv4 notation (x.x.x.x) and cannot overlap existing External Endpoints within the External Subnet."
         else mret []);
      scrubbed ←
        scrub_ext_endpoint_patch rest in_space of_block of_ext of_subnet of_endpoint;
      mret (kept ++ scrubbed)
  end.

Definition apply_endpoint_op (e : ExtEndpoint) (item : PatchOp) : ExtEndpoint :=
  let v := text_of (pvalue item) in
  if str_eqb (path item) "/name"
  then mkExtEndpoint v (endpoint_desc e) (endpoint_ip e)
  else if str_eqb (path item) "/desc"
  then mkExtEndpoint (endpoint_name e) v (endpoint_ip e)
  else
    match pvalue item with
    | AddrValue _ a => mkExtEndpoint (endpoint_name e) (endpoint_desc e) a
    | _ => e
    end.

(** PATCH .../subnets/{subnet}/endpoints/{endpoint} *)
Definition update_ext_endpoint (ctx : Ctx) (updates : list PatchOp)
    (space block external subnet endpoint : string) : M ExtEndpoint :=
  if negb (is_admin ctx)
  then raise (HTTPException 403 "This API is admin restricted.")
  else
    space_query ← cosmos_query_space space;
    target_space ← first_space space_query;
    found ← find_subnet target_space block external subnet "Invalid external subnet name.";
    let '(i, b, (j, e), (k, external_subnet)) := found in
    match next_where (same_endpoint endpoint) (endpoints external_subnet) with
    | None => raise (HTTPException 400 "Invalid external endpoint name.")
    | Some (m, update_ext_endpoint) =>
        scrubbed_patch ←
          scrub_ext_endpoint_patch updates space block external subnet endpoint;
        let updated := fold_left apply_endpoint_op scrubbed_patch update_ext_endpoint in
        cosmos_replace target_space
          (put_subnet target_space i b j e k
             (set_endpoints external_subnet (<[m := updated]> (endpoints external_subnet))));;
        mret updated
    end.

(** The loop of the two bulk deletions by name. *)
Definition remove_endpoint (s : list ExtEndpoint * list string) (name : string)
  : list ExtEndpoint * list string :=
  let '(current, invalid) := s in
  match next_where (fun item => str_eqb (endpoint_name item) name) current with
  | Some (index, _) => (delete index current, invalid)
  | None => (current, invalid ++ [name])
  end.

(** DELETE .../subnets/{subnet}/endpoints *)
Definition delete_external_subnet_endpoints (ctx : Ctx) (req : list string)
    (space block external subnet : string) : M unit :=
  if negb (is_admin ctx)
  then raise (HTTPException 403 "API restricted to admins.")
  else
    space_query ← cosmos_query_space space;
    target_space ← first_space space_query;
    found ← find_subnet target_space block external subnet
              "Invalid external network subnet name.";
    let '(i, b, (j, e), (k, target_ext_subnet)) := found in
    if negb (bool_decide (NoDup req))
    then raise (HTTPException 400 "List contains one or more duplicate endpoint names.")
    else
      let '(remaining, invalid_ext_nets) :=
        fold_left remove_endpoint req (endpoints target_ext_subnet, []) in
      match invalid_ext_nets with
      | _ :: _ =>
          raise (HTTPException 400
                   ("Invalid endpoint name(s): " ++ py_list invalid_ext_nets ++ "."))
      | [] =>
          cosmos_replace target_space
            (put_subnet target_space i b j e k (set_endpoints target_ext_subnet remaining))
      end.

(** DELETE .../subnets/{subnet}/endpoints/{endpoint} *)
Definition delete_external_subnet_endpoint (ctx : Ctx)
    (space block external subnet endpoint : string) : M unit :=
  if negb (is_admin ctx)
  then raise (HTTPException 403 "API restricted to admins.")
  else
    space_query ← cosmos_query_space space;
    target_space ← first_space space_query;
    found ← find_subnet target_space block external subnet "Invalid external subnet name.";
    let '(i, b, (j, e), (k, target_ext_subnet)) := found in
    match next_where (fun item => str_eqb (endpoint_name item) endpoint)
                     (endpoints target_ext_subnet) with
    | None => raise (HTTPException 400 "Invalid endpoint name.")
    | Some (index, _) =>
        cosmos_replace target_space
          (put_subnet target_space i b j e k
             (set_endpoints target_ext_subnet (delete index (endpoints target_ext_subnet))))
    end.

Section Hosts.

Variable iter_hosts : IPNetwork -> list Z.
Variable issubset_network : IPSet -> IPNetwork -> bool.

(** The next free host of a subnet: the first prefix of
    [endpoint_addr_set ^ IPSet(subnet_network.iter_hosts())], then its
    first /32.  With no prefix left, [None.subnet] is an attribute error. *)
Definition next_host (endpoint_addr_set : IPSet) (subnet_network : IPNetwork)
  : Outcome Z :=
  let avail := xor endpoint_addr_set (addr_set (iter_hosts subnet_network)) in
  match List.find (fits 32) (iter_cidrs avail) with
  | None => Raise AttributeError
  | Some available_block =>
      next_ip ← carve available_block 32 false;
      mret (value next_ip)
  end.

(** POST .../subnets/{subnet}/endpoints *)
Definition create_external_subnet_endpoint (ctx : Ctx) (endpoint : ExtEndpointReq)
    (space block external subnet : string) : M ExtEndpoint :=
  if negb (is_admin ctx)
  then raise (HTTPException 403 "API restricted to admins.")
  else
    space_query ← cosmos_query_space space;
    target_space ← first_space space_query;
    found ← find_subnet target_space block external subnet
              "Invalid external network subnet name.";
    let '(i, b, (j, e), (k, target_ext_subnet)) := found in
    let endpoint_names :=
      List.map (fun x => lower (endpoint_name x)) (endpoints target_ext_subnet) in
    if elem_str (lower (epreq_name endpoint)) endpoint_names
    then raise (HTTPException 400 "Target endpoint name overlaps existing endpoint name.")
    else if negb (name_regex (epreq_name endpoint))
    then raise (HTTPException 400 "Endpoint names can be a maximum of 32 characters and may contain alphanumerics, underscores, hypens, and periods.")
    else if negb (desc_regex (epreq_desc endpoint))
    then raise (HTTPException 400 "Endpoint descriptions can be a maximum of 64 characters and may contain alphanumerics, spaces, underscores, hypens, slashes, and periods.")
    else
      let subnet_network := subnet_cidr target_ext_subnet in
      let subnet_hosts_count := length (iter_hosts subnet_network) in
      if (subnet_hosts_count <=? length (endpoints target_ext_subnet))%nat
      then raise (HTTPException 400 "External subnet has reached maximum available host addresses.")
      else
        let endpoint_addr_set :=
          addr_set (List.map endpoint_ip (endpoints target_ext_subnet)) in
        new_ip ←
          match epreq_ip endpoint with
          | Some None => raise AddrFormatError
          | Some (Some a) =>
              if nonempty (inter endpoint_addr_set (addr_set [a]))
              then raise (HTTPException 400 "Target endpoint IP address overlaps existing endpoint IP address.")
              else if negb (issubset_network (addr_set [a]) subnet_network)
              then raise (HTTPException 400 "Target endpoint IP address outside the external subnet CIDR.")
              else mret a
          | None => lift (next_host endpoint_addr_set subnet_network)
          end;
        let new_endpoint :=
          mkExtEndpoint (epreq_name endpoint) (epreq_desc endpoint) new_ip in
        cosmos_replace target_space
          (put_subnet target_space i b j e k
             (set_endpoints target_ext_subnet
                (endpoints target_ext_subnet ++ [new_endpoint])));;
        mret new_endpoint.

(** The first loop of [update_external_subnet_enpoints] over the given
    addresses: [endpoint_addr_set] and [endpoint_addr_overlap]. *)
Fixpoint given_addrs (eps : list ExtEndpointReq) (s : IPSet) (overlap : bool)
  : Outcome (IPSet * bool) :=
  match eps with
  | [] => Return (s, overlap)
  | endpoint :: rest =>
      match epreq_ip endpoint with
      | None => given_addrs rest s overlap
      | Some None => Raise AddrFormatError
      | Some (Some a) =>
          if negb (nonempty (inter s (addr_set [a])))
          then given_addrs rest (union s (net_set (mkNet a 32))) overlap
          else given_addrs rest s true
      end
  end.

(** Its second loop: the endpoints without an address get the next host. *)
Fixpoint assign_addrs (subnet_network : IPNetwork) (eps : list ExtEndpointReq)
    (s : IPSet) : Outcome (list ExtEndpoint) :=
  match eps with
  | [] => Return []
  | endpoint :: rest =>
      match epreq_ip endpoint with
      | Some (Some a) =>
          done ← assign_addrs subnet_network rest s;
          mret (mkExtEndpoint (epreq_name endpoint) (epreq_desc endpoint) a :: done)
      | Some None => Raise AddrFormatError
      | None =>
          a ← next_host s subnet_network;
          done ← assign_addrs subnet_network rest (union s (net_set (mkNet a 32)));
          mret (mkExtEndpoint (epreq_name endpoint) (epreq_desc endpoint) a :: done)
      end
  end.

(** PUT .../subnets/{subnet}/endpoints.  An entry whose name or
    description fails its pattern is reported by indexing the request
    object, which raises [TypeError]. *)
Definition update_external_subnet_enpoints (ctx : Ctx) (eps : list ExtEndpointReq)
    (space block external subnet : string) : M (list ExtEndpoint) :=
  if negb (is_admin ctx)
  then raise (HTTPException 403 "API restricted to admins.")
  else if negb (bool_decide (NoDup (List.map epreq_name eps)))
  then raise (HTTPException 400 "List cannot contain duplicate endpoint names.")
  else if negb (forallb (fun e => name_regex (epreq_name e) && desc_regex (epreq_desc e)) eps)
  then raise TypeError
  else
    space_query ← cosmos_query_space space;
    target_space ← first_space space_query;
    found ← find_subnet target_space block external subnet
              "Invalid external network subnet name.";
    let '(i, b, (j, e), (k, target_ext_subnet)) := found in
    let subnet_network := subnet_cidr target_ext_subnet in
    if (length (iter_hosts subnet_network) <? length eps)%nat
    then raise (HTTPException 400 "Number of endpoints exceeds available host addresses in subnet.")
    else
      r ← lift (given_addrs eps (Leaf false) false);
      let '(endpoint_addr_set, endpoint_addr_overlap) := r in
      if endpoint_addr_overlap : bool
      then raise (HTTPException 400 "List cannot contain overlapping endpoint IP addresses.")
      else if negb (issubset_network endpoint_addr_set subnet_network)
      then raise (HTTPException 400 "List contains endpoint IP addresses outside the subnet CIDR.")
      else
        new_endpoints ← lift (assign_addrs subnet_network eps endpoint_addr_set);
        cosmos_replace target_space
          (put_subnet target_space i b j e k (set_endpoints target_ext_subnet new_endpoints));;
        mret new_endpoints.

(** ** The write endpoints of the router *)

Inductive WriteRequest :=
| POST_space (tenant : string) (body : SpaceReq)
| PATCH_space (space : string) (updates : list PatchOp)
| DELETE_space (space : string) (force : bool)
| POST_space_reservations (space : string) (body : SpaceCIDRReq)
| POST_block (space : string) (body : BlockReq)
| PATCH_block (space block : string) (updates : list PatchOp)
| DELETE_block (space block : string) (force : bool)
| POST_networks (space block : string) (body : VNetRef)
| PUT_networks (space block : string) (body : list string)
| DELETE_networks (space block : string) (body : list string)
| POST_external (space block : string) (body : ExtNetReq)
| PATCH_external (space block external : string) (updates : list PatchOp)
| DELETE_external (space block external : string) (force : bool)
| POST_subnet (space block external : string) (body : ExtSubnetReq)
| PATCH_subnet (space block external subnet : string) (updates : list PatchOp)
| DELETE_subnet (space block external subnet : string) (force : bool)
| POST_endpoint (space block external subnet : string) (body : ExtEndpointReq)
| PUT_endpoints (space block external subnet : string) (body : list ExtEndpointReq)
| DELETE_endpoints (space block external subnet : string) (body : list string)
| PATCH_endpoint (space block external subnet endpoint : string) (updates : list PatchOp)
| DELETE_endpoint (space block external subnet endpoint : string)
| POST_reservation (space block : string) (body : BlockCIDRReq)
| DELETE_reservations (space block : string) (body : list string)
| DELETE_reservation (space block reservation : string).

(** What the caller sees of a write: a value was returned, or the
    exception that ended the request. *)
Definition answer {A} (m : M A) : M unit := m ≫= λ _, mret tt.

Definition handle (ctx : Ctx) (r : WriteRequest) : M unit :=
  match r with
  | POST_space t body => answer (create_space ctx t body)
  | PATCH_space s u => answer (update_space ctx u s)
  | DELETE_space s f => delete_space ctx s f
  | POST_space_reservations s body => answer (create_multi_block_reservation ctx body s)
  | POST_block s body => answer (create_block ctx body s)
  | PATCH_block s b u => answer (update_block ctx u s b)
  | DELETE_block s b f => delete_block ctx s b f
  | POST_networks s b body => answer (create_block_net ctx body s b)
  | PUT_networks s b body => answer (update_block_vnets ctx body s b)
  | DELETE_networks s b body => delete_block_nets ctx body s b
  | POST_external s b body => answer (create_external_network ctx body s b)
  | PATCH_external s b e u => answer (update_ext_network ctx u s b e)
  | DELETE_external s b e f => delete_external_network ctx s b e f
  | POST_subnet s b e body => answer (create_external_subnet ctx body s b e)
  | PATCH_subnet s b e n u => answer (update_ext_subnet ctx u s b e n)
  | DELETE_subnet s b e n f => delete_external_subnet ctx s b e n f
  | POST_endpoint s b e n body => answer (create_external_subnet_endpoint ctx body s b e n)
  | PUT_endpoints s b e n body => answer (update_external_subnet_enpoints ctx body s b e n)
  | DELETE_endpoints s b e n body => delete_external_subnet_endpoints ctx body s b e n
  | PATCH_endpoint s b e n p u => answer (update_ext_endpoint ctx u s b e n p)
  | DELETE_endpoint s b e n p => delete_external_subnet_endpoint ctx s b e n p
  | POST_reservation s b body => answer (create_block_reservation ctx body s b)
  | DELETE_reservations s b body => delete_block_reservations ctx body s b
  | DELETE_reservation s b r => delete_block_reservation ctx s b r
  end.

End Hosts.

(** ** The invariants and the words of the specification *)

(** The document a request for [space] works on. *)
Definition target_of (space : string) (st : Store) : option Space :=
  head (List.filter (fun c => str_eqb (lower (space_name c)) (lower space)) st).

(** The block a request for [block] works on: the first block of the
    document whose name is [block] up to the case of the letters. *)
Definition block_at (sp : Space) (block : string) (i : nat) (b : Block) : Prop :=
  blocks sp !! i = Some b
  /\ lower (block_name b) = lower block
  /\ forall j c, (j < i)%nat -> blocks sp !! j = Some c ->
       lower (block_name c) <> lower block.

Fixpoint pairwise_disjoint (l : list IPNetwork) : bool :=
  match l with
  | [] => true
  | x :: r => forallb (fun y => negb (overlaps x y)) r && pairwise_disjoint r
  end.

(** I3, block coverage: the in-block prefixes of the networks, the
    externals and the open reservations lie in the block and do not
    overlap one another. *)
Definition I3 (nets : list Network) (b : Block) : bool :=
  valid_net (block_cidr b)
  && forallb (fun c => valid_net c && net_in c (block_cidr b)) (block_all_cidrs nets b)
  && pairwise_disjoint (block_all_cidrs nets b).

(** The free set of a block: its CIDR minus what is claimed in it. *)
Definition free_set (nets : list Network) (b : Block) : IPSet :=
  diff (IPSet_of [block_cidr b]) (IPSet_of (block_all_cidrs nets b)).

(** A free address of a block, in the words of the specification: an
    address of the block's CIDR that lies in no in-block prefix of its
    networks, in no external network and in no unsettled reservation. *)
Definition free_addr (nets : list Network) (b : Block) (a : Z) : bool :=
  net_has (block_cidr b) a
  && negb (existsb
             (fun v =>
                match List.find (fun n => str_eqb (lower (net_id n)) (lower (vnet_id v)))
                                nets with
                | Some n =>
                    existsb (fun x => net_in x (block_cidr b) && net_has x a) (prefixes n)
                | None => false
                end)
             (vnets b))
  && negb (existsb (fun e => net_has (ext_cidr e) a) (externals b))
  && negb (existsb (fun r => unsettled r && net_has (resv_cidr r) a) (resv b)).

(** A prefix all of whose addresses are free. *)
Definition all_free (nets : list Network) (b : Block) (p : IPNetwork) : Prop :=
  forall a, 0 <= a < 2 ^ 32 -> net_has p a = true -> free_addr nets b a = true.

(** A maximal free prefix of a block: a network in canonical form that is
    free throughout and whose supernet, one bit shorter, is not. *)
Definition maximal_free (nets : list Network) (b : Block) (p : IPNetwork) : Prop :=
  valid_net p = true /\ canonical p = true /\ all_free nets b p
  /\ (prefixlen p = 0%nat \/ ~ all_free nets b (supernet p)).

(** The order of a scan: [p] comes no later than [q] when its address is
    no higher, or no lower in a reverse search. *)
Definition scan_le (reverse : bool) (p q : IPNetwork) : Prop :=
  if reverse then value q <= value p else value p <= value q.

(** The end of a prefix a by-size request carves: its first subnet of the
    requested length, or its last one in a reverse search. *)
Definition carved (reverse : bool) (p : IPNetwork) (size : nat) : IPNetwork :=
  if reverse
  then mkNet (value p + net_size p - 2 ^ Z.of_nat (width - size)) size
  else mkNet (value p) size.

(** The document after [r] was appended to the reservations of the block
    at position [i]. *)
Definition with_reservation (sp : Space) (i : nat) (b : Block) (r : Reservation)
  : Space :=
  put_block sp i (set_resv b (resv b ++ [r])).

(** The reservations a settle request touches: the unsettled ones it
    names.  [settle_listed] is the list the loop over them leaves, read
    off the document order: [k] counts the readings of the clock. *)
Definition touched (ids : list string) (r : Reservation) : bool :=
  unsettled r && elem_str (resv_id r) ids.

Fixpoint settle_listed (ctx : Ctx) (ids : list string) (k : nat)
    (l : list Reservation) : list Reservation :=
  match l with
  | [] => []
  | r :: rest =>
      if touched ids r
      then settle ctx k r :: settle_listed ctx ids (S k) rest
      else r :: settle_listed ctx ids k rest
  end.

(** The caller may settle [r]: an admin, or the user who created it. *)
Definition may_touch (ctx : Ctx) (r : Reservation) : bool :=
  is_admin ctx || str_eqb (createdBy r) (user_name ctx).

(** A computation that leaves the documents as they are, and one that
    leaves them as they are whenever it ends in an exception. *)
Definition readonly {A} (m : M A) : Prop := forall st, snd (m st) = st.

Definition atomic {A} (m : M A) : Prop :=
  forall st e, fst (m st) = Raise e -> snd (m st) = st.

(** ** Example documents *)

Definition alice : Ctx :=
  mkCtx "alice" false [] (fun k => 1700000000 + Z.of_nat k) "resv1".

Definition blk1 : Block := mkBlock "blk1" (mkNet (ip 10 0 0 0) 16) [] [] [].

Definition corp : Space := mkSpace "space1" "tenant1" "corp" "main" [blk1].

Definition wait_resv (id : string) (c : IPNetwork) (owner : string) : Reservation :=
  mkReservation id c None 1600000000 owner None None "wait".

(** The block [10.0.0.0/16] with [10.0.0.0/17] reserved. *)
Definition blk_half : Block :=
  mkBlock "blk1" (mkNet (ip 10 0 0 0) 16) [] []
    [wait_resv "resv0" (mkNet (ip 10 0 0 0) 17) "alice"].

Definition corp_half : Space := mkSpace "space1" "tenant1" "corp" "main" [blk_half].

(** The block [10.0.0.0/16] with [10.0.64.0/18] reserved: the prefixes
    [10.0.0.0/18] and [10.0.128.0/17] are free. *)
Definition blk_gap : Block :=
  mkBlock "blk1" (mkNet (ip 10 0 0 0) 16) [] []
    [wait_resv "resv0" (mkNet (ip 10 0 64 0) 18) "alice"].

Definition corp_gap : Space := mkSpace "space1" "tenant1" "corp" "main" [blk_gap].

(** The same block with [10.0.192.0/18] reserved as well: the prefixes
    [10.0.0.0/18] and [10.0.128.0/18] are free. *)
Definition blk_pair : Block :=
  mkBlock "blk1" (mkNet (ip 10 0 0 0) 16) [] []
    [wait_resv "resv0" (mkNet (ip 10 0 64 0) 18) "alice";
     wait_resv "resv2" (mkNet (ip 10 0 192 0) 18) "alice"].

Definition corp_pair : Space := mkSpace "space1" "tenant1" "corp" "main" [blk_pair].

Definition by_size (size : Z) (reverse smallest : bool) : BlockCIDRReq :=
  mkBlockCIDRReq size None (Some "bu1") reverse smallest.

Definition bob : Ctx :=
  mkCtx "bob" false [] (fun k => 1700000000 + Z.of_nat k) "resv9".

(** A block with an open reservation of alice, an open one of bob and a
    settled one of alice. *)
Definition resv_a : Reservation := wait_resv "ra" (mkNet (ip 10 0 1 0) 24) "alice".
Definition resv_b : Reservation := wait_resv "rb" (mkNet (ip 10 0 2 0) 24) "bob".
Definition resv_s : Reservation :=
  mkReservation "rs" (mkNet (ip 10 0 3 0) 24) None 1600000000 "alice"
    (Some 1650000000) (Some "alice") "cancelledByUser".

Definition blk_three : Block :=
  mkBlock "blk1" (mkNet (ip 10 0 0 0) 16) [] [] [resv_a; resv_b; resv_s].

Definition corp_three : Space :=
  mkSpace "space1" "tenant1" "corp" "main" [blk_three].

(** A space with no block, and the same space with two blocks whose
    names differ by case only: first as [create_block] leaves them, then
    with the first block full. *)
Definition corp_none : Space := mkSpace "space1" "tenant1" "corp" "main" [].

Definition blk_upper : Block := mkBlock "BLK" (mkNet (ip 10 1 0 0) 24) [] [] [].

Definition blk_lower : Block := mkBlock "blk" (mkNet (ip 10 2 0 0) 16) [] [] [].

Definition corp_case : Space :=
  mkSpace "space1" "tenant1" "corp" "main" [blk_upper; blk_lower].

Definition resv_case : Reservation :=
  mkReservation "resv1" (mkNet (ip 10 1 0 0) 24) (Some "bu1") 1700000000 "alice"
    None None "wait".

Definition corp_case_full : Space :=
  mkSpace "space1" "tenant1" "corp" "main"
    [mkBlock "BLK" (mkNet (ip 10 1 0 0) 24) [] [] [resv_case]; blk_lower].

(** A request for a /24 in the first of the listed blocks that has one. *)
Definition from_blocks (names : list string) : SpaceCIDRReq :=
  mkSpaceCIDRReq names 24 (Some "bu1") false false.

(** An admin, an inventory with one network, and two spaces whose blocks
    cover the same range: the network is attached in the first one. *)
Definition vnet_v : Network := mkNetwork "vnetV" [mkNet (ip 10 0 1 0) 24].
Definition vnet_w : Network := mkNetwork "vnetW" [mkNet (ip 10 0 2 0) 24].

Definition root (nets : list Network) : Ctx :=
  mkCtx "root" true nets (fun k => 1700000000 + Z.of_nat k) "resv1".

Definition space_a : Space :=
  mkSpace "idA" "tenant1" "spaceA" "first"
    [mkBlock "block1" (mkNet (ip 10 0 0 0) 16) [mkVNetRef "vnetV" true] [] []].

Definition space_b : Space :=
  mkSpace "idB" "tenant1" "spaceB" "second"
    [mkBlock "block2" (mkNet (ip 10 0 0 0) 16) [] [] []].

(** A block with one external network. *)
Definition blk_ext : Block :=
  mkBlock "blk1" (mkNet (ip 10 0 0 0) 16) []
    [mkExtNet "ext1" "lab" (mkNet (ip 10 0 1 0) 24) []] [].

Definition corp_ext : Space := mkSpace "space1" "tenant1" "corp" "main" [blk_ext].

(** The block [10.0.0.0/16] with the reservation [10.0.200.0/24]. *)
Definition blk_child : Block :=
  mkBlock "blk1" (mkNet (ip 10 0 0 0) 16) [] []
    [wait_resv "resv0" (mkNet (ip 10 0 200 0) 24) "alice"].

Definition corp_child : Space := mkSpace "space1" "tenant1" "corp" "main" [blk_child].

(** The same block once its CIDR has been replaced by [11.0.0.0/16]. *)
Definition blk_moved : Block :=
  mkBlock "blk1" (mkNet (ip 11 0 0 0) 16) [] []
    [wait_resv "resv0" (mkNet (ip 10 0 200 0) 24) "alice"].

Definition corp_moved : Space := mkSpace "space1" "tenant1" "corp" "main" [blk_moved].

(** The patch that replaces a CIDR by the text of [c]. *)
Definition replace_cidr (c : IPNetwork) : list PatchOp :=
  [mkPatchOp "replace" "/cidr" (CidrValue (str_of_net c) c)].

(** A network with two prefixes inside [10.0.0.0/16], and a block where
    the second of them is reserved. *)
Definition vnet_two : Network :=
  mkNetwork "vnet2" [mkNet (ip 10 0 0 0) 24; mkNet (ip 10 0 1 0) 24].

Definition blk_resv : Block :=
  mkBlock "blk1" (mkNet (ip 10 0 0 0) 16) [] []
    [wait_resv "resv0" (mkNet (ip 10 0 1 0) 24) "alice"].

Definition corp_resv : Space := mkSpace "space1" "tenant1" "corp" "main" [blk_resv].

(** * Properties *)

(** ** Powers of two *)

Lemma pow2_pos (b : nat) : 0 < 2 ^ Z.of_nat b.
Proof. apply Z.pow_pos_nonneg; lia. Qed.

Lemma pow2_S (b : nat) : 2 ^ Z.of_nat (S b) = 2 * 2 ^ Z.of_nat b.
Proof. rewrite Nat2Z.inj_succ, Z.pow_succ_r; lia. Qed.

Lemma pow2_le (a b : nat) : (a <= b)%nat -> 2 ^ Z.of_nat a <= 2 ^ Z.of_nat b.
Proof. intros H. apply Z.pow_le_mono_r; lia. Qed.

Lemma pow2_split (a b : nat) :
  (a <= b)%nat -> 2 ^ Z.of_nat b = 2 ^ Z.of_nat (b - a) * 2 ^ Z.of_nat a.
Proof.
  intros H. rewrite <- Z.pow_add_r by lia. f_equal. lia.
Qed.

(** ** The trie of an IP set *)

Section Trie.

Implicit Types s t l h : IPSet.

Lemma wf_Node b l h :
  wf (S b) (Node l h) = wf b l && wf b h && siblings_differ l h.
Proof. reflexivity. Qed.

Lemma wf_node b l h :
  wf b l = true -> wf b h = true -> wf (S b) (node l h) = true.
Proof.
  intros Hl Hh. unfold node.
  destruct l as [x|l1 l2], h as [y|h1 h2];
    try (rewrite wf_Node, Hl, Hh; reflexivity).
  destruct x, y; reflexivity.
Qed.

Lemma mem_node b l h a : mem (node l h) (S b) a = mem (Node l h) (S b) a.
Proof.
  unfold node. destruct l as [x|], h as [y|]; try reflexivity.
  destruct (Bool.eqb x y) eqn:E; [|reflexivity].
  apply Bool.eqb_prop in E. subst y. simpl. now destruct (a <? _).
Qed.

Lemma wf_inv b l h :
  wf (S b) (Node l h) = true ->
  wf b l = true /\ wf b h = true /\
  (forall x, l = Leaf x -> h <> Leaf x).
Proof.
  rewrite wf_Node. intros H. apply andb_prop in H as [H H3].
  apply andb_prop in H as [H1 H2].
  repeat split; trivial. intros x -> ->. simpl in H3. now rewrite Bool.eqb_reflx in H3.
Qed.

Lemma wf_zero l h : wf 0 (Node l h) = false.
Proof. reflexivity. Qed.

Lemma wf_compl b t : wf b t = true -> wf b (compl t) = true.
Proof.
  revert b. induction t as [x|l IHl h IHh]; intros b H; [reflexivity|].
  destruct b as [|b]; [discriminate|].
  apply wf_inv in H as (Hl & Hh & Hne). cbn [compl].
  rewrite wf_Node, (IHl _ Hl), (IHh _ Hh).
  destruct l as [x|]; [|reflexivity]. destruct h as [y|]; [|reflexivity].
  specialize (Hne x eq_refl). destruct x, y; simpl; congruence.
Qed.

Lemma mem_compl b t a : wf b t = true -> mem (compl t) b a = negb (mem t b a).
Proof.
  revert b a. induction t as [x|l IHl h IHh]; intros b a H; [reflexivity|].
  destruct b as [|b]; [discriminate|].
  apply wf_inv in H as (Hl & Hh & _). simpl.
  destruct (a <? _); auto.
Qed.

(** The four binary operations share their proofs: [f] is the operation,
    [g] what it does to membership. *)
Ltac binop IH1 IH2 :=
  repeat match goal with
  | |- context [wf _ (compl _)] => rewrite wf_compl
  | |- context [mem (compl _) _ _] => rewrite mem_compl
  | H : wf (S _) (Node _ _) = true |- _ => apply wf_inv in H as (? & ? & ?)
  | H : wf 0 (Node _ _) = true |- _ => discriminate H
  | |- wf (S _) (node _ _) = true => apply wf_node
  | |- context [mem (node _ _) (S _) _] => rewrite mem_node
  | _ => progress simpl
  end.

Lemma wf_union b s t : wf b s = true -> wf b t = true -> wf b (union s t) = true.
Proof.
  revert b t. induction s as [x|l IHl h IHh]; intros b t Hs Ht.
  - destruct x; simpl; trivial.
  - destruct t as [y|c d]; [destruct y; trivial|].
    destruct b; binop IHl IHh; auto.
Qed.

Lemma mem_union b s t a :
  wf b s = true -> wf b t = true ->
  mem (union s t) b a = mem s b a || mem t b a.
Proof.
  revert b t a. induction s as [x|l IHl h IHh]; intros b t a Hs Ht.
  - destruct x; reflexivity.
  - destruct t as [y|c d].
    + destruct y; simpl; now rewrite ?orb_true_r, ?orb_false_r.
    + destruct b; binop IHl IHh. destruct (a <? _); auto.
Qed.

Lemma wf_inter b s t : wf b s = true -> wf b t = true -> wf b (inter s t) = true.
Proof.
  revert b t. induction s as [x|l IHl h IHh]; intros b t Hs Ht.
  - destruct x; simpl; trivial.
  - destruct t as [y|c d]; [destruct y; trivial|].
    destruct b; binop IHl IHh; auto.
Qed.

Lemma mem_inter b s t a :
  wf b s = true -> wf b t = true ->
  mem (inter s t) b a = mem s b a && mem t b a.
Proof.
  revert b t a. induction s as [x|l IHl h IHh]; intros b t a Hs Ht.
  - destruct x; reflexivity.
  - destruct t as [y|c d].
    + destruct y; simpl; now rewrite ?andb_true_r, ?andb_false_r.
    + destruct b; binop IHl IHh. destruct (a <? _); auto.
Qed.

Lemma wf_xor b s t : wf b s = true -> wf b t = true -> wf b (xor s t) = true.
Proof.
  revert b t. induction s as [x|l IHl h IHh]; intros b t Hs Ht.
  - destruct x; simpl; trivial. now apply wf_compl.
  - destruct t as [y|c d].
    + destruct y; trivial. now apply (wf_compl b (Node l h)).
    + destruct b; binop IHl IHh; auto.
Qed.

Lemma mem_xor b s t a :
  wf b s = true -> wf b t = true ->
  mem (xor s t) b a = xorb (mem s b a) (mem t b a).
Proof.
  revert b t a. induction s as [x|l IHl h IHh]; intros b t a Hs Ht.
  - destruct x; simpl; [now apply mem_compl | now destruct (mem t b a)].
  - destruct t as [y|c d].
    + destruct y.
      * change (xor (Node l h) (Leaf true)) with (compl (Node l h)).
        rewrite mem_compl by trivial. simpl (mem (Leaf true) _ _).
        now destruct (mem (Node l h) b a).
      * simpl (mem (Leaf false) _ _). simpl xor. now destruct (mem (Node l h) b a).
    + destruct b; binop IHl IHh. destruct (a <? _); auto.
Qed.

Lemma wf_diff b s t : wf b s = true -> wf b t = true -> wf b (diff s t) = true.
Proof.
  revert b t. induction s as [x|l IHl h IHh]; intros b t Hs Ht.
  - destruct x; simpl; trivial. now apply wf_compl.
  - destruct t as [y|c d]; [destruct y; trivial|].
    destruct b; binop IHl IHh; auto.
Qed.

Lemma mem_diff b s t a :
  wf b s = true -> wf b t = true ->
  mem (diff s t) b a = mem s b a && negb (mem t b a).
Proof.
  revert b t a. induction s as [x|l IHl h IHh]; intros b t a Hs Ht.
  - destruct x; simpl; [now apply mem_compl | reflexivity].
  - destruct t as [y|c d].
    + destruct y; simpl; now rewrite ?andb_true_r, ?andb_false_r.
    + destruct b; binop IHl IHh. destruct (a <? _); auto.
Qed.

(** On a set that holds the other, the symmetric difference the handlers
    compute is the difference. *)
Lemma xor_issubset s t : issubset t s = true -> xor s t = diff s t.
Proof.
  revert t. induction s as [x|l IHl h IHh]; intros t H.
  - destruct x; [reflexivity|]. destruct t as [[|]|]; simpl in *; congruence.
  - destruct t as [[|]|c d]; simpl in *; try congruence.
    apply andb_prop in H as [H1 H2]. now rewrite IHl, IHh.
Qed.

End Trie.

(** ** Semantics of the trie: gaps, elements and the subset test *)

Lemma wf_gap b t :
  wf b t = true -> t <> Leaf true ->
  exists a, 0 <= a < 2 ^ Z.of_nat b /\ mem t b a = false.
Proof.
  revert b. induction t as [x|l IHl h IHh]; intros b Hwf Hne.
  - exists 0. pose proof (pow2_pos b). destruct x; [congruence | auto with zarith].
  - destruct b as [|b]; [discriminate|].
    apply wf_inv in Hwf as (Hl & Hh & Hd).
    pose proof (pow2_pos b) as Hp. pose proof (pow2_S b) as HS.
    destruct (decide (l = Leaf true)) as [->|Hl'].
    + destruct (IHh b Hh (Hd true eq_refl)) as (a & Ha & Hm).
      exists (a + 2 ^ Z.of_nat b). split; [lia|]. cbn [mem].
      destruct (Z.ltb_spec (a + 2 ^ Z.of_nat b) (2 ^ Z.of_nat b)); [lia|].
      now replace (a + 2 ^ Z.of_nat b - 2 ^ Z.of_nat b) with a by lia.
    + destruct (IHl b Hl Hl') as (a & Ha & Hm).
      exists a. split; [lia|]. cbn [mem].
      destruct (Z.ltb_spec a (2 ^ Z.of_nat b)); [trivial | lia].
Qed.

Lemma wf_elem b t :
  wf b t = true -> t <> Leaf false ->
  exists a, 0 <= a < 2 ^ Z.of_nat b /\ mem t b a = true.
Proof.
  intros Hwf Hne.
  destruct (wf_gap b (compl t)) as (a & Ha & Hm).
  - now apply wf_compl.
  - destruct t as [[|]|]; simpl; congruence.
  - exists a. split; [trivial|]. rewrite mem_compl in Hm by trivial.
    now apply negb_false_iff in Hm.
Qed.

Lemma issubset_spec b s t :
  wf b s = true -> wf b t = true ->
  issubset s t = true <->
  (forall a, 0 <= a < 2 ^ Z.of_nat b -> mem s b a = true -> mem t b a = true).
Proof.
  revert b t. induction s as [x|l IHl h IHh]; intros b t Hs Ht.
  - destruct x.
    + destruct t as [y|c d].
      * cbn [issubset]. split; [now intros -> | ]. intros H. apply (H 0); trivial.
        pose proof (pow2_pos b). lia.
      * cbn [issubset]. split; [discriminate|]. intros H.
        destruct (wf_gap b (Node c d)) as (a & Ha & Hm); [trivial | discriminate |].
        rewrite (H a Ha eq_refl) in Hm. discriminate.
    + cbn [issubset]. split; [discriminate | reflexivity].
  - destruct t as [y|c d].
    + cbn [issubset]. split; [now intros -> |]. intros H.
      destruct (wf_elem b (Node l h)) as (a & Ha & Hm); [trivial | discriminate |].
      now apply (H a Ha).
    + destruct b as [|b]; [discriminate|].
      apply wf_inv in Hs as (Hl & Hh & _). apply wf_inv in Ht as (Hc & Hd & _).
      pose proof (pow2_pos b) as Hp. pose proof (pow2_S b) as HS.
      cbn [issubset]. rewrite andb_true_iff, (IHl b c Hl Hc), (IHh b d Hh Hd).
      split.
      * intros [H1 H2] a Ha. cbn [mem].
        destruct (Z.ltb_spec a (2 ^ Z.of_nat b)); [apply H1 | apply H2]; lia.
      * intros H. split; intros a Ha Hm.
        -- specialize (H a). cbn [mem] in H.
           destruct (Z.ltb_spec a (2 ^ Z.of_nat b)); [apply H; trivial|]; lia.
        -- specialize (H (a + 2 ^ Z.of_nat b)). cbn [mem] in H.
           destruct (Z.ltb_spec (a + 2 ^ Z.of_nat b) (2 ^ Z.of_nat b)); [lia|].
           replace (a + 2 ^ Z.of_nat b - 2 ^ Z.of_nat b) with a in H by lia.
           apply H; [lia | trivial].
Qed.

(** Two coalesced tries with the same addresses are the same trie. *)
Lemma wf_ext b s t :
  wf b s = true -> wf b t = true ->
  (forall a, 0 <= a < 2 ^ Z.of_nat b -> mem s b a = mem t b a) -> s = t.
Proof.
  revert b t. induction s as [x|l IHl h IHh]; intros b t Hs Ht H.
  - destruct t as [y|c d].
    + f_equal. apply (H 0). pose proof (pow2_pos b). lia.
    + destruct x.
      * destruct (wf_gap b (Node c d)) as (a & Ha & Hm); [trivial | discriminate |].
        rewrite <- (H a Ha) in Hm. discriminate.
      * destruct (wf_elem b (Node c d)) as (a & Ha & Hm); [trivial | discriminate |].
        rewrite <- (H a Ha) in Hm. discriminate.
  - destruct t as [y|c d].
    + destruct y.
      * destruct (wf_gap b (Node l h)) as (a & Ha & Hm); [trivial | discriminate |].
        rewrite (H a Ha) in Hm. discriminate.
      * destruct (wf_elem b (Node l h)) as (a & Ha & Hm); [trivial | discriminate |].
        rewrite (H a Ha) in Hm. discriminate.
    + destruct b as [|b]; [discriminate|].
      apply wf_inv in Hs as (Hl & Hh & _). apply wf_inv in Ht as (Hc & Hd & _).
      pose proof (pow2_pos b) as Hp. pose proof (pow2_S b) as HS.
      f_equal.
      * apply (IHl b); trivial. intros a Ha. specialize (H a). cbn [mem] in H.
        destruct (Z.ltb_spec a (2 ^ Z.of_nat b)); [apply H|]; lia.
      * apply (IHh b); trivial. intros a Ha.
        specialize (H (a + 2 ^ Z.of_nat b)). cbn [mem] in H.
        destruct (Z.ltb_spec (a + 2 ^ Z.of_nat b) (2 ^ Z.of_nat b)); [lia|].
        replace (a + 2 ^ Z.of_nat b - 2 ^ Z.of_nat b) with a in H by lia.
        apply H. lia.
Qed.

(** ** The set of one prefix *)

Lemma prefix_set_nonempty bits p v : prefix_set bits p v <> Leaf false.
Proof.
  destruct p as [|p]; [discriminate|]. destruct bits as [|b]; [discriminate|].
  simpl. destruct (v <? _); discriminate.
Qed.

Lemma wf_prefix_set bits p v : wf bits (prefix_set bits p v) = true.
Proof.
  revert bits v. induction p as [|p IH]; intros bits v; [reflexivity|].
  destruct bits as [|b]; [reflexivity|]. cbn [prefix_set].
  destruct (v <? _); rewrite wf_Node, IH; simpl.
  - pose proof (prefix_set_nonempty b p v).
    destruct (prefix_set b p v) as [[|]|]; simpl; congruence.
  - pose proof (prefix_set_nonempty b p (v - 2 ^ Z.of_nat b)).
    destruct (prefix_set b p (v - 2 ^ Z.of_nat b)) as [[|]|]; simpl; congruence.
Qed.

Lemma div_below (x : Z) (b k : nat) :
  (k <= b)%nat -> 0 <= x < 2 ^ Z.of_nat b ->
  x / 2 ^ Z.of_nat k < 2 ^ Z.of_nat (b - k).
Proof.
  intros Hk Hx. pose proof (pow2_pos k). pose proof (pow2_split k b Hk).
  apply Z.div_lt_upper_bound; lia.
Qed.

Lemma div_above (x : Z) (b k : nat) :
  (k <= b)%nat -> 2 ^ Z.of_nat b <= x ->
  2 ^ Z.of_nat (b - k) <= x / 2 ^ Z.of_nat k.
Proof.
  intros Hk Hx. pose proof (pow2_pos k). pose proof (pow2_split k b Hk).
  apply Z.div_le_lower_bound; lia.
Qed.

Lemma div_shift (x : Z) (b k : nat) :
  (k <= b)%nat ->
  (x - 2 ^ Z.of_nat b) / 2 ^ Z.of_nat k = x / 2 ^ Z.of_nat k - 2 ^ Z.of_nat (b - k).
Proof.
  intros Hk. pose proof (pow2_pos k). rewrite (pow2_split k b Hk).
  replace (x - 2 ^ Z.of_nat (b - k) * 2 ^ Z.of_nat k)
    with (x + (- 2 ^ Z.of_nat (b - k)) * 2 ^ Z.of_nat k) by lia.
  rewrite Z.div_add by lia. lia.
Qed.

Lemma mem_prefix_set bits p v a :
  (p <= bits)%nat -> 0 <= v < 2 ^ Z.of_nat bits -> 0 <= a < 2 ^ Z.of_nat bits ->
  mem (prefix_set bits p v) bits a
  = (a / 2 ^ Z.of_nat (bits - p) =? v / 2 ^ Z.of_nat (bits - p)).
Proof.
  revert bits v a. induction p as [|p IH]; intros bits v a Hp Hv Ha.
  - simpl. rewrite Nat.sub_0_r, !Z.div_small by lia. reflexivity.
  - destruct bits as [|b]; [lia|]. cbn [prefix_set].
    pose proof (pow2_S b) as HS. pose proof (pow2_pos b) as Hb.
    replace (S b - S p)%nat with (b - p)%nat by lia.
    assert (Hk : (b - p <= b)%nat) by lia.
    destruct (Z.ltb_spec v (2 ^ Z.of_nat b)) as [Hv'|Hv']; cbn [mem];
      destruct (Z.ltb_spec a (2 ^ Z.of_nat b)) as [Ha'|Ha'].
    + apply IH; lia.
    + pose proof (div_below v b _ Hk). pose proof (div_above a b _ Hk).
      symmetry. apply Z.eqb_neq. lia.
    + pose proof (div_below a b _ Hk). pose proof (div_above v b _ Hk).
      symmetry. apply Z.eqb_neq. lia.
    + rewrite IH by lia. rewrite !div_shift by lia.
      destruct (Z.eqb_spec (a / 2 ^ Z.of_nat (b - p)) (v / 2 ^ Z.of_nat (b - p)));
        [apply Z.eqb_eq | apply Z.eqb_neq]; lia.
Qed.

(** The walk [covers] is the subset test of the prefix against the set. *)
Lemma covers_issubset t bits p v :
  covers t bits p v = issubset (prefix_set bits p v) t.
Proof.
  revert bits p v. induction t as [x|l IHl h IHh]; intros bits p v.
  - cbn [covers]. pose proof (prefix_set_nonempty bits p v).
    destruct (prefix_set bits p v) as [[|]|]; simpl; congruence.
  - destruct p as [|p]; [reflexivity|]. destruct bits as [|b]; [reflexivity|].
    cbn [covers prefix_set]. destruct (v <? _); cbn [issubset].
    + now rewrite IHl, andb_true_r.
    + now rewrite IHh.
Qed.

Lemma union_empty_r s : union s (Leaf false) = s.
Proof. now destruct s as [[|]|]. Qed.

Lemma IPSet_of_one n : IPSet_of [n] = net_set n.
Proof. apply union_empty_r. Qed.

Lemma wf_net_set n : wf width (net_set n) = true.
Proof. apply wf_prefix_set. Qed.

Lemma wf_IPSet_of l : wf width (IPSet_of l) = true.
Proof.
  induction l as [|n l IH]; [reflexivity|]. simpl.
  apply wf_union; [apply wf_net_set | exact IH].
Qed.

Lemma valid_net_inv n :
  valid_net n = true -> 0 <= value n < 2 ^ 32 /\ (prefixlen n <= width)%nat.
Proof.
  unfold valid_net. rewrite !andb_true_iff, Z.leb_le, Z.ltb_lt, Nat.leb_le. tauto.
Qed.

Lemma mem_net_set n a :
  valid_net n = true -> 0 <= a < 2 ^ 32 ->
  mem (net_set n) width a = net_has n a.
Proof.
  intros Hn Ha. apply valid_net_inv in Hn as [Hv Hp].
  unfold net_set, net_has, hostbits. now apply mem_prefix_set.
Qed.

Lemma mem_IPSet_of l a :
  Forall (fun n => valid_net n = true) l -> 0 <= a < 2 ^ 32 ->
  mem (IPSet_of l) width a = existsb (fun n => net_has n a) l.
Proof.
  intros Hl Ha. induction Hl as [|n l Hn Hl IH]; [reflexivity|].
  simpl. rewrite mem_union by (apply wf_net_set || apply wf_IPSet_of).
  now rewrite IH, mem_net_set.
Qed.

(** ** [iter_cidrs]: aligned, inside the set, maximal, ascending *)

Lemma cidrs_from_spec t bits base n :
  In n (cidrs_from t bits base) ->
  exists (k : nat) (off : Z),
    (k <= bits)%nat /\ (bits <= width -> prefixlen n = width - k)%nat /\
    value n = base + off /\ 0 <= off /\ off + 2 ^ Z.of_nat k <= 2 ^ Z.of_nat bits /\
    off mod 2 ^ Z.of_nat k = 0 /\
    covers t bits (bits - k) off = true /\
    ((k < bits)%nat -> covers t bits (bits - S k) off = false).
Proof.
  revert bits base. induction t as [x|l IHl h IHh]; intros bits base Hin.
  - destruct x; [|contradiction]. destruct Hin as [<-|[]].
    exists bits, 0. pose proof (pow2_pos bits). simpl.
    repeat split; try lia.
  - destruct bits as [|b]; [contradiction|]. cbn [cidrs_from] in Hin.
    pose proof (pow2_S b) as HS. pose proof (pow2_pos b) as Hb.
    apply in_app_or in Hin as [Hin|Hin].
    + destruct (IHl b base Hin) as (k & off & Hk & Hp & Hv & H0 & H1 & Hm & Hc & Hx).
      exists k, off. pose proof (pow2_pos k).
      assert (Hlt : (off <? 2 ^ Z.of_nat b) = true) by (apply Z.ltb_lt; lia).
      repeat split; try lia.
      * replace (S b - k)%nat with (S (b - k)) by lia. cbn [covers]. now rewrite Hlt.
      * intros Hk'. destruct (decide (k = b)) as [->|Hne].
        -- now replace (S b - S b)%nat with 0%nat by lia.
        -- replace (S b - S k)%nat with (S (b - S k)) by lia. cbn [covers].
           rewrite Hlt. apply Hx. lia.
    + destruct (IHh b _ Hin) as (k & off & Hk & Hp & Hv & H0 & H1 & Hm & Hc & Hx).
      exists k, (off + 2 ^ Z.of_nat b). pose proof (pow2_pos k).
      assert (Hge : (off + 2 ^ Z.of_nat b <? 2 ^ Z.of_nat b) = false)
        by (apply Z.ltb_ge; lia).
      assert (Hoff : off + 2 ^ Z.of_nat b - 2 ^ Z.of_nat b = off) by lia.
      repeat split; try lia.
      * rewrite (pow2_split k b Hk), Z.mod_add by lia. exact Hm.
      * replace (S b - k)%nat with (S (b - k)) by lia. cbn [covers].
        now rewrite Hge, Hoff.
      * intros Hk'. destruct (decide (k = b)) as [->|Hne].
        -- now replace (S b - S b)%nat with 0%nat by lia.
        -- replace (S b - S k)%nat with (S (b - S k)) by lia. cbn [covers].
           rewrite Hge, Hoff. apply Hx. lia.
Qed.

Lemma first_aligned (v : Z) (k : nat) (p : nat) :
  (p <= width)%nat -> k = (width - p)%nat -> v mod 2 ^ Z.of_nat k = 0 ->
  first (mkNet v p) = v.
Proof.
  intros Hp -> Hm. unfold first, hostbits. cbn [value prefixlen].
  pose proof (pow2_pos (width - p)).
  rewrite Z.shiftr_div_pow2, Z.shiftl_mul_pow2 by lia.
  pose proof (Z.div_mod v (2 ^ Z.of_nat (width - p))). lia.
Qed.

Lemma iter_cidrs_spec s n :
  In n (iter_cidrs s) ->
  valid_net n = true /\ canonical n = true /\ maximal_in n s = true.
Proof.
  intros Hin. apply cidrs_from_spec in Hin
    as (k & off & Hk & Hp & Hv & H0 & H1 & Hm & Hc & Hx).
  specialize (Hp (le_n _)). destruct n as [v p]. cbn [value prefixlen] in *.
  rewrite Z.add_0_l in Hv. subst v. pose proof (pow2_pos k).
  assert (Hw : 2 ^ Z.of_nat width = 2 ^ 32) by reflexivity.
  repeat split.
  - unfold valid_net. cbn [value prefixlen].
    rewrite !andb_true_iff, Z.leb_le, Z.ltb_lt, Nat.leb_le. lia.
  - unfold canonical, cidr, IPNetwork_eqb. cbn [value prefixlen].
    rewrite (first_aligned off k p), Z.eqb_refl, Nat.eqb_refl by lia. reflexivity.
  - unfold maximal_in, net_in_set, supernet. cbn [value prefixlen].
    replace p with (width - k)%nat by lia. rewrite Hc. cbn [andb].
    destruct (decide (k = width)) as [->|Hne].
    + now rewrite Nat.sub_diag.
    + replace (width - k - 1)%nat with (width - S k)%nat by lia.
      rewrite Hx by lia. apply orb_true_r.
Qed.

Lemma cidrs_from_sorted t bits base :
  (bits <= width)%nat -> StronglySorted before (cidrs_from t bits base).
Proof.
  revert bits base. induction t as [x|l IHl h IHh]; intros bits base Hb.
  - destruct x; simpl; repeat constructor.
  - destruct bits as [|b]; [constructor|]. cbn [cidrs_from].
    apply StronglySorted_app_2; [|apply IHl; lia|apply IHh; lia].
    intros x y Hx Hy. apply list_elem_of_In in Hx, Hy.
    apply cidrs_from_spec in Hx as (k & off & Hk & Hp & Hv & H0 & H1 & _).
    apply cidrs_from_spec in Hy as (k' & off' & _ & _ & Hv' & H0' & _).
    unfold before, net_size, hostbits. rewrite Hp by lia.
    replace (width - (width - k))%nat with k by lia. lia.
Qed.

Lemma iter_cidrs_sorted s : StronglySorted before (iter_cidrs s).
Proof. now apply cidrs_from_sorted. Qed.

(** Every address of the set lies in one of the listed prefixes. *)
Lemma cidrs_from_cover t bits base a :
  (bits <= width)%nat -> 0 <= a < 2 ^ Z.of_nat bits -> mem t bits a = true ->
  exists n, In n (cidrs_from t bits base)
            /\ value n <= base + a < value n + net_size n.
Proof.
  revert bits base a. induction t as [x|l IHl h IHh]; intros bits base a Hb Ha Hm.
  - destruct x; [|discriminate]. eexists. split; [left; reflexivity|].
    unfold net_size, hostbits. cbn [value prefixlen].
    replace (width - (width - bits))%nat with bits by lia. lia.
  - destruct bits as [|b]; [discriminate|]. cbn [mem cidrs_from] in *.
    pose proof (pow2_S b) as HS.
    destruct (Z.ltb_spec a (2 ^ Z.of_nat b)).
    + destruct (IHl b base a) as (n & Hn & Hr); [lia|lia|trivial|].
      exists n. split; [apply in_or_app; now left | trivial].
    + destruct (IHh b (base + 2 ^ Z.of_nat b) (a - 2 ^ Z.of_nat b))
        as (n & Hn & Hr); [lia|lia|trivial|].
      exists n. split; [apply in_or_app; now right | lia].
Qed.

(** ** Subnets of an aligned prefix *)

Lemma hostbits_eq n : hostbits n = Z.of_nat (width - prefixlen n).
Proof. reflexivity. Qed.

Lemma canonical_first n : canonical n = true -> first n = value n.
Proof.
  unfold canonical, IPNetwork_eqb, cidr. cbn [value prefixlen].
  intros H. apply andb_prop in H as [H _]. now apply Z.eqb_eq.
Qed.

Lemma canonical_aligned n :
  canonical n = true -> value n mod 2 ^ hostbits n = 0.
Proof.
  intros H. apply canonical_first in H. unfold first in H.
  pose proof (pow2_pos (width - prefixlen n)) as Hp. rewrite <- hostbits_eq in Hp.
  rewrite Z.shiftr_div_pow2, Z.shiftl_mul_pow2 in H by (unfold hostbits; lia).
  pose proof (Z.div_mod (value n) (2 ^ hostbits n)). lia.
Qed.

Lemma subnet_count n (newlen : nat) :
  (prefixlen n <= newlen <= width)%nat ->
  2 ^ hostbits n / 2 ^ Z.of_nat (width - newlen) = 2 ^ Z.of_nat (newlen - prefixlen n).
Proof.
  intros H. unfold hostbits.
  rewrite (pow2_split (width - newlen) (width - prefixlen n)) by lia.
  pose proof (pow2_pos (width - newlen)).
  rewrite Z.div_mul by lia. f_equal. lia.
Qed.

Lemma subnet_at_in n newlen i :
  canonical n = true -> (prefixlen n <= newlen <= width)%nat ->
  0 <= i < 2 ^ Z.of_nat (newlen - prefixlen n) ->
  net_in (subnet_at n newlen i) n = true.
Proof.
  intros Hc Hl Hi. unfold net_in, subnet_at. cbn [value prefixlen].
  apply andb_true_iff. split; [|apply Nat.leb_le; lia].
  apply Z.eqb_eq. rewrite (canonical_first n Hc).
  pose proof (canonical_aligned n Hc) as Ha. unfold hostbits in *.
  pose proof (pow2_pos (width - prefixlen n)) as Hp.
  pose proof (pow2_pos (width - newlen)) as Hq.
  rewrite !Z.shiftr_div_pow2 by lia.
  pose proof (pow2_split (width - newlen) (width - prefixlen n)) as Hs.
  replace (width - prefixlen n - (width - newlen))%nat
    with (newlen - prefixlen n)%nat in Hs by lia.
  specialize (Hs ltac:(lia)).
  apply Z.div_unique with
    (r := value n mod 2 ^ Z.of_nat (width - prefixlen n)
          + 2 ^ Z.of_nat (width - newlen) * i).
  - rewrite Ha. left.
    assert (2 ^ Z.of_nat (width - newlen) * i
            <= 2 ^ Z.of_nat (width - newlen) * (2 ^ Z.of_nat (newlen - prefixlen n) - 1))
      by (apply Z.mul_le_mono_nonneg_l; lia).
    assert (0 <= 2 ^ Z.of_nat (width - newlen) * i) by (apply Z.mul_nonneg_nonneg; lia).
    lia.
  - pose proof (Z.div_mod (value n) (2 ^ Z.of_nat (width - prefixlen n))). lia.
Qed.

Lemma subnet_eq n newlen :
  (prefixlen n <= newlen <= width)%nat ->
  subnet n newlen
  = List.map (fun i => subnet_at n newlen (Z.of_nat i))
      (seq 0 (Z.to_nat (2 ^ Z.of_nat (newlen - prefixlen n)))).
Proof.
  intros H. unfold subnet.
  destruct (Nat.ltb_spec newlen (prefixlen n)); [lia|].
  cbv zeta. now rewrite subnet_count.
Qed.

Lemma subnet_head n newlen :
  (prefixlen n <= newlen <= width)%nat ->
  head (subnet n newlen) = Some (mkNet (first n) newlen).
Proof.
  intros H. rewrite subnet_eq by trivial.
  pose proof (pow2_pos (newlen - prefixlen n)).
  destruct (Z.to_nat (2 ^ Z.of_nat (newlen - prefixlen n))) as [|c] eqn:E; [lia|].
  simpl. unfold subnet_at. do 2 f_equal. lia.
Qed.

Lemma subnet_last n newlen :
  (prefixlen n <= newlen <= width)%nat ->
  last (subnet n newlen)
  = Some (mkNet (first n + net_size n - 2 ^ Z.of_nat (width - newlen)) newlen).
Proof.
  intros H. rewrite subnet_eq by trivial.
  pose proof (pow2_pos (newlen - prefixlen n)).
  destruct (Z.to_nat (2 ^ Z.of_nat (newlen - prefixlen n))) as [|c] eqn:E; [lia|].
  rewrite seq_S, List.map_app. cbn [List.map]. rewrite last_snoc.
  unfold subnet_at. do 2 f_equal.
  unfold net_size, hostbits.
  rewrite (pow2_split (width - newlen) (width - prefixlen n)) by lia.
  replace (width - prefixlen n - (width - newlen))%nat
    with (newlen - prefixlen n)%nat by lia.
  nia.
Qed.

Lemma subnet_elem n newlen m :
  canonical n = true -> (prefixlen n <= newlen <= width)%nat ->
  In m (subnet n newlen) -> prefixlen m = newlen /\ net_in m n = true.
Proof.
  intros Hc Hl Hin. rewrite subnet_eq in Hin by trivial.
  apply in_map_iff in Hin as (i & <- & Hi). apply in_seq in Hi.
  split; [reflexivity|]. apply subnet_at_in; trivial.
  pose proof (pow2_pos (newlen - prefixlen n)). lia.
Qed.

(** ** Containment of networks and of their sets *)

Lemma net_in_inv c B :
  net_in c B = true ->
  value B / 2 ^ hostbits B = value c / 2 ^ hostbits B
  /\ (prefixlen B <= prefixlen c)%nat.
Proof.
  unfold net_in. rewrite andb_true_iff, Z.eqb_eq, Nat.leb_le.
  rewrite !Z.shiftr_div_pow2 by (unfold hostbits; lia). tauto.
Qed.

Lemma div_coarser (a : Z) (k K : nat) :
  (k <= K)%nat ->
  a / 2 ^ Z.of_nat K = a / 2 ^ Z.of_nat k / 2 ^ Z.of_nat (K - k).
Proof.
  intros H. pose proof (pow2_pos k). pose proof (pow2_pos (K - k)).
  rewrite Zdiv.Zdiv_Zdiv by lia. f_equal.
  rewrite (pow2_split k K H). lia.
Qed.

Lemma net_has_in c B a :
  net_in c B = true -> net_has c a = true -> net_has B a = true.
Proof.
  intros Hin Hc. apply net_in_inv in Hin as [Hv Hp].
  unfold net_has, hostbits in *. apply Z.eqb_eq in Hc. apply Z.eqb_eq.
  rewrite Hv.
  rewrite (div_coarser a (width - prefixlen c) (width - prefixlen B)) by lia.
  rewrite (div_coarser (value c) (width - prefixlen c) (width - prefixlen B)) by lia.
  now rewrite Hc.
Qed.

Lemma issubset_IPSet_of l B :
  valid_net B = true ->
  Forall (fun c => valid_net c = true /\ net_in c B = true) l ->
  issubset (IPSet_of l) (IPSet_of [B]) = true.
Proof.
  intros HB Hl. rewrite IPSet_of_one.
  apply (issubset_spec width); [apply wf_IPSet_of | apply wf_net_set |].
  intros a Ha Hm. change (2 ^ Z.of_nat width) with (2 ^ 32) in Ha.
  rewrite mem_net_set by trivial.
  rewrite mem_IPSet_of in Hm; [|eapply Forall_impl; [exact Hl|]; now intros ? []|trivial].
  apply existsb_exists in Hm as (c & Hc & Hh).
  rewrite Forall_forall in Hl. apply list_elem_of_In in Hc.
  destruct (Hl c Hc) as [_ Hin]. now apply (net_has_in c B a).
Qed.

(** Under I3 the set the handlers search is the free set of the block. *)
Lemma I3_available nets b :
  I3 nets b = true -> available_set nets b = free_set nets b.
Proof.
  unfold I3, available_set, free_set. rewrite !andb_true_iff.
  intros [[HB Hl] _]. apply xor_issubset, issubset_IPSet_of; [exact HB|].
  rewrite forallb_forall in Hl. apply Forall_forall. intros c Hc.
  apply list_elem_of_In in Hc. apply Hl in Hc. now apply andb_prop in Hc.
Qed.

(** ** Free sets and block coverage *)

Lemma issubset_empty s : issubset s (Leaf false) = true -> s = Leaf false.
Proof. destruct s as [[|]|]; simpl; congruence. Qed.

Lemma prefix_set_subset bits pc vc pB vB :
  (pB <= bits)%nat -> 0 <= vc < 2 ^ Z.of_nat bits -> 0 <= vB < 2 ^ Z.of_nat bits ->
  issubset (prefix_set bits pc vc) (prefix_set bits pB vB) = true ->
  (pB <= pc)%nat /\ vB / 2 ^ Z.of_nat (bits - pB) = vc / 2 ^ Z.of_nat (bits - pB).
Proof.
  revert bits pc vc vB. induction pB as [|p' IH]; intros bits pc vc vB Hp Hc HB Hs.
  - split; [lia|]. rewrite Nat.sub_0_r, !Z.div_small; lia.
  - destruct bits as [|b]; [lia|].
    destruct pc as [|pc'].
    { cbn [prefix_set] in Hs. destruct (vB <? _); discriminate. }
    cbn [prefix_set] in Hs. pose proof (pow2_S b) as HS.
    replace (S b - S p')%nat with (b - p')%nat by lia.
    destruct (Z.ltb_spec vc (2 ^ Z.of_nat b)), (Z.ltb_spec vB (2 ^ Z.of_nat b));
      cbn [issubset] in Hs.
    + rewrite andb_true_r in Hs. apply IH in Hs; [|lia..]. lia.
    + apply andb_prop in Hs as [Hs _]. apply issubset_empty in Hs.
      now apply prefix_set_nonempty in Hs.
    + apply issubset_empty in Hs. now apply prefix_set_nonempty in Hs.
    + apply IH in Hs as [Hl Hv]; [|lia..]. split; [lia|].
      rewrite !div_shift in Hv by lia. lia.
Qed.

Lemma net_set_subset c B :
  valid_net c = true -> valid_net B = true ->
  issubset (net_set c) (net_set B) = true -> net_in c B = true.
Proof.
  intros Hc HB Hs. apply valid_net_inv in Hc as [Hc _].
  apply valid_net_inv in HB as [HB HpB].
  apply prefix_set_subset in Hs as [Hp Hv]; trivial.
  unfold net_in, hostbits. rewrite !Z.shiftr_div_pow2 by lia.
  rewrite Hv, Z.eqb_refl. now apply Nat.leb_le.
Qed.

Lemma div_eq_range (a v : Z) (k : nat) :
  (k <= width)%nat -> 0 <= v < 2 ^ 32 ->
  a / 2 ^ Z.of_nat k = v / 2 ^ Z.of_nat k -> 0 <= a < 2 ^ 32.
Proof.
  intros Hk Hv He. pose proof (pow2_pos k) as H2.
  pose proof (pow2_split k width Hk) as Hsp.
  change (2 ^ Z.of_nat width) with (2 ^ 32) in Hsp.
  pose proof (Z.div_mod a (2 ^ Z.of_nat k) ltac:(lia)) as Ha.
  pose proof (Z.mod_pos_bound a (2 ^ Z.of_nat k) H2) as Hm.
  pose proof (div_below v width k Hk Hv) as Hu.
  assert (0 <= v / 2 ^ Z.of_nat k) as Hl by (apply Z.div_pos; lia).
  rewrite <- He in Hu, Hl. nia.
Qed.

Lemma net_has_self n : net_has n (value n) = true.
Proof. unfold net_has. apply Z.eqb_refl. Qed.

Lemma net_in_has c B : net_in c B = true -> net_has B (value c) = true.
Proof.
  intros H. apply net_in_inv in H as [H _]. unfold net_has. apply Z.eqb_eq.
  now rewrite H.
Qed.

Lemma net_in_valid c p :
  valid_net p = true -> (prefixlen c <= width)%nat -> net_in c p = true ->
  valid_net c = true.
Proof.
  intros Hp Hl Hin. apply valid_net_inv in Hp as [Hv Hw].
  apply net_in_inv in Hin as [He _]. unfold hostbits in He.
  symmetry in He. apply div_eq_range in He; [|lia|trivial].
  unfold valid_net. rewrite !andb_true_iff, Z.leb_le, Z.ltb_lt, Nat.leb_le. lia.
Qed.

Lemma net_in_set_mem n s a :
  valid_net n = true -> wf width s = true -> net_in_set n s = true ->
  0 <= a < 2 ^ 32 -> net_has n a = true -> mem s width a = true.
Proof.
  intros Hn Hs Hin Ha Hh. unfold net_in_set in Hin. rewrite covers_issubset in Hin.
  fold (net_set n) in Hin.
  apply (proj1 (issubset_spec width _ _ (wf_net_set n) Hs) Hin a Ha).
  now rewrite mem_net_set.
Qed.

Lemma net_in_set_intro n s :
  valid_net n = true -> wf width s = true ->
  (forall a, 0 <= a < 2 ^ 32 -> net_has n a = true -> mem s width a = true) ->
  net_in_set n s = true.
Proof.
  intros Hn Hs H. unfold net_in_set. rewrite covers_issubset. fold (net_set n).
  apply (issubset_spec width); [apply wf_net_set | trivial |].
  intros a Ha Hm. rewrite mem_net_set in Hm by trivial. now apply H.
Qed.

Lemma I3_inv nets b :
  I3 nets b = true ->
  valid_net (block_cidr b) = true
  /\ Forall (fun c => valid_net c = true /\ net_in c (block_cidr b) = true)
            (block_all_cidrs nets b)
  /\ pairwise_disjoint (block_all_cidrs nets b) = true.
Proof.
  unfold I3. rewrite !andb_true_iff. intros [[HB Hl] Hd]. repeat split; trivial.
  rewrite forallb_forall in Hl. apply Forall_forall. intros c Hc.
  apply list_elem_of_In in Hc. apply Hl in Hc. now apply andb_prop in Hc.
Qed.

Lemma wf_free_set nets b : wf width (free_set nets b) = true.
Proof. apply wf_diff; apply wf_IPSet_of. Qed.

Lemma mem_free_set nets b a :
  I3 nets b = true -> 0 <= a < 2 ^ 32 ->
  mem (free_set nets b) width a
  = net_has (block_cidr b) a
    && negb (existsb (fun x => net_has x a) (block_all_cidrs nets b)).
Proof.
  intros HI Ha. apply I3_inv in HI as (HB & Hl & _).
  unfold free_set. rewrite mem_diff by apply wf_IPSet_of.
  rewrite IPSet_of_one, mem_net_set by trivial.
  rewrite mem_IPSet_of; trivial.
  eapply Forall_impl; [exact Hl|]. now intros ? [].
Qed.

(** A network that shares no address with the networks of a list overlaps
    none of them. *)
Lemma apart_of_mem c l :
  valid_net c = true -> Forall (fun x => valid_net x = true) l ->
  (forall a, 0 <= a < 2 ^ 32 -> net_has c a = true ->
             existsb (fun x => net_has x a) l = false) ->
  forallb (fun x => negb (overlaps c x)) l = true.
Proof.
  intros Hc Hl Hmem. apply forallb_forall. intros x Hx. apply negb_true_iff.
  rewrite Forall_forall in Hl. pose proof (Hl x (proj2 (list_elem_of_In _ _) Hx)) as Hvx.
  unfold overlaps. apply orb_false_iff. split.
  - destruct (net_in c x) eqn:E; [|reflexivity]. apply net_in_has in E.
    rewrite <- (Hmem (value c)); [|now apply valid_net_inv in Hc | apply net_has_self].
    symmetry. apply existsb_exists. eauto.
  - destruct (net_in x c) eqn:E; [|reflexivity]. apply net_in_has in E.
    rewrite <- (Hmem (value x)); [|now apply valid_net_inv in Hvx | exact E].
    symmetry. apply existsb_exists. exists x. split; [exact Hx | apply net_has_self].
Qed.

Lemma I3_valid nets b :
  I3 nets b = true -> Forall (fun x => valid_net x = true) (block_all_cidrs nets b).
Proof.
  intros HI. apply I3_inv in HI as (_ & Hl & _).
  eapply Forall_impl; [exact Hl|]. now intros ? [].
Qed.

(** A network inside the free set of a block lies in the block and shares
    no address with what is claimed there. *)
Lemma free_net_apart nets b c :
  I3 nets b = true -> valid_net c = true ->
  net_in_set c (free_set nets b) = true ->
  net_in c (block_cidr b) = true
  /\ forallb (fun x => negb (overlaps c x)) (block_all_cidrs nets b) = true.
Proof.
  intros HI Hc Hin. pose proof (I3_inv _ _ HI) as (HB & Hl & _).
  assert (Hmem : forall a, 0 <= a < 2 ^ 32 -> net_has c a = true ->
                 net_has (block_cidr b) a = true
                 /\ existsb (fun x => net_has x a) (block_all_cidrs nets b) = false).
  { intros a Ha Hh.
    pose proof (net_in_set_mem c _ a Hc (wf_free_set nets b) Hin Ha Hh) as Hm.
    rewrite mem_free_set in Hm by trivial.
    apply andb_prop in Hm as [? Hm]. apply negb_true_iff in Hm. auto. }
  split.
  - apply net_set_subset; trivial.
    apply (issubset_spec width); [apply wf_net_set..|].
    intros a Ha Hm. change (2 ^ Z.of_nat width) with (2 ^ 32) in Ha.
    rewrite mem_net_set in * by trivial. now apply Hmem.
  - apply apart_of_mem; [trivial | now apply I3_valid |].
    intros a Ha Hh. now apply Hmem.
Qed.

Lemma overlaps_sym a b : overlaps a b = overlaps b a.
Proof. apply orb_comm. Qed.

Lemma pairwise_disjoint_insert c l1 l2 :
  pairwise_disjoint (l1 ++ l2) = true ->
  forallb (fun x => negb (overlaps c x)) (l1 ++ l2) = true ->
  pairwise_disjoint (l1 ++ c :: l2) = true.
Proof.
  induction l1 as [|x l1 IH]; cbn [app pairwise_disjoint forallb].
  - now intros -> ->.
  - rewrite !andb_true_iff. intros [Hx Hr] [Hcx Hc]. split; [|auto].
    rewrite forallb_app in *. cbn [forallb].
    apply andb_prop in Hx as [-> ->]. now rewrite overlaps_sym, Hcx.
Qed.

Lemma block_all_cidrs_reserved nets b r :
  unsettled r = true ->
  block_all_cidrs nets (set_resv b (resv b ++ [r]))
  = (flat_map (in_block_prefixes nets b) (vnets b)
     ++ List.map resv_cidr (List.filter unsettled (resv b)))
    ++ resv_cidr r :: List.map ext_cidr (externals b).
Proof.
  intros Hr. unfold block_all_cidrs, set_resv, in_block_prefixes.
  cbn [block_cidr vnets resv externals].
  rewrite List.filter_app, List.map_app. cbn [List.filter]. rewrite Hr.
  cbn [List.map]. now rewrite <- !app_assoc.
Qed.

(** I3 after one more network is claimed in the block. *)
Lemma I3_insert nets b b' l1 l2 c :
  I3 nets b = true ->
  block_cidr b' = block_cidr b ->
  block_all_cidrs nets b = l1 ++ l2 ->
  block_all_cidrs nets b' = l1 ++ c :: l2 ->
  valid_net c = true -> net_in c (block_cidr b) = true ->
  forallb (fun x => negb (overlaps c x)) (block_all_cidrs nets b) = true ->
  I3 nets b' = true.
Proof.
  intros HI HB' Hb Hb' Hv Hin Ho. pose proof (I3_inv _ _ HI) as (HB & Hl & Hd).
  unfold I3. rewrite Hb', HB', HB. rewrite Hb in Hl, Hd, Ho.
  rewrite pairwise_disjoint_insert by trivial.
  rewrite andb_true_r. cbn [andb]. apply forallb_forall. intros x Hx.
  rewrite Forall_forall in Hl.
  apply in_app_or in Hx as [Hx|[<-|Hx]].
  - destruct (Hl x) as [-> ->]; [|reflexivity].
    apply list_elem_of_In, in_or_app. now left.
  - now rewrite Hv, Hin.
  - destruct (Hl x) as [-> ->]; [|reflexivity].
    apply list_elem_of_In, in_or_app. now right.
Qed.

(** A block that satisfies I3 still does after a reservation cut from its
    free set is appended. *)
Lemma I3_reserved nets b r :
  I3 nets b = true -> unsettled r = true -> valid_net (resv_cidr r) = true ->
  net_in_set (resv_cidr r) (free_set nets b) = true ->
  I3 nets (set_resv b (resv b ++ [r])) = true.
Proof.
  intros HI Hr Hv Hin. destruct (free_net_apart _ _ _ HI Hv Hin) as [Hb Ho].
  apply (I3_insert nets b _
           (flat_map (in_block_prefixes nets b) (vnets b)
            ++ List.map resv_cidr (List.filter unsettled (resv b)))
           (List.map ext_cidr (externals b)) (resv_cidr r)); trivial.
  - unfold block_all_cidrs. now rewrite app_assoc.
  - now apply block_all_cidrs_reserved.
Qed.

(** A subnet of a prefix listed for a set lies in the set. *)
Lemma listed_subnet_in s p c :
  wf width s = true -> In p (iter_cidrs s) -> (prefixlen c <= width)%nat ->
  net_in c p = true ->
  valid_net c = true /\ net_in_set c s = true.
Proof.
  intros Hs Hp Hl Hin. apply iter_cidrs_spec in Hp as (Hv & _ & Hm).
  pose proof (net_in_valid c p Hv Hl Hin) as Hc. split; [exact Hc|].
  unfold maximal_in in Hm. apply andb_prop in Hm as [Hm _].
  apply net_in_set_intro; trivial. intros a Ha Hh.
  apply (net_in_set_mem p); trivial. now apply (net_has_in c p).
Qed.

(** ** Running a handler *)

Lemma bind_target {A} (space : string) (k : Space -> M A) (st : Store) :
  (cosmos_query_space space ≫= λ space_query, first_space space_query ≫= k) st
  = match target_of space st with
    | Some sp => k sp st
    | None => (Raise (HTTPException 400 "Invalid space name."), st)
    end.
Proof.
  unfold mbind, M_bind, cosmos_query_space, target_of, first_space.
  destruct (List.filter _ st); reflexivity.
Qed.

Lemma block_at_next sp block i b :
  block_at sp block i b -> next_where (same_name block) (blocks sp) = Some (i, b).
Proof.
  intros (Hi & Hn & Hfirst). unfold next_where. apply list_find_Some.
  split; [exact Hi|]. unfold same_name. split.
  - rewrite Hn. apply String.eqb_refl.
  - intros j c Hc Hj E. apply String.eqb_eq in E. exact (Hfirst j c Hj Hc E).
Qed.

Lemma find_in {A} (f : A -> bool) (l : list A) (x : A) :
  List.find f l = Some x -> In x l /\ f x = true.
Proof. apply find_some. Qed.

Lemma in_sliced {A} (reverse : bool) (l : list A) (x : A) :
  In x (sliced reverse l) <-> In x l.
Proof. destruct reverse; simpl; [symmetry; apply in_rev | reflexivity]. Qed.

(** The cut of a free prefix: what [carve] returns for a prefix listed by
    [iter_cidrs] that fits the request. *)
Lemma carve_listed s p (size : Z) (reverse : bool) :
  In p (iter_cidrs s) -> fits size p = true -> size <= 32 ->
  let c := carved reverse p (Z.to_nat size) in
  carve p size reverse = Return c
  /\ selected reverse (subnet p (Z.to_nat size)) = Some c
  /\ Z.of_nat (prefixlen c) = size /\ net_in c p = true.
Proof.
  intros Hin Hfit Hsize c.
  apply iter_cidrs_spec in Hin as (Hv & Hc & _).
  unfold fits in Hfit. apply Z.leb_le in Hfit.
  assert (Hl : (prefixlen p <= Z.to_nat size <= width)%nat)
    by (unfold width; lia).
  assert (Hsel : selected reverse (subnet p (Z.to_nat size)) = Some c).
  { subst c. unfold selected, carved. destruct reverse.
    - rewrite subnet_last by trivial. now rewrite (canonical_first p Hc).
    - rewrite subnet_head by trivial. now rewrite (canonical_first p Hc). }
  assert (Hel : In c (subnet p (Z.to_nat size))).
  { unfold selected in Hsel. destruct reverse.
    - apply list_elem_of_In. apply last_Some_elem_of. exact Hsel.
    - destruct (subnet p (Z.to_nat size)); [discriminate|].
      injection Hsel as ->. now left. }
  destruct (subnet_elem p _ c Hc Hl Hel) as [Hp Hn].
  repeat split; trivial; [|lia].
  unfold carve. destruct (Z.ltb_spec size (Z.of_nat (prefixlen p))); [lia|].
  destruct (Z.ltb_spec (Z.of_nat width) size); [unfold width in *; lia|].
  now rewrite Hsel.
Qed.

(** ** The free prefixes of a block *)

Lemma existsb_eq {A} (f g : A -> bool) (l : list A) :
  (forall x, f x = g x) -> existsb f l = existsb g l.
Proof. intros H. induction l as [|x l IH]; simpl; [reflexivity|]. now rewrite H, IH. Qed.

Lemma existsb_flat_map {A B} (f : B -> bool) (g : A -> list B) (l : list A) :
  existsb f (flat_map g l) = existsb (fun x => existsb f (g x)) l.
Proof.
  induction l as [|x l IH]; simpl; [reflexivity|]. now rewrite existsb_app, IH.
Qed.

Lemma existsb_mapped {A B} (f : B -> bool) (g : A -> B) (l : list A) :
  existsb f (List.map g l) = existsb (fun x => f (g x)) l.
Proof. induction l as [|x l IH]; simpl; [reflexivity|]. now rewrite IH. Qed.

Lemma existsb_filtered {A} (f p : A -> bool) (l : list A) :
  existsb f (List.filter p l) = existsb (fun x => p x && f x) l.
Proof.
  induction l as [|x l IH]; simpl; [reflexivity|].
  destruct (p x); simpl; now rewrite IH.
Qed.

(** The free set holds the free addresses. *)
Lemma free_addr_spec nets b a :
  I3 nets b = true -> 0 <= a < 2 ^ 32 ->
  mem (free_set nets b) width a = free_addr nets b a.
Proof.
  intros HI Ha. rewrite mem_free_set by trivial. unfold free_addr, block_all_cidrs.
  rewrite !existsb_app, existsb_flat_map, !existsb_mapped, existsb_filtered.
  rewrite (existsb_eq _
             (fun v =>
                match List.find (fun n => str_eqb (lower (net_id n)) (lower (vnet_id v)))
                                nets with
                | Some n =>
                    existsb (fun x => net_in x (block_cidr b) && net_has x a) (prefixes n)
                | None => false
                end)).
  - destruct (net_has (block_cidr b) a), (existsb _ (vnets b)), (existsb _ (resv b)),
      (existsb _ (externals b)); reflexivity.
  - intros v. unfold in_block_prefixes. destruct (List.find _ nets); [|reflexivity].
    apply existsb_filtered.
Qed.

(** [iter_cidrs] lists every prefix of the set that cannot be widened. *)
Lemma cidrs_from_complete t bits p v base :
  (p <= bits)%nat -> (bits <= width)%nat -> 0 <= v < 2 ^ Z.of_nat bits ->
  v mod 2 ^ Z.of_nat (bits - p) = 0 ->
  covers t bits p v = true ->
  (p = 0%nat \/ covers t bits (p - 1) v = false) ->
  In (mkNet (base + v) (width - bits + p)) (cidrs_from t bits base).
Proof.
  revert bits p v base.
  induction t as [x|l IHl h IHh]; intros bits p v base Hp Hb Hv Hm Hc Hx.
  - destruct x; [|discriminate]. destruct Hx as [->|Hx]; [|discriminate].
    rewrite Nat.sub_0_r in Hm. rewrite Z.mod_small in Hm by lia. subst v.
    left. f_equal; lia.
  - destruct p as [|p']; [discriminate|]. destruct bits as [|b]; [lia|].
    pose proof (pow2_S b) as HS. pose proof (pow2_pos b) as Hb2.
    replace (S b - S p')%nat with (b - p')%nat in Hm by lia.
    replace (width - S b + S p')%nat with (width - b + p')%nat by lia.
    assert (Hx' : p' = 0%nat
                  \/ (if v <? 2 ^ Z.of_nat b then covers l b (p' - 1) v
                      else covers h b (p' - 1) (v - 2 ^ Z.of_nat b)) = false).
    { destruct Hx as [Hx|Hx]; [lia|]. destruct p' as [|p'']; [now left|right].
      replace (S (S p'') - 1)%nat with (S p'') in Hx by lia.
      replace (S p'' - 1)%nat with p'' by lia. exact Hx. }
    clear Hx. cbn [covers cidrs_from] in *. apply in_or_app.
    destruct (Z.ltb_spec v (2 ^ Z.of_nat b)).
    + left. apply IHl; trivial; lia.
    + right. replace (base + v) with (base + 2 ^ Z.of_nat b + (v - 2 ^ Z.of_nat b)) by lia.
      apply IHh; trivial; try lia.
      rewrite (pow2_split (b - p') b) by lia.
      replace (v - 2 ^ Z.of_nat (b - (b - p')) * 2 ^ Z.of_nat (b - p'))
        with (v + (- 2 ^ Z.of_nat (b - (b - p'))) * 2 ^ Z.of_nat (b - p')) by lia.
      now rewrite Z.mod_add by (pose proof (pow2_pos (b - p')); lia).
Qed.

Lemma iter_cidrs_complete s n :
  valid_net n = true -> canonical n = true -> maximal_in n s = true ->
  In n (iter_cidrs s).
Proof.
  intros Hv Hc Hm. apply valid_net_inv in Hv as [Hv Hp].
  pose proof (canonical_aligned n Hc) as Ha. unfold hostbits in Ha.
  unfold maximal_in, net_in_set, supernet in Hm. cbn [value prefixlen] in Hm.
  apply andb_prop in Hm as [Hin Hmax].
  pose proof (cidrs_from_complete s width (prefixlen n) (value n) 0) as H.
  replace (width - width + prefixlen n)%nat with (prefixlen n) in H by lia.
  rewrite Z.add_0_l in H. destruct n as [v p]. cbn [value prefixlen] in *.
  apply H; trivial.
  apply orb_prop in Hmax as [Hmax|Hmax].
  - left. now apply Nat.eqb_eq.
  - right. now apply negb_true_iff.
Qed.

Lemma valid_supernet p : valid_net p = true -> valid_net (supernet p) = true.
Proof.
  intros H. apply valid_net_inv in H as [Hv Hp]. unfold valid_net, supernet.
  cbn [value prefixlen]. rewrite !andb_true_iff, Z.leb_le, Z.ltb_lt, Nat.leb_le. lia.
Qed.

(** In a block that satisfies I3 the prefixes [iter_cidrs] lists for the
    free set are the maximal free prefixes of the block. *)
Lemma listed_maximal_free nets b p :
  I3 nets b = true ->
  In p (iter_cidrs (free_set nets b)) <-> maximal_free nets b p.
Proof.
  intros HI. pose proof (wf_free_set nets b) as Hwf.
  assert (Hall : forall q, valid_net q = true ->
            (net_in_set q (free_set nets b) = true <-> all_free nets b q)).
  { intros q Hq. split.
    - intros Hin a Ha Hh. rewrite <- free_addr_spec by trivial.
      now apply (net_in_set_mem q).
    - intros Hf. apply net_in_set_intro; trivial. intros a Ha Hh.
      rewrite free_addr_spec by trivial. now apply Hf. }
  split.
  - intros Hin. apply iter_cidrs_spec in Hin as (Hv & Hc & Hm).
    unfold maximal_in in Hm. apply andb_prop in Hm as [Hin Hmax].
    repeat split; trivial; [now apply Hall|].
    apply orb_prop in Hmax as [Hmax|Hmax]; [left; now apply Nat.eqb_eq|right].
    intros Hf. apply (Hall _ (valid_supernet p Hv)) in Hf.
    rewrite Hf in Hmax. discriminate.
  - intros (Hv & Hc & Hf & Hmax). apply iter_cidrs_complete; trivial.
    unfold maximal_in. apply andb_true_iff. split; [now apply Hall|].
    destruct Hmax as [Hmax|Hmax]; [now rewrite Hmax|].
    apply orb_true_iff. right. apply negb_true_iff.
    destruct (net_in_set (supernet p) _) eqn:E; [|reflexivity].
    exfalso. apply Hmax. now apply (Hall _ (valid_supernet p Hv)).
Qed.

(** ** The order of a scan *)

Lemma scan_le_refl reverse p : scan_le reverse p p.
Proof. unfold scan_le. destruct reverse; lia. Qed.

Lemma sorted_rev {A} (R : A -> A -> Prop) (l : list A) :
  StronglySorted R l -> StronglySorted (fun x y => R y x) (rev l).
Proof.
  induction 1 as [|x l Hl IH Hx]; [constructor|]. cbn [rev].
  apply StronglySorted_app_2; [|exact IH|repeat constructor].
  intros y z Hy Hz. apply list_elem_of_In in Hy, Hz. destruct Hz as [<-|[]].
  apply in_rev in Hy. rewrite Forall_forall in Hx. apply Hx.
  now apply list_elem_of_In.
Qed.

Lemma sorted_weaken {A} (R S : A -> A -> Prop) (l : list A) :
  (forall x y, R x y -> S x y) -> StronglySorted R l -> StronglySorted S l.
Proof.
  intros H. induction 1 as [|x l Hl IH Hx]; constructor; trivial.
  eapply Forall_impl; [exact Hx|]. intros y. apply H.
Qed.

Lemma sorted_filter {A} (R : A -> A -> Prop) (f : A -> bool) (l : list A) :
  StronglySorted R l -> StronglySorted R (List.filter f l).
Proof.
  induction 1 as [|x l Hl IH Hx]; [constructor|]. cbn [List.filter].
  destruct (f x); [|exact IH]. constructor; [exact IH|].
  apply Forall_forall. intros y Hy. apply list_elem_of_In, filter_In in Hy as [Hy _].
  rewrite Forall_forall in Hx. apply Hx. now apply list_elem_of_In.
Qed.

(** The prefixes of a set in the order of the scan. *)
Lemma scan_sorted reverse s :
  StronglySorted (scan_le reverse) (sliced reverse (iter_cidrs s)).
Proof.
  pose proof (iter_cidrs_sorted s) as H.
  assert (Hle : forall x y : IPNetwork, before x y -> value x <= value y).
  { intros x y. unfold before, net_size, hostbits.
    pose proof (pow2_pos (width - prefixlen x)). lia. }
  unfold sliced, scan_le. destruct reverse.
  - apply sorted_rev in H. eapply sorted_weaken; [|exact H]. intros x y. apply Hle.
  - eapply sorted_weaken; [|exact H]. exact Hle.
Qed.

(** [next] over a sorted list: the hit comes before every other match. *)
Lemma find_sorted {A} (R : A -> A -> Prop) (f : A -> bool) (l : list A) (p : A) :
  StronglySorted R l -> List.find f l = Some p ->
  In p l /\ f p = true /\ forall q, In q l -> f q = true -> q = p \/ R p q.
Proof.
  induction 1 as [|x l Hl IH Hx]; [discriminate|]. cbn [List.find].
  destruct (f x) eqn:E.
  - intros H. injection H as <-. split; [now left|]. split; [exact E|].
    intros q [<-|Hq] _; [now left|right].
    rewrite Forall_forall in Hx. apply Hx. now apply list_elem_of_In.
  - intros H. destruct (IH H) as (Hin & Hf & Hmin). split; [now right|].
    split; [exact Hf|]. intros q [<-|Hq] Hfq; [congruence|]. now apply Hmin.
Qed.

Lemma fold_max_spec (r : list nat) (x : nat) :
  let m := fold_left Nat.max r x in
  In m (x :: r) /\ forall y, In y (x :: r) -> (y <= m)%nat.
Proof.
  revert x. induction r as [|z r IH]; intros x; simpl.
  - split; [now left | intros y [<-|[]]; lia].
  - destruct (IH (Nat.max x z)) as [Hin Hmax]. split.
    + destruct Hin as [Hin|Hin]; [|now right; right].
      rewrite <- Hin. destruct (Nat.max_spec x z) as [[_ ->]|[_ ->]]; auto.
    + intros y [Hy|[Hy|Hy]].
      * specialize (Hmax (Nat.max x z) (or_introl eq_refl)). lia.
      * specialize (Hmax (Nat.max x z) (or_introl eq_refl)). lia.
      * apply Hmax. now right.
Qed.

Lemma max_of_spec (l : list nat) :
  l <> [] ->
  exists m, max_of l = Return m /\ In m l /\ forall y, In y l -> (y <= m)%nat.
Proof.
  destruct l as [|x r]; [congruence|]. intros _.
  exists (fold_left Nat.max r x). split; [reflexivity|]. apply fold_max_spec.
Qed.

(** ** Reservations by size *)

(** What [create_block_reservation] answers and writes once its search
    has settled on the free prefix [p]. *)
Lemma create_block_reservation_carves ctx req space block st sp i b p :
  target_of space st = Some sp ->
  next_where (same_name block) (blocks sp) = Some (i, b) ->
  req_cidr req = None ->
  find_available (reverse_search req) (smallest_cidr req) (req_size req)
    (available_set (net_list ctx) b) = Return (Some p) ->
  In p (iter_cidrs (available_set (net_list ctx) b)) ->
  Z.of_nat (prefixlen p) <= req_size req <= 32 ->
  let c := carved (reverse_search req) p (Z.to_nat (req_size req)) in
  let r := mkReservation (new_id ctx) c (req_desc req) (clock ctx 0) (user_name ctx)
             None None "wait" in
  let b' := mkBlock (block_name b) (block_cidr b) (vnets b) (externals b)
              (resv b ++ [r]) in
  let sp' := mkSpace (space_id sp) (tenant_id sp) (space_name sp) (space_desc sp)
               (<[i := b']> (blocks sp)) in
  Z.of_nat (prefixlen c) = req_size req
  /\ (if reverse_search req then last (subnet p (Z.to_nat (req_size req)))
      else head (subnet p (Z.to_nat (req_size req)))) = Some c
  /\ (forall a, net_has c a = true -> net_has p a = true)
  /\ create_block_reservation ctx req space block st
     = (Return (mkReservationExpand r (space_name sp) (Some (block_name b))),
        List.map (fun d => if String.eqb (space_id d) (space_id sp) then sp' else d) st).
Proof.
  intros Hsp Hb Hcidr Hfind Hin [Hfit Hsize] c r b' sp'.
  assert (Hfits : fits (req_size req) p = true) by now apply Z.leb_le.
  destruct (carve_listed _ p _ (reverse_search req) Hin Hfits Hsize)
    as (Hcarve & Hsel & Hlen & Hnet).
  split; [exact Hlen|]. split; [exact Hsel|]. split.
  { intros a. now apply net_has_in. }
  unfold create_block_reservation. rewrite bind_target, Hsp, Hb, Hcidr.
  unfold mbind at 1, M_bind at 1. unfold mbind at 1, M_bind at 1, lift.
  rewrite Hfind. rewrite Hcarve. reflexivity.
Qed.

(** C1.  In a block that satisfies I3, for a request that carries only a
    size, at most 32, and no [smallest_cidr]: when some maximal free
    prefix of the block is no longer than the size, [create_block_reservation]
    takes the one of lowest address among them, or of highest address in a
    reverse search, and reserves its first subnet of the requested length,
    or its last one in a reverse search.  The reservation it returns has
    that CIDR, of prefix length [size] and inside the chosen prefix, a fresh
    id, the caller as creator, no settlement and the status [wait]; it is
    appended to the reservations of the block, and nothing else in the
    document changes.  When no maximal free prefix is short enough the
    handler answers 500 and writes nothing. *)
Theorem first_fit_reservation ctx req space block st sp i b :
  target_of space st = Some sp ->
  block_at sp block i b ->
  I3 (net_list ctx) b = true ->
  req_cidr req = None ->
  smallest_cidr req = false ->
  req_size req <= 32 ->
  let size := req_size req in
  let reverse := reverse_search req in
  let fit p := maximal_free (net_list ctx) b p /\ Z.of_nat (prefixlen p) <= size in
  (exists p,
     fit p
     /\ (forall q, fit q -> scan_le reverse p q)
     /\ let c := mkNet (if reverse
                        then value p + 2 ^ (32 - Z.of_nat (prefixlen p)) - 2 ^ (32 - size)
                        else value p)
                       (Z.to_nat size) in
        let r := mkReservation (new_id ctx) c (req_desc req) (clock ctx 0)
                   (user_name ctx) None None "wait" in
        let b' := mkBlock (block_name b) (block_cidr b) (vnets b) (externals b)
                    (resv b ++ [r]) in
        let sp' := mkSpace (space_id sp) (tenant_id sp) (space_name sp) (space_desc sp)
                     (<[i := b']> (blocks sp)) in
        Z.of_nat (prefixlen c) = size
        /\ (if reverse then last (subnet p (Z.to_nat size))
            else head (subnet p (Z.to_nat size))) = Some c
        /\ (forall a, net_has c a = true -> net_has p a = true)
        /\ create_block_reservation ctx req space block st
           = (Return (mkReservationExpand r (space_name sp) (Some (block_name b))),
              List.map (fun d => if String.eqb (space_id d) (space_id sp) then sp' else d)
                       st))
  \/ ((forall q, ~ fit q)
      /\ create_block_reservation ctx req space block st
         = (Raise (HTTPException 500
                     "Network of requested size unavailable in target block."), st)).
Proof.
  intros Hsp Hat HI Hcidr Hsmall Hsize size reverse fit.
  pose proof (block_at_next _ _ _ _ Hat) as Hb.
  pose proof (I3_available _ _ HI) as Hav.
  assert (Hfit : forall q, fit q <->
            In q (sliced reverse (iter_cidrs (free_set (net_list ctx) b)))
            /\ fits size q = true).
  { intros q. unfold fit, fits. rewrite in_sliced, Z.leb_le.
    now rewrite (listed_maximal_free _ _ q HI). }
  destruct (List.find (fits size) (sliced reverse (iter_cidrs (free_set (net_list ctx) b))))
    as [p|] eqn:Hfind.
  - left. exists p.
    destruct (find_sorted _ _ _ _ (scan_sorted reverse _) Hfind) as (Hin & Hf & Hmin).
    assert (Hp : fit p) by now apply Hfit.
    split; [exact Hp|]. split.
    { intros q Hq. apply Hfit in Hq as [Hq Hfq].
      destruct (Hmin q Hq Hfq) as [->|H]; [apply scan_le_refl | exact H]. }
    destruct Hp as [(Hv & _) Hlen]. apply valid_net_inv in Hv as [_ Hw].
    apply in_sliced in Hin.
    pose proof (create_block_reservation_carves ctx req space block st sp i b p
                  Hsp Hb Hcidr) as H.
    rewrite Hav in H. unfold find_available in H. rewrite Hsmall in H.
    specialize (H (f_equal _ Hfind) Hin (conj Hlen Hsize)).
    assert (Hc : carved reverse p (Z.to_nat size)
                 = mkNet (if reverse
                          then value p + 2 ^ (32 - Z.of_nat (prefixlen p)) - 2 ^ (32 - size)
                          else value p) (Z.to_nat size)).
    { unfold carved, net_size, hostbits, width in *. destruct reverse; [|reflexivity].
      replace (Z.of_nat (32 - prefixlen p)) with (32 - Z.of_nat (prefixlen p)) by lia.
      replace (Z.of_nat (32 - Z.to_nat size)) with (32 - size) by lia.
      reflexivity. }
    fold reverse size in H. rewrite Hc in H. exact H.
  - right. split.
    { intros q Hq. apply Hfit in Hq as [Hq Hfq].
      pose proof (find_none _ _ Hfind q Hq). congruence. }
    unfold create_block_reservation. rewrite bind_target, Hsp, Hb, Hcidr, Hav.
    unfold find_available. rewrite Hsmall. fold reverse size. now rewrite Hfind.
Qed.

(** C2.  In a block that satisfies I3, for a request that carries only a
    size, at most 32, and [smallest_cidr]: when some maximal free prefix of
    the block is no longer than the size, [create_block_reservation] takes
    among them one of the greatest prefix length, the one of lowest
    address among those, or of highest address in a reverse search, and
    reserves the same end of it as the first-fit search: the reservation
    it returns and appends to the block has that CIDR. *)
Theorem best_fit_reservation ctx req space block st sp i b :
  target_of space st = Some sp ->
  block_at sp block i b ->
  I3 (net_list ctx) b = true ->
  req_cidr req = None ->
  smallest_cidr req = true ->
  req_size req <= 32 ->
  let size := req_size req in
  let reverse := reverse_search req in
  let fit p := maximal_free (net_list ctx) b p /\ Z.of_nat (prefixlen p) <= size in
  (exists q, fit q) ->
  exists p,
    fit p
    /\ (forall q, fit q -> (prefixlen q <= prefixlen p)%nat)
    /\ (forall q, fit q -> prefixlen q = prefixlen p -> scan_le reverse p q)
    /\ let c := mkNet (if reverse
                       then value p + 2 ^ (32 - Z.of_nat (prefixlen p)) - 2 ^ (32 - size)
                       else value p)
                      (Z.to_nat size) in
       let r := mkReservation (new_id ctx) c (req_desc req) (clock ctx 0)
                  (user_name ctx) None None "wait" in
       let b' := mkBlock (block_name b) (block_cidr b) (vnets b) (externals b)
                   (resv b ++ [r]) in
       let sp' := mkSpace (space_id sp) (tenant_id sp) (space_name sp) (space_desc sp)
                    (<[i := b']> (blocks sp)) in
       Z.of_nat (prefixlen c) = size
       /\ (if reverse then last (subnet p (Z.to_nat size))
           else head (subnet p (Z.to_nat size))) = Some c
       /\ (forall a, net_has c a = true -> net_has p a = true)
       /\ create_block_reservation ctx req space block st
          = (Return (mkReservationExpand r (space_name sp) (Some (block_name b))),
             List.map (fun d => if String.eqb (space_id d) (space_id sp) then sp' else d)
                      st).
Proof.
  intros Hsp Hat HI Hcidr Hsmall Hsize size reverse fit (q0 & Hq0).
  pose proof (block_at_next _ _ _ _ Hat) as Hb.
  pose proof (I3_available _ _ HI) as Hav.
  set (candidates :=
         List.filter (fits size) (sliced reverse (iter_cidrs (free_set (net_list ctx) b)))).
  assert (Hfit : forall q, fit q <-> In q candidates).
  { intros q. unfold fit, candidates, fits. rewrite filter_In, in_sliced, Z.leb_le.
    now rewrite (listed_maximal_free _ _ q HI). }
  assert (Hsorted : StronglySorted (scan_le reverse) candidates)
    by apply sorted_filter, scan_sorted.
  destruct (max_of_spec (List.map prefixlen candidates)) as (m & Hm & Hin & Hmax).
  { apply Hfit in Hq0. destruct candidates; [contradiction | discriminate]. }
  destruct (List.find (fun network => Nat.eqb (prefixlen network) m) candidates)
    as [p|] eqn:Hfind.
  2:{ apply in_map_iff in Hin as (x & Hx & Hin).
      pose proof (find_none _ _ Hfind x Hin) as Hn. apply Nat.eqb_neq in Hn. congruence. }
  destruct (find_sorted _ _ _ _ Hsorted Hfind) as (Hp & Hpm & Hmin).
  apply Nat.eqb_eq in Hpm. subst m. exists p.
  assert (Hfp : fit p) by now apply Hfit.
  split; [exact Hfp|]. split.
  { intros q Hq. apply Hmax. apply in_map. now apply Hfit. }
  split.
  { intros q Hq Hlen. apply Hfit in Hq.
    destruct (Hmin q Hq) as [->|H]; [now apply Nat.eqb_eq | apply scan_le_refl | exact H]. }
  destruct Hfp as [(Hv & _) Hlen]. apply valid_net_inv in Hv as [_ Hw].
  apply filter_In in Hp as [Hp _]. apply in_sliced in Hp.
  pose proof (create_block_reservation_carves ctx req space block st sp i b p
                Hsp Hb Hcidr) as H.
  rewrite Hav in H. unfold find_available in H. rewrite Hsmall in H.
  fold reverse size candidates in H. rewrite Hm in H.
  unfold mbind, Outcome_bind, mret, Outcome_ret in H.
  specialize (H (f_equal _ Hfind) Hp (conj Hlen Hsize)).
  assert (Hc : carved reverse p (Z.to_nat size)
               = mkNet (if reverse
                        then value p + 2 ^ (32 - Z.of_nat (prefixlen p)) - 2 ^ (32 - size)
                        else value p) (Z.to_nat size)).
  { unfold carved, net_size, hostbits, width in *. destruct reverse; [|reflexivity].
    replace (Z.of_nat (32 - prefixlen p)) with (32 - Z.of_nat (prefixlen p)) by lia.
    replace (Z.of_nat (32 - Z.to_nat size)) with (32 - size) by lia.
    reflexivity. }
  rewrite Hc in H. exact H.
Qed.

(** A prefix listed for the free set that is short enough takes part in
    the search. *)
Lemma listed_fit nets b q (size : Z) :
  I3 nets b = true -> In q (iter_cidrs (free_set nets b)) ->
  Z.of_nat (prefixlen q) <= size ->
  maximal_free nets b q /\ Z.of_nat (prefixlen q) <= size.
Proof. intros HI Hin Hlen. split; [now apply listed_maximal_free | exact Hlen]. Qed.

Lemma first_fit_reservation_witness :
  I3 (net_list alice) blk_gap = true
  /\ create_block_reservation alice (by_size 18 false false) "corp" "blk1" [corp_gap]
     = (let r := mkReservation "resv1" (mkNet (ip 10 0 0 0) 18) (Some "bu1") 1700000000
                   "alice" None None "wait" in
        (Return (mkReservationExpand r "corp" (Some "blk1")),
         [mkSpace "space1" "tenant1" "corp" "main"
            [mkBlock "blk1" (mkNet (ip 10 0 0 0) 16) [] [] (resv blk_gap ++ [r])]]))
  /\ create_block_reservation alice (by_size 24 true false) "corp" "blk1" [corp_gap]
     = (let r := mkReservation "resv1" (mkNet (ip 10 0 255 0) 24) (Some "bu1") 1700000000
                   "alice" None None "wait" in
        (Return (mkReservationExpand r "corp" (Some "blk1")),
         [mkSpace "space1" "tenant1" "corp" "main"
            [mkBlock "blk1" (mkNet (ip 10 0 0 0) 16) [] [] (resv blk_gap ++ [r])]])).
Proof.
  assert (HI : I3 (net_list alice) blk_gap = true) by reflexivity.
  assert (Hat : block_at corp_gap "blk1" 0 blk_gap)
    by (repeat split; intros; lia).
  assert (H18 : In (mkNet (ip 10 0 0 0) 18)
                   (iter_cidrs (free_set (net_list alice) blk_gap)))
    by (vm_compute; auto).
  assert (H17 : In (mkNet (ip 10 0 128 0) 17)
                   (iter_cidrs (free_set (net_list alice) blk_gap)))
    by (vm_compute; auto).
  split; [exact HI|]. split.
  - pose proof (first_fit_reservation alice (by_size 18 false false) "corp" "blk1"
                  [corp_gap] corp_gap 0%nat blk_gap eq_refl Hat HI eq_refl eq_refl
                  ltac:(vm_compute; discriminate)) as H.
    cbv zeta in H. destruct H as [(p & Hfit & Hfirst & _ & _ & _ & Hrun)|(Hnone & _)].
    + destruct Hfit as [Hp _]. apply (listed_maximal_free _ _ p HI) in Hp.
      vm_compute in Hp. destruct Hp as [<-|[<-|[]]].
      * rewrite Hrun. reflexivity.
      * specialize (Hfirst _ (listed_fit _ _ _ 18 HI H18 ltac:(vm_compute; discriminate))).
        vm_compute in Hfirst. now contradiction Hfirst.
    + now contradiction (Hnone _ (listed_fit _ _ _ 18 HI H18 ltac:(vm_compute; discriminate))).
  - pose proof (first_fit_reservation alice (by_size 24 true false) "corp" "blk1"
                  [corp_gap] corp_gap 0%nat blk_gap eq_refl Hat HI eq_refl eq_refl
                  ltac:(vm_compute; discriminate)) as H.
    cbv zeta in H. destruct H as [(p & Hfit & Hfirst & _ & _ & _ & Hrun)|(Hnone & _)].
    + destruct Hfit as [Hp _]. apply (listed_maximal_free _ _ p HI) in Hp.
      vm_compute in Hp. destruct Hp as [<-|[<-|[]]].
      * specialize (Hfirst _ (listed_fit _ _ _ 24 HI H17 ltac:(vm_compute; discriminate))).
        vm_compute in Hfirst. now contradiction Hfirst.
      * rewrite Hrun. reflexivity.
    + now contradiction (Hnone _ (listed_fit _ _ _ 24 HI H17 ltac:(vm_compute; discriminate))).
Defined.

(** C1, where the sentence as written fails: the block [10.0.0.0/16] is
    free and satisfies I3, its one maximal free prefix is no longer than
    33, and the request for size 33 ends in an error of netaddr that
    escapes the handler: no reservation is made. *)
Lemma first_fit_beyond_width :
  I3 (net_list alice) blk1 = true
  /\ maximal_free (net_list alice) blk1 (mkNet (ip 10 0 0 0) 16)
  /\ create_block_reservation alice (by_size 33 false false) "corp" "blk1" [corp]
     = (Raise AddrFormatError, [corp])
  /\ create_block_reservation alice (by_size 33 true false) "corp" "blk1" [corp]
     = (Raise AddrFormatError, [corp]).
Proof.
  split; [reflexivity|]. split; [|split; reflexivity].
  apply listed_maximal_free; [reflexivity|]. vm_compute. auto.
Qed.

Lemma best_fit_reservation_witness :
  I3 (net_list alice) blk_half = true
  /\ create_block_reservation alice (by_size 24 false true) "corp" "blk1" [corp_half]
     = (let r := mkReservation "resv1" (mkNet (ip 10 0 128 0) 24) (Some "bu1") 1700000000
                   "alice" None None "wait" in
        (Return (mkReservationExpand r "corp" (Some "blk1")),
         [mkSpace "space1" "tenant1" "corp" "main"
            [mkBlock "blk1" (mkNet (ip 10 0 0 0) 16) [] [] (resv blk_half ++ [r])]]))
  /\ fst (create_block_reservation alice (by_size 24 true true) "corp" "blk1" [corp_gap])
     = Return (mkReservationExpand
                 (mkReservation "resv1" (mkNet (ip 10 0 63 0) 24) (Some "bu1") 1700000000
                    "alice" None None "wait")
                 "corp" (Some "blk1"))
  /\ fst (create_block_reservation alice (by_size 24 true true) "corp" "blk1" [corp_pair])
     = Return (mkReservationExpand
                 (mkReservation "resv1" (mkNet (ip 10 0 191 0) 24) (Some "bu1") 1700000000
                    "alice" None None "wait")
                 "corp" (Some "blk1")).
Proof.
  assert (Hhalf : In (mkNet (ip 10 0 128 0) 17)
                     (iter_cidrs (free_set (net_list alice) blk_half)))
    by (vm_compute; auto).
  assert (Hgap : In (mkNet (ip 10 0 0 0) 18)
                    (iter_cidrs (free_set (net_list alice) blk_gap)))
    by (vm_compute; auto).
  assert (Hpair : In (mkNet (ip 10 0 128 0) 18)
                     (iter_cidrs (free_set (net_list alice) blk_pair)))
    by (vm_compute; auto).
  assert (HIh : I3 (net_list alice) blk_half = true) by reflexivity.
  assert (HIg : I3 (net_list alice) blk_gap = true) by reflexivity.
  assert (HIp : I3 (net_list alice) blk_pair = true) by reflexivity.
  assert (Hath : block_at corp_half "blk1" 0 blk_half)
    by (repeat split; intros; lia).
  assert (Hatg : block_at corp_gap "blk1" 0 blk_gap)
    by (repeat split; intros; lia).
  assert (Hatp : block_at corp_pair "blk1" 0 blk_pair)
    by (repeat split; intros; lia).
  split; [exact HIh|]. split; [|split].
  - pose proof (best_fit_reservation alice (by_size 24 false true) "corp" "blk1"
                  [corp_half] corp_half 0%nat blk_half eq_refl Hath HIh eq_refl
                  eq_refl ltac:(vm_compute; discriminate)) as H.
    cbv zeta in H.
    destruct H as (p & Hfit & _ & _ & _ & _ & _ & Hrun).
    { eexists. apply (listed_fit _ _ _ 24 HIh Hhalf). vm_compute; discriminate. }
    destruct Hfit as [Hp _]. apply (listed_maximal_free _ _ p HIh) in Hp.
    vm_compute in Hp. destruct Hp as [<-|[]]. rewrite Hrun. reflexivity.
  - pose proof (best_fit_reservation alice (by_size 24 true true) "corp" "blk1"
                  [corp_gap] corp_gap 0%nat blk_gap eq_refl Hatg HIg eq_refl
                  eq_refl ltac:(vm_compute; discriminate)) as H.
    cbv zeta in H.
    pose proof (listed_fit _ _ _ 24 HIg Hgap ltac:(vm_compute; discriminate)) as Hq.
    destruct H as (p & Hfit & Hmax & _ & _ & _ & _ & Hrun); [eexists; exact Hq|].
    destruct Hfit as [Hp _]. apply (listed_maximal_free _ _ p HIg) in Hp.
    vm_compute in Hp. destruct Hp as [<-|[<-|[]]].
    + rewrite Hrun. reflexivity.
    + specialize (Hmax _ Hq). cbn [prefixlen] in Hmax. lia.
  - pose proof (best_fit_reservation alice (by_size 24 true true) "corp" "blk1"
                  [corp_pair] corp_pair 0%nat blk_pair eq_refl Hatp HIp eq_refl
                  eq_refl ltac:(vm_compute; discriminate)) as H.
    cbv zeta in H.
    pose proof (listed_fit _ _ _ 24 HIp Hpair ltac:(vm_compute; discriminate)) as Hq.
    destruct H as (p & Hfit & _ & Htie & _ & _ & _ & Hrun); [eexists; exact Hq|].
    destruct Hfit as [Hp _]. apply (listed_maximal_free _ _ p HIp) in Hp.
    vm_compute in Hp. destruct Hp as [<-|[<-|[]]].
    + specialize (Htie _ Hq eq_refl). vm_compute in Htie. now contradiction Htie.
    + rewrite Hrun. reflexivity.
Defined.

(** C2, where the sentence as written fails.  A size beyond the width:
    the block [10.0.0.0/16] with [10.0.0.0/17] reserved satisfies I3 and
    has a free prefix no longer than 33, and the request ends in an error
    of netaddr.  A block that does not satisfy I3: once the CIDR of
    [blk1] has been replaced by [11.0.0.0/16] over its reservation
    [10.0.200.0/24], the set the handler searches holds that reservation,
    and the request for a /24 is answered with [10.0.200.0/24], which is
    no free prefix of the block: it lies outside the block and is
    reserved already. *)
Lemma best_fit_beyond_coverage :
  I3 (net_list alice) blk_half = true
  /\ maximal_free (net_list alice) blk_half (mkNet (ip 10 0 128 0) 17)
  /\ create_block_reservation alice (by_size 33 false true) "corp" "blk1" [corp_half]
     = (Raise AddrFormatError, [corp_half])
  /\ snd (update_block (root []) (replace_cidr (mkNet (ip 11 0 0 0) 16)) "corp" "BLK1"
            [corp_child])
     = [corp_moved]
  /\ I3 (net_list alice) blk_moved = false
  /\ fst (create_block_reservation alice (by_size 24 false true) "corp" "blk1"
            [corp_moved])
     = Return (mkReservationExpand
                 (mkReservation "resv1" (mkNet (ip 10 0 200 0) 24) (Some "bu1") 1700000000
                    "alice" None None "wait")
                 "corp" (Some "blk1"))
  /\ free_addr (net_list alice) blk_moved (ip 10 0 200 0) = false
  /\ net_has (block_cidr blk_moved) (ip 10 0 200 0) = false.
Proof.
  split; [reflexivity|]. split; [|repeat split; reflexivity].
  apply listed_maximal_free; [reflexivity|]. vm_compute. auto.
Qed.

(** ** No free prefix of the requested size *)

(** What [create_block_reservation] does when no free prefix fits: the
    first-fit search answers 500, the best-fit search calls [max] on an
    empty sequence. *)
Lemma unavailable_outcome ctx req space block st sp i b :
  target_of space st = Some sp ->
  next_where (same_name block) (blocks sp) = Some (i, b) ->
  req_cidr req = None ->
  List.filter (fits (req_size req))
    (sliced (reverse_search req) (iter_cidrs (available_set (net_list ctx) b))) = [] ->
  create_block_reservation ctx req space block st
  = (if smallest_cidr req then Raise ValueError
     else Raise (HTTPException 500
                   "Network of requested size unavailable in target block."),
     st).
Proof.
  intros Hsp Hb Hcidr Hnone.
  unfold create_block_reservation. rewrite bind_target, Hsp, Hb, Hcidr.
  unfold find_available. destruct (smallest_cidr req).
  - now rewrite Hnone.
  - destruct (List.find _ _) as [p|] eqn:E; [|reflexivity].
    apply find_in in E as [Hin Hfit].
    assert (In p []) as [] by (rewrite <- Hnone; now apply filter_In).
Qed.

(** C3, at the failing input: the block [10.0.0.0/16] has no free prefix
    of length 8 or shorter.  The first-fit search answers 500 with the
    detail of the claim; with [smallest_cidr] the handler ends in an
    uncaught [ValueError]; the multi-block handler, whose [max] has a
    default, answers 500 for the same flags. *)
Theorem smallest_cidr_unavailable :
  create_block_reservation alice (by_size 8 false false) "corp" "blk1" [corp]
  = (Raise (HTTPException 500
              "Network of requested size unavailable in target block."), [corp])
  /\ create_block_reservation alice (by_size 8 false true) "corp" "blk1" [corp]
     = (Raise ValueError, [corp])
  /\ create_block_reservation alice (by_size 8 true true) "corp" "blk1" [corp]
     = (Raise ValueError, [corp])
  /\ create_multi_block_reservation alice
       (mkSpaceCIDRReq ["blk1"] 8 (Some "bu1") false true) "corp" [corp]
     = (Raise (HTTPException 500
                 "Network of requested size unavailable in target block(s)."), [corp]).
Proof. repeat split; vm_compute; reflexivity. Qed.

(** ** Settling reservations *)

Lemma str_eqb_eq a b : str_eqb a b = true <-> a = b.
Proof. apply String.eqb_eq. Qed.

Lemma str_eqb_refl a : str_eqb a a = true.
Proof. apply String.eqb_refl. Qed.

Lemma next_where_app_r {A} (f : A -> bool) (l1 l2 : list A) (x : A) :
  (forall y, In y l1 -> f y = false) -> f x = true ->
  next_where f (l1 ++ x :: l2) = Some (length l1, x).
Proof.
  intros Hl1 Hx. unfold next_where. rewrite list_find_app_r.
  - simpl. rewrite decide_True by exact Hx. reflexivity.
  - apply list_find_None, Forall_forall. intros y Hy.
    apply list_elem_of_In in Hy. rewrite (Hl1 y Hy). discriminate.
Qed.

Lemma next_where_Some {A} (f : A -> bool) (l : list A) (i : nat) (x : A) :
  next_where f l = Some (i, x) ->
  l !! i = Some x /\ f x = true /\ forall j y, l !! j = Some y -> (j < i)%nat -> f y = false.
Proof.
  unfold next_where. rewrite list_find_Some. intros (H1 & H2 & H3).
  repeat split; trivial. intros j y Hy Hj. specialize (H3 j y Hy Hj).
  now destruct (f y).
Qed.

Lemma next_where_None {A} (f : A -> bool) (l : list A) :
  next_where f l = None -> forall y, In y l -> f y = false.
Proof.
  unfold next_where. rewrite list_find_None, Forall_forall.
  intros H y Hy. apply list_elem_of_In in Hy. specialize (H y Hy).
  now destruct (f y).
Qed.

Lemma settle_id ctx k r : resv_id (settle ctx k r) = resv_id r.
Proof. reflexivity. Qed.

Lemma not_in_ids (l : list Reservation) (r : Reservation) :
  ~ In (resv_id r) (List.map resv_id l) ->
  forall y, In y l -> str_eqb (resv_id y) (resv_id r) = false.
Proof.
  intros Hn y Hy. destruct (str_eqb (resv_id y) (resv_id r)) eqn:E; [|reflexivity].
  apply str_eqb_eq in E. exfalso. apply Hn. rewrite <- E. now apply in_map.
Qed.

(** The loop of the handler over the ids it kept does what the
    specification says, when the ids of the block are distinct. *)
Lemma settle_all_listed ctx ids k done todo :
  NoDup (List.map resv_id (done ++ todo)) ->
  settle_all ctx k (List.map resv_id (List.filter (touched ids) todo)) (done ++ todo)
  = Return (done ++ settle_listed ctx ids k todo).
Proof.
  revert done k. induction todo as [|r rest IH]; intros done k Hnd; [reflexivity|].
  assert (Hfresh : forall y, In y done -> str_eqb (resv_id y) (resv_id r) = false).
  { apply not_in_ids. rewrite List.map_app in Hnd. simpl in Hnd.
    apply NoDup_app in Hnd as (_ & Hnd & _). intros Hin.
    apply (Hnd (resv_id r)); [now apply list_elem_of_In | left]. }
  cbn [List.filter settle_listed]. destruct (touched ids r) eqn:Ht.
  - cbn [List.map settle_all].
    rewrite (next_where_app_r _ done rest r Hfresh (str_eqb_refl _)).
    rewrite insert_app_r_alt by lia. rewrite Nat.sub_diag. cbn [insert list_insert].
    change (done ++ settle ctx k r :: rest) with (done ++ [settle ctx k r] ++ rest).
    rewrite app_assoc. rewrite IH.
    + now rewrite <- app_assoc.
    + rewrite <- app_assoc. rewrite List.map_app in *. exact Hnd.
  - change (done ++ r :: rest) with (done ++ [r] ++ rest).
    rewrite app_assoc. rewrite IH; [now rewrite <- app_assoc|].
    now rewrite <- app_assoc.
Qed.

Lemma settle_listed_length ctx ids k l :
  length (settle_listed ctx ids k l) = length l.
Proof.
  revert k. induction l as [|r l IH]; intros k; [reflexivity|].
  simpl. destruct (touched ids r); simpl; now rewrite IH.
Qed.

Lemma settle_listed_lookup ctx ids k l j r :
  l !! j = Some r ->
  if touched ids r
  then exists k', settle_listed ctx ids k l !! j = Some (settle ctx k' r)
  else settle_listed ctx ids k l !! j = Some r.
Proof.
  revert k j. induction l as [|x l IH]; intros k j Hj; [discriminate|].
  destruct j as [|j].
  - injection Hj as ->. simpl. destruct (touched ids r) eqn:E; rewrite ?E; eauto.
  - simpl in Hj. simpl. destruct (touched ids x); simpl; now apply IH.
Qed.

Lemma settle_listed_untouched ctx ids k l :
  (forall r, In r l -> touched ids r = false) -> settle_listed ctx ids k l = l.
Proof.
  revert k. induction l as [|r l IH]; intros k H; [reflexivity|].
  simpl. rewrite (H r) by now left. f_equal. apply IH. intros; apply H. now right.
Qed.

Lemma touched_one x r :
  touched [x] r = unsettled r && str_eqb (resv_id r) x.
Proof. unfold touched, elem_str. simpl. now rewrite orb_false_r, String.eqb_sym. Qed.

Lemma settle_listed_one ctx x k l j t :
  NoDup (List.map resv_id l) ->
  next_where (fun item => str_eqb (resv_id item) x) l = Some (j, t) ->
  settle_listed ctx [x] k l = if unsettled t then <[j := settle ctx k t]> l else l.
Proof.
  revert j k. induction l as [|r l IH]; intros j k Hnd Hfind; [discriminate|].
  simpl in Hnd. apply NoDup_cons in Hnd as [Hr Hnd].
  rewrite list_elem_of_In in Hr.
  unfold next_where in Hfind. simpl in Hfind.
  destruct (decide (str_eqb (resv_id r) x = true)) as [E|E].
  - injection Hfind as <- <-. cbn [settle_listed]. rewrite touched_one, E, andb_true_r.
    apply str_eqb_eq in E. subst x.
    assert (Hrest : forall k', settle_listed ctx [resv_id r] k' l = l).
    { intros k'. apply settle_listed_untouched. intros y Hy. rewrite touched_one.
      rewrite (not_in_ids l r Hr y Hy). apply andb_false_r. }
    destruct (unsettled r); now rewrite Hrest.
  - destruct (list_find _ l) as [[j' t']|] eqn:F; [|discriminate].
    injection Hfind as <- <-. cbn [settle_listed]. rewrite touched_one.
    apply not_true_is_false in E. rewrite E, andb_false_r.
    rewrite (IH j' k Hnd F). now destruct (unsettled t').
Qed.

Lemma same_id_eq (l : list Reservation) (r t : Reservation) :
  NoDup (List.map resv_id l) -> In r l -> In t l -> resv_id r = resv_id t -> r = t.
Proof.
  induction l as [|x l IH]; intros Hnd Hr Ht E; [contradiction|].
  simpl in Hnd. apply NoDup_cons in Hnd as [Hx Hnd].
  rewrite list_elem_of_In in Hx.
  destruct Hr as [->|Hr], Ht as [->|Ht]; trivial.
  - exfalso. apply Hx. rewrite E. now apply in_map.
  - exfalso. apply Hx. rewrite <- E. now apply in_map.
  - now apply IH.
Qed.

Lemma delete_block_reservations_run ctx ids space block st sp i b :
  target_of space st = Some sp ->
  next_where (same_name block) (blocks sp) = Some (i, b) ->
  NoDup (List.map resv_id (resv b)) ->
  delete_block_reservations ctx ids space block st
  = if negb (bool_decide (NoDup ids))
    then (Raise (HTTPException 400 "List contains one or more duplicate id's."), st)
    else if negb (forallb (fun elem => elem_str elem (List.map resv_id (resv b))) ids)
    then (Raise (HTTPException 400 "List contains one or more invalid id's."), st)
    else if negb (is_admin ctx) && existsb (not_owned ctx ids) (resv b)
    then (Raise (HTTPException 403 "Users can only delete their own reservations."), st)
    else (Return tt,
          replace_doc sp
            (put_block sp i (set_resv b (settle_listed ctx ids 0 (resv b)))) st).
Proof.
  intros Hsp Hb Hnd. unfold delete_block_reservations.
  rewrite bind_target, Hsp, Hb.
  destruct (negb (bool_decide (NoDup ids))); [reflexivity|].
  destruct (negb (forallb _ ids)); [reflexivity|].
  destruct (negb (is_admin ctx) && existsb (not_owned ctx ids) (resv b));
    [reflexivity|].
  pose proof (settle_all_listed ctx ids 0 [] (resv b) Hnd) as H. simpl app in H.
  unfold mbind, M_bind, lift. unfold touched in H. rewrite H. reflexivity.
Qed.

Lemma delete_block_reservation_run ctx space block x st sp i b :
  target_of space st = Some sp ->
  next_where (same_name block) (blocks sp) = Some (i, b) ->
  NoDup (List.map resv_id (resv b)) ->
  delete_block_reservation ctx space block x st
  = match next_where (fun item => str_eqb (resv_id item) x) (resv b) with
    | None => (Raise (HTTPException 400 "Invalid reservation ID."), st)
    | Some (_, t) =>
        if negb (may_touch ctx t)
        then (Raise (HTTPException 403 "Users can only delete their own reservations."), st)
        else if unsettled t
        then (Return tt,
              replace_doc sp
                (put_block sp i (set_resv b (settle_listed ctx [x] 0 (resv b)))) st)
        else (Return tt, st)
    end.
Proof.
  intros Hsp Hb Hnd. unfold delete_block_reservation.
  rewrite bind_target, Hsp, Hb.
  destruct (next_where _ (resv b)) as [[j t]|] eqn:F; [|reflexivity].
  unfold may_touch. rewrite negb_orb.
  destruct (negb (is_admin ctx) && negb (str_eqb (createdBy t) (user_name ctx)));
    [reflexivity|].
  rewrite (settle_listed_one ctx x 0 (resv b) j t Hnd F).
  destruct (unsettled t); reflexivity.
Qed.

Lemma lookup_In {A} (l : list A) (j : nat) (x : A) : l !! j = Some x -> In x l.
Proof. intros H. apply list_elem_of_In, list_elem_of_lookup. eauto. Qed.

(** Each reservation a settle touches gets the reading of the clock of
    its turn: the number of touched reservations that stand before it. *)
Lemma settle_listed_at ctx ids k l j r :
  l !! j = Some r ->
  settle_listed ctx ids k l !! j
  = Some (if touched ids r
          then settle ctx (k + length (List.filter (touched ids) (take j l))) r
          else r).
Proof.
  revert k j. induction l as [|x l IH]; intros k j Hj; [discriminate|].
  destruct j as [|j].
  - injection Hj as ->. cbn [settle_listed take List.filter length].
    rewrite Nat.add_0_r. now destruct (touched ids r).
  - cbn [lookup list_lookup] in Hj. cbn [settle_listed take List.filter].
    destruct (touched ids x);
      match goal with
      | |- (?a :: ?t) !! S ?n = _ => change ((a :: t) !! S n) with (t !! n)
      end.
    + rewrite (IH (S k) j Hj). cbn [length].
      now replace (S k + length (List.filter (touched ids) (take j l)))%nat
        with (k + S (length (List.filter (touched ids) (take j l))))%nat by lia.
    + now rewrite (IH k j Hj).
Qed.

Lemma elem_str_In (x : string) (l : list string) : elem_str x l = true <-> In x l.
Proof.
  unfold elem_str. rewrite existsb_exists. split.
  - intros (y & Hy & E). apply str_eqb_eq in E. now subst y.
  - intros H. exists x. split; [exact H | apply str_eqb_refl].
Qed.

(** C4.  In a block whose reservation ids are distinct, both DELETE
    handlers settle softly.  The bulk handler refuses a list with a
    duplicate id with 400, then a list with an id the block does not hold
    with 400, then, for a caller who is no admin, a list that names a
    reservation created by another user with 403; otherwise it writes the
    block with every reservation in its place: each unsettled reservation
    the list names carries [settledOn], the reading of the clock of its
    turn, [settledBy], the caller, and the status [cancelledByUser], its
    other fields as before, and every other reservation, the settled ones
    among them, is as it was.  The single handler answers 400 for an id the
    block does not hold and 403 to a caller who is no admin for a
    reservation created by another user; otherwise it stamps the
    reservation in the same way when it is unsettled, and writes nothing
    when it is settled.  Every refusal leaves the documents as they were. *)
Theorem soft_settle ctx ids x space block st sp i b :
  target_of space st = Some sp ->
  block_at sp block i b ->
  NoDup (List.map resv_id (resv b)) ->
  let stamped k r :=
    mkReservation (resv_id r) (resv_cidr r) (resv_desc r) (createdOn r) (createdBy r)
      (Some (clock ctx k)) (Some (user_name ctx)) "cancelledByUser" in
  let written after :=
    List.map
      (fun d =>
         if String.eqb (space_id d) (space_id sp)
         then mkSpace (space_id sp) (tenant_id sp) (space_name sp) (space_desc sp)
                (<[i := mkBlock (block_name b) (block_cidr b) (vnets b) (externals b)
                          after]> (blocks sp))
         else d)
      st in
  let known := forall id, In id ids -> In id (List.map resv_id (resv b)) in
  let foreign :=
    exists r, In r (resv b) /\ In (resv_id r) ids /\ createdBy r <> user_name ctx in
  let turn j := length (List.filter (touched ids) (take j (resv b))) in
  let forbidden := HTTPException 403 "Users can only delete their own reservations." in
  let bulk := delete_block_reservations ctx ids space block st in
  let single := delete_block_reservation ctx space block x st in
  (~ NoDup ids ->
   bulk = (Raise (HTTPException 400 "List contains one or more duplicate id's."), st))
  /\ (NoDup ids -> ~ known ->
      bulk = (Raise (HTTPException 400 "List contains one or more invalid id's."), st))
  /\ (NoDup ids -> known -> is_admin ctx = false -> foreign ->
      bulk = (Raise forbidden, st))
  /\ (NoDup ids -> known -> is_admin ctx = true \/ ~ foreign ->
      exists after,
        bulk = (Return tt, written after)
        /\ length after = length (resv b)
        /\ forall j r, resv b !! j = Some r ->
             (unsettled r = true -> In (resv_id r) ids ->
              after !! j = Some (stamped (turn j) r))
             /\ (unsettled r = false \/ ~ In (resv_id r) ids -> after !! j = Some r))
  /\ ((forall r, In r (resv b) -> resv_id r <> x) ->
      single = (Raise (HTTPException 400 "Invalid reservation ID."), st))
  /\ (forall j r, resv b !! j = Some r -> resv_id r = x ->
        (is_admin ctx = false -> createdBy r <> user_name ctx ->
         single = (Raise forbidden, st))
        /\ (is_admin ctx = true \/ createdBy r = user_name ctx ->
            (unsettled r = true ->
             single = (Return tt, written (<[j := stamped 0%nat r]> (resv b))))
            /\ (unsettled r = false -> single = (Return tt, st)))).
Proof.
  intros Hsp Hat Hnd stamped written known foreign turn forbidden bulk single.
  pose proof (block_at_next _ _ _ _ Hat) as Hb. subst bulk single.
  rewrite (delete_block_reservations_run ctx ids space block st sp i b Hsp Hb Hnd).
  assert (Hknown : forallb (fun elem => elem_str elem (List.map resv_id (resv b))) ids
                   = true <-> known).
  { rewrite forallb_forall. unfold known. split; intros H id Hid.
    - now apply elem_str_In, H.
    - now apply elem_str_In, H. }
  assert (Hforeign : existsb (not_owned ctx ids) (resv b) = true <-> foreign).
  { rewrite existsb_exists. unfold foreign, not_owned. split.
    - intros (r & Hr & H). apply andb_prop in H as [Hid Ho]. exists r.
      split; [exact Hr|]. split; [now apply elem_str_In|].
      apply negb_true_iff in Ho. intros E. apply str_eqb_eq in E. congruence.
    - intros (r & Hr & Hid & Ho). exists r. split; [exact Hr|].
      apply andb_true_iff. split; [now apply elem_str_In|]. apply negb_true_iff.
      destruct (str_eqb (createdBy r) (user_name ctx)) eqn:E; [|reflexivity].
      apply str_eqb_eq in E. contradiction. }
  repeat apply conj.
  - intros Hdup. rewrite bool_decide_eq_false_2 by exact Hdup. reflexivity.
  - intros Hids Hk. rewrite bool_decide_eq_true_2 by exact Hids. cbn [negb].
    destruct (forallb _ ids) eqn:E; [|reflexivity]. exfalso. now apply Hk, Hknown.
  - intros Hids Hk Hadm Hf. rewrite bool_decide_eq_true_2 by exact Hids. cbn [negb].
    rewrite (proj2 Hknown Hk), Hadm, (proj2 Hforeign Hf). reflexivity.
  - intros Hids Hk Hmay. rewrite bool_decide_eq_true_2 by exact Hids. cbn [negb].
    rewrite (proj2 Hknown Hk). cbn [negb].
    assert (E : negb (is_admin ctx) && existsb (not_owned ctx ids) (resv b) = false).
    { destruct Hmay as [->|Hn]; [reflexivity|].
      destruct (existsb _ (resv b)) eqn:E; [|apply andb_false_r].
      exfalso. now apply Hn, Hforeign. }
    rewrite E. exists (settle_listed ctx ids 0 (resv b)).
    split; [reflexivity|]. split; [apply settle_listed_length|].
    intros j r Hj. rewrite (settle_listed_at ctx ids 0 (resv b) j r Hj).
    unfold touched at 1 3. split.
    + intros Hu Hid. now rewrite Hu, (proj2 (elem_str_In _ _) Hid).
    + intros [Hu|Hid]; [now rewrite Hu|].
      destruct (elem_str (resv_id r) ids) eqn:E'; [|now rewrite andb_false_r].
      exfalso. now apply Hid, elem_str_In.
  - intros Hnone.
    unfold delete_block_reservation. rewrite bind_target, Hsp, Hb.
    destruct (next_where _ (resv b)) as [[j t]|] eqn:F; [|reflexivity].
    apply next_where_Some in F as (Hj & Hid & _). apply str_eqb_eq in Hid.
    exfalso. apply (Hnone t); [eapply lookup_In; eauto | exact Hid].
  - intros j r Hj Hid.
    assert (F : next_where (fun item => str_eqb (resv_id item) x) (resv b) = Some (j, r)).
    { destruct (next_where _ (resv b)) as [[j' t]|] eqn:F.
      - apply next_where_Some in F as (Hj' & Hidt & _). apply str_eqb_eq in Hidt.
        assert (t = r) as ->.
        { apply (same_id_eq (resv b)); trivial; [eapply lookup_In; eauto..|congruence]. }
        f_equal. f_equal. eapply NoDup_lookup; [|exact Hj'|exact Hj].
        apply (NoDup_fmap_1 resv_id). exact Hnd.
      - exfalso. pose proof (next_where_None _ _ F r (lookup_In _ _ _ Hj)) as Hf.
        cbn beta in Hf. rewrite Hid, str_eqb_refl in Hf. discriminate. }
    unfold delete_block_reservation. rewrite bind_target, Hsp, Hb, F. split.
    + intros Hadm Ho. rewrite Hadm.
      destruct (str_eqb (createdBy r) (user_name ctx)) eqn:E; [|reflexivity].
      apply str_eqb_eq in E. contradiction.
    + intros Hmay.
      assert (E : negb (is_admin ctx) && negb (str_eqb (createdBy r) (user_name ctx))
                  = false).
      { destruct Hmay as [-> | ->]; [reflexivity|].
        rewrite str_eqb_refl. apply andb_false_r. }
      rewrite E. split; intros ->; reflexivity.
Qed.

Lemma soft_settle_witness :
  NoDup (List.map resv_id (resv blk_three))
  /\ delete_block_reservations (root []) ["rb"; "ra"; "rs"] "corp" "blk1" [corp_three]
     = (Return tt,
        [mkSpace "space1" "tenant1" "corp" "main"
           [mkBlock "blk1" (mkNet (ip 10 0 0 0) 16) [] []
              [mkReservation "ra" (mkNet (ip 10 0 1 0) 24) None 1600000000 "alice"
                 (Some 1700000000) (Some "root") "cancelledByUser";
               mkReservation "rb" (mkNet (ip 10 0 2 0) 24) None 1600000000 "bob"
                 (Some 1700000001) (Some "root") "cancelledByUser";
               resv_s]]])
  /\ delete_block_reservations alice ["rb"; "ra"] "corp" "blk1" [corp_three]
     = (Raise (HTTPException 403 "Users can only delete their own reservations."),
        [corp_three])
  /\ delete_block_reservation bob "corp" "blk1" "ra" [corp_three]
     = (Raise (HTTPException 403 "Users can only delete their own reservations."),
        [corp_three])
  /\ delete_block_reservation alice "corp" "blk1" "ra" [corp_three]
     = (Return tt,
        [mkSpace "space1" "tenant1" "corp" "main"
           [mkBlock "blk1" (mkNet (ip 10 0 0 0) 16) [] []
              [mkReservation "ra" (mkNet (ip 10 0 1 0) 24) None 1600000000 "alice"
                 (Some 1700000000) (Some "alice") "cancelledByUser";
               resv_b; resv_s]]])
  /\ delete_block_reservation alice "corp" "blk1" "rs" [corp_three]
     = (Return tt, [corp_three]).
Proof.
  assert (Hnd : NoDup (List.map resv_id (resv blk_three)))
    by (apply (bool_decide_unpack _); vm_compute; exact I).
  assert (Hblk : block_at corp_three "blk1" 0 blk_three)
    by (repeat split; intros; lia).
  split; [exact Hnd|]. split; [|split; [|split; [|split]]].
  - destruct (soft_settle (root []) ["rb"; "ra"; "rs"] "ra" "corp" "blk1" [corp_three]
                corp_three 0%nat blk_three eq_refl Hblk Hnd)
      as (_ & _ & _ & H & _).
    destruct H as (after & Hrun & Hlen & Hat).
    + apply (bool_decide_unpack _). vm_compute. exact I.
    + intros id Hid. cbn in Hid |- *. tauto.
    + now left.
    + destruct (Hat 0%nat resv_a eq_refl) as [H0 _].
      destruct (Hat 1%nat resv_b eq_refl) as [H1 _].
      destruct (Hat 2%nat resv_s eq_refl) as [_ H2].
      specialize (H0 eq_refl ltac:(cbn; tauto)).
      specialize (H1 eq_refl ltac:(cbn; tauto)).
      specialize (H2 (or_introl eq_refl)).
      destruct after as [|a0 [|a1 [|a2 [|a3 after]]]]; try discriminate Hlen.
      cbn in H0, H1, H2. injection H0 as ->. injection H1 as ->. injection H2 as ->.
      rewrite Hrun. reflexivity.
  - destruct (soft_settle alice ["rb"; "ra"] "ra" "corp" "blk1" [corp_three]
                corp_three 0%nat blk_three eq_refl Hblk Hnd)
      as (_ & _ & H & _).
    apply H.
    + apply (bool_decide_unpack _). vm_compute. exact I.
    + intros id Hid. cbn in Hid |- *. tauto.
    + reflexivity.
    + exists resv_b. split; [cbn; tauto|]. split; [cbn; tauto | discriminate].
  - destruct (soft_settle bob [] "ra" "corp" "blk1" [corp_three]
                corp_three 0%nat blk_three eq_refl Hblk Hnd)
      as (_ & _ & _ & _ & _ & H).
    destruct (H 0%nat resv_a eq_refl eq_refl) as [H403 _].
    apply H403; [reflexivity | discriminate].
  - destruct (soft_settle alice [] "ra" "corp" "blk1" [corp_three]
                corp_three 0%nat blk_three eq_refl Hblk Hnd)
      as (_ & _ & _ & _ & _ & H).
    destruct (H 0%nat resv_a eq_refl eq_refl) as [_ Hok].
    destruct (Hok (or_intror eq_refl)) as [Hopen _].
    rewrite (Hopen eq_refl). reflexivity.
  - destruct (soft_settle alice [] "rs" "corp" "blk1" [corp_three]
                corp_three 0%nat blk_three eq_refl Hblk Hnd)
      as (_ & _ & _ & _ & _ & H).
    destruct (H 2%nat resv_s eq_refl eq_refl) as [_ Hok].
    destruct (Hok (or_intror eq_refl)) as [_ Hsettled].
    exact (Hsettled eq_refl).
Defined.

(** C4, where the sentence as written fails: alice, who is no admin, names
    the open reservation [rb] of bob together with an id the block does
    not hold.  The bulk handler answers 400, not 403, and writes nothing. *)
Lemma soft_settle_malformed_first :
  is_admin alice = false
  /\ In resv_b (resv blk_three)
  /\ str_eqb (createdBy resv_b) (user_name alice) = false
  /\ delete_block_reservations alice ["rb"; "zz"] "corp" "blk1" [corp_three]
     = (Raise (HTTPException 400 "List contains one or more invalid id's."),
        [corp_three]).
Proof. repeat split; vm_compute; auto. Qed.

(** ** Reservations over a list of blocks *)

(** C8, at the failing input: a space with the blocks [BLK] and [blk],
    which [create_block] makes one after the other.  A request that lists
    [blk] passes the check of the names, which compares them as they are:
    [Blk] is refused.  The search then takes the first block whose name
    matches [blk] whatever the case, which is [BLK]: the reservation
    [10.1.0.0/24] is appended to [BLK] while the answer names [blk], whose
    CIDR does not hold it; and once [BLK] is full the same request gets
    500 although [blk], free throughout, satisfies I3 and has a prefix
    that fits. *)
Theorem multi_block_name_case :
  snd (create_block (root []) (mkBlockReq "blk" (Some (mkNet (ip 10 2 0 0) 16))) "corp"
         (snd (create_block (root []) (mkBlockReq "BLK" (Some (mkNet (ip 10 1 0 0) 24)))
                 "corp" [corp_none])))
  = [corp_case]
  /\ fst (create_multi_block_reservation alice (from_blocks ["Blk"]) "corp" [corp_case])
     = Raise (HTTPException 400 "Invalid Block(s) in Block list: ['Blk'].")
  /\ create_multi_block_reservation alice (from_blocks ["blk"]) "corp" [corp_case]
     = (Return (mkReservationExpand resv_case "corp" (Some "blk")), [corp_case_full])
  /\ net_has (block_cidr blk_lower) (value (resv_cidr resv_case)) = false
  /\ I3 (net_list alice) blk_lower = true
  /\ maximal_free (net_list alice) blk_lower (mkNet (ip 10 2 0 0) 16)
  /\ create_multi_block_reservation alice (from_blocks ["blk"]) "corp" [corp_case_full]
     = (Raise (HTTPException 500
                 "Network of requested size unavailable in target block(s)."),
        [corp_case_full]).
Proof.
  do 5 (split; [reflexivity|]). split; [|reflexivity].
  apply listed_maximal_free; [reflexivity|]. vm_compute. auto.
Qed.

(** ** Networks available to a block *)

(** The removal of a network attached elsewhere skips position 0. *)
Lemma drop_net_head id n rest :
  str_eqb (net_id n) id = true -> drop_net (n :: rest) id = n :: rest.
Proof.
  intros H. unfold drop_net, next_where. simpl. now rewrite decide_True by exact H.
Qed.

(** Whatever is attached elsewhere, the first candidate stays listed. *)
Lemma drop_nets_head ids n rest :
  exists rest', fold_left drop_net ids (n :: rest) = n :: rest'.
Proof.
  revert rest. induction ids as [|id ids IH]; intros rest; [now exists rest|].
  cbn [fold_left]. unfold drop_net at 2, next_where. cbn [list_find].
  destruct (decide (str_eqb (net_id n) id = true)); [apply IH|].
  destruct (list_find _ rest) as [[k y]|]; cbn [fmap option_fmap option_map prod_map fst snd];
    [|apply IH].
  cbn [delete list_delete]. apply IH.
Qed.

(** C5, at the failing input: the network [vnetV] is attached to
    [block1] of [spaceA] and stands first among the candidates of [block2]
    of [spaceB]; [available_block_nets] lists it.  Standing second, behind
    [vnetW], it is removed. *)
Theorem available_lists_attached_network :
  fst (available_block_nets (root [vnet_v]) "spaceB" "block2" [space_a; space_b])
  = Return [vnet_v]
  /\ fst (available_block_nets (root [vnet_w; vnet_v]) "spaceB" "block2"
            [space_a; space_b])
     = Return [vnet_w].
Proof. split; vm_compute; reflexivity. Qed.

(** ** Utilization of a space *)

Lemma space_externals_raise space ext rest used :
  space_externals space (ext :: rest) used = Raise TypeError.
Proof. reflexivity. Qed.

(** [get_space] with [utilization] ends in [TypeError] as soon as a block
    of the space has an external network. *)
Lemma get_space_externals ctx space st sp done b rest :
  target_of space st = Some sp ->
  blocks sp = done ++ b :: rest ->
  Forall (fun x => externals x = []) done ->
  externals b <> [] ->
  get_space ctx space false true st = (Raise TypeError, st).
Proof.
  intros Hsp Hbs Hdone Hb. unfold get_space. cbn [andb].
  rewrite bind_target, Hsp, Hbs.
  assert (H : forall size used views,
             space_blocks ctx space true (done ++ b :: rest) size used views
             = Raise TypeError).
  { clear Hbs. induction Hdone as [|x l Hx Hl IH]; intros size used views.
    - cbn [app space_blocks]. destruct (externals b) as [|e es]; [congruence|].
      reflexivity.
    - cbn [app space_blocks]. rewrite Hx. cbn [space_externals].
      unfold mbind at 1, Outcome_bind at 1. apply IH. }
  unfold mbind, M_bind, lift. now rewrite H.
Qed.

(** C6, at the failing input: a space whose block holds one external
    network.  [get_space] with [utilization] raises [TypeError]; the
    handler of the block alone counts the external in [used]; and
    [get_space] answers for the same space without the external. *)
Theorem get_space_utilization_externals :
  get_space (root []) "corp" false true [corp_ext] = (Raise TypeError, [corp_ext])
  /\ fst (get_block (root []) "corp" "blk1" false true [corp_ext])
     = Return (mkBlockView blk_ext (Some 65536) (Some 256))
  /\ fst (get_space (root []) "corp" false true [corp])
     = Return (mkSpaceView corp [mkBlockView blk1 (Some 65536) (Some 0)]
                           (Some 65536) (Some 0)).
Proof. repeat split; vm_compute; reflexivity. Qed.

(** ** Replacing the CIDR of a block *)

(** C7, at the failing input: the block [blk1], [10.0.0.0/16], holds the
    reservation [10.0.200.0/24].  Under its stored name a CIDR that does
    not cover the reservation is refused with 400 and the current CIDR is
    accepted; under the name [BLK1], which finds the same block, the CIDR
    [11.0.0.0/16] is accepted and written, and the block no longer
    satisfies I3. *)
Theorem block_cidr_update_case :
  fst (update_block (root []) (replace_cidr (mkNet (ip 10 0 0 0) 17)) "corp" "blk1"
         [corp_child])
  = Raise (HTTPException 400 block_cidr_error)
  /\ fst (update_block (root []) (replace_cidr (mkNet (ip 11 0 0 0) 16)) "corp" "blk1"
            [corp_child])
     = Raise (HTTPException 400 block_cidr_error)
  /\ fst (update_block (root []) (replace_cidr (mkNet (ip 10 0 0 0) 16)) "corp" "blk1"
            [corp_child])
     = Return blk_child
  /\ update_block (root []) (replace_cidr (mkNet (ip 11 0 0 0) 16)) "corp" "BLK1"
       [corp_child]
     = (Return (set_block_cidr blk_child (mkNet (ip 11 0 0 0) 16)),
        [set_blocks corp_child [set_block_cidr blk_child (mkNet (ip 11 0 0 0) 16)]])
  /\ I3 [] blk_child = true
  /\ I3 [] (set_block_cidr blk_child (mkNet (ip 11 0 0 0) 16)) = false.
Proof. repeat split; vm_compute; reflexivity. Qed.

(** ** Block coverage after a reservation *)

(** Every reservation [create_block_reservation] stores in a block that
    satisfies I3 leaves I3 in place, for a size as for an explicit CIDR. *)
Lemma create_block_reservation_I3 ctx req space block st sp i b rx st' :
  target_of space st = Some sp ->
  next_where (same_name block) (blocks sp) = Some (i, b) ->
  I3 (net_list ctx) b = true ->
  (forall n, req_cidr req = Some (Some n) -> valid_net n = true) ->
  create_block_reservation ctx req space block st = (Return rx, st') ->
  I3 (net_list ctx) (set_resv b (resv b ++ [rx_resv rx])) = true
  /\ st' = replace_doc sp (with_reservation sp i b (rx_resv rx)) st.
Proof.
  intros Hsp Hb HI Hn. unfold create_block_reservation.
  rewrite bind_target, Hsp, Hb, (I3_available _ _ HI).
  assert (Hend : forall c,
            valid_net c = true ->
            net_in_set c (free_set (net_list ctx) b) = true ->
            (Return (mkReservationExpand (new_reservation ctx c (req_desc req))
                       (space_name sp) (Some (block_name b))),
             replace_doc sp
               (put_block sp i
                  (set_resv b (resv b ++ [new_reservation ctx c (req_desc req)]))) st)
            = (Return rx, st') ->
            I3 (net_list ctx) (set_resv b (resv b ++ [rx_resv rx])) = true
            /\ st' = replace_doc sp (with_reservation sp i b (rx_resv rx)) st).
  { intros c Hc Hin H. inversion H. subst. cbn [rx_resv]. split; [|reflexivity].
    now apply I3_reserved. }
  destruct (req_cidr req) as [[n|]|] eqn:Hreq.
  - unfold mbind, M_bind, mret, M_ret, raise, cosmos_replace.
    destruct (net_in_set n _) eqn:Hin; cbn [negb]; [|discriminate].
    apply Hend; auto.
  - discriminate.
  - unfold mbind at 1, M_bind at 1. unfold mbind at 1, M_bind at 1, lift.
    destruct (find_available _ _ _ _) as [[p|]|e] eqn:Hfind; try discriminate.
    assert (Hp : In p (iter_cidrs (free_set (net_list ctx) b))
                 /\ fits (req_size req) p = true).
    { unfold find_available in Hfind. destruct (smallest_cidr req).
      - unfold mbind, Outcome_bind in Hfind.
        destruct (max_of _); [|discriminate]. inversion Hfind as [Hf].
        apply find_in in Hf as [Hf _]. apply filter_In in Hf as [Hf ?].
        apply in_sliced in Hf. auto.
      - inversion Hfind as [Hf]. apply find_in in Hf as [Hf ?].
        apply in_sliced in Hf. auto. }
    destruct Hp as [Hp Hfit].
    destruct (Z.leb_spec (req_size req) 32) as [Hsize|Hsize].
    + destruct (carve_listed _ p _ (reverse_search req) Hp Hfit Hsize)
        as (Hcarve & _ & Hlen & Hnet).
      rewrite Hcarve. unfold mbind, M_bind, cosmos_replace, mret, M_ret.
      assert (Hw : (prefixlen (carved (reverse_search req) p (Z.to_nat (req_size req)))
                    <= width)%nat) by (unfold width; lia).
      destruct (listed_subnet_in _ p _ (wf_free_set _ _) Hp Hw Hnet).
      apply Hend; trivial.
    + unfold carve. unfold fits in Hfit. apply Z.leb_le in Hfit.
      destruct (Z.ltb_spec (req_size req) (Z.of_nat (prefixlen p))); [lia|].
      destruct (Z.ltb_spec (Z.of_nat width) (req_size req)); [discriminate|].
      unfold width in *. lia.
Qed.

(** ** Block coverage after an external network *)

Lemma nonempty_false s : nonempty s = false -> s = Leaf false.
Proof. destruct s as [[|]|]; simpl; congruence. Qed.

Lemma inter_empty_apart c l :
  valid_net c = true -> Forall (fun x => valid_net x = true) l ->
  nonempty (inter (IPSet_of [c]) (IPSet_of l)) = false ->
  forallb (fun x => negb (overlaps c x)) l = true.
Proof.
  intros Hc Hl He. apply nonempty_false in He. apply apart_of_mem; trivial.
  intros a Ha Hh.
  assert (Hm : mem (inter (IPSet_of [c]) (IPSet_of l)) width a = false)
    by now rewrite He.
  rewrite mem_inter in Hm by apply wf_IPSet_of.
  rewrite IPSet_of_one, mem_net_set, Hh, mem_IPSet_of in Hm by trivial.
  exact Hm.
Qed.

(** The set [create_external_network] searches is the free set of the
    block: the union it builds holds the addresses of [block_all_cidrs]. *)
Lemma external_available nets b :
  I3 nets b = true ->
  xor (IPSet_of [block_cidr b])
      (union (union (IPSet_of (List.map resv_cidr (List.filter unsettled (resv b))))
                    (IPSet_of (List.map ext_cidr (externals b))))
             (IPSet_of (flat_map (in_block_prefixes nets b) (vnets b))))
  = free_set nets b.
Proof.
  intros HI. rewrite <- (I3_available _ _ HI). unfold available_set. f_equal.
  pose proof (I3_valid _ _ HI) as Hv. unfold block_all_cidrs in *.
  apply Forall_app in Hv as [Hv1 Hv]. apply Forall_app in Hv as [Hv2 Hv3].
  apply (wf_ext width); [repeat apply wf_union; apply wf_IPSet_of | apply wf_IPSet_of |].
  intros a Ha. change (2 ^ Z.of_nat width) with (2 ^ 32) in Ha.
  rewrite !mem_union by (repeat apply wf_union; apply wf_IPSet_of).
  rewrite !mem_IPSet_of by (repeat apply Forall_app_2; trivial).
  rewrite !existsb_app.
  destruct (existsb _ (flat_map _ _)), (existsb _ (List.map resv_cidr _)),
    (existsb _ (List.map ext_cidr _)); reflexivity.
Qed.

Lemma block_all_cidrs_external nets b e :
  block_all_cidrs nets (set_externals b (externals b ++ [e]))
  = block_all_cidrs nets b ++ [ext_cidr e].
Proof.
  unfold block_all_cidrs, set_externals, in_block_prefixes.
  cbn [block_cidr vnets resv externals].
  rewrite List.map_app. cbn [List.map]. now rewrite <- !app_assoc.
Qed.

Lemma I3_external nets b e :
  I3 nets b = true -> valid_net (ext_cidr e) = true ->
  net_in (ext_cidr e) (block_cidr b) = true ->
  forallb (fun x => negb (overlaps (ext_cidr e) x)) (block_all_cidrs nets b) = true ->
  I3 nets (set_externals b (externals b ++ [e])) = true.
Proof.
  intros HI Hv Hin Ho.
  apply (I3_insert nets b _ (block_all_cidrs nets b) [] (ext_cidr e)); trivial.
  - now rewrite app_nil_r.
  - apply block_all_cidrs_external.
Qed.

(** Every external network [create_external_network] stores in a block
    that satisfies I3 leaves I3 in place, for a size as for an explicit
    CIDR. *)
Lemma create_external_network_I3 ctx req space block st sp i b ext st' :
  target_of space st = Some sp ->
  next_where (same_name block) (blocks sp) = Some (i, b) ->
  I3 (net_list ctx) b = true ->
  (forall n, ereq_cidr req = Some (Some n) -> valid_net n = true) ->
  create_external_network ctx req space block st = (Return ext, st') ->
  I3 (net_list ctx) (set_externals b (externals b ++ [ext])) = true
  /\ st' = replace_doc sp (put_block sp i (set_externals b (externals b ++ [ext]))) st.
Proof.
  intros Hsp Hb HI Hn. unfold create_external_network.
  destruct (negb (is_admin ctx)); [discriminate|].
  destruct (negb (name_regex _)); [discriminate|].
  destruct (negb (desc_regex _)); [discriminate|].
  rewrite bind_target, Hsp, Hb.
  destruct (elem_str _ _); [discriminate|]. cbv zeta.
  rewrite (external_available _ _ HI).
  assert (Hend : forall c,
            valid_net c = true -> net_in c (block_cidr b) = true ->
            forallb (fun x => negb (overlaps c x)) (block_all_cidrs (net_list ctx) b)
            = true ->
            (Return (mkExtNet (ereq_name req) (ereq_desc req) c []),
             replace_doc sp
               (put_block sp i
                  (set_externals b
                     (externals b ++ [mkExtNet (ereq_name req) (ereq_desc req) c []])))
               st)
            = (Return ext, st') ->
            I3 (net_list ctx) (set_externals b (externals b ++ [ext])) = true
            /\ st' = replace_doc sp
                       (put_block sp i (set_externals b (externals b ++ [ext]))) st).
  { intros c Hc Hin Ho H. inversion H. subst. split; [|reflexivity].
    now apply I3_external. }
  pose proof (I3_valid _ _ HI) as Hv. unfold block_all_cidrs in Hv.
  apply Forall_app in Hv as [Hv1 Hv]. apply Forall_app in Hv as [Hv2 Hv3].
  destruct (ereq_cidr req) as [[n|]|] eqn:Hreq.
  - unfold mbind, M_bind, mret, M_ret, raise, cosmos_replace.
    destruct (negb (canonical n)); [discriminate|].
    destruct (net_in n (block_cidr b)) eqn:Hin; cbn [negb]; [|discriminate].
    destruct (nonempty (inter _ (IPSet_of (List.map ext_cidr _)))) eqn:He;
      [discriminate|].
    destruct (nonempty (inter _ (IPSet_of (List.map resv_cidr _)))) eqn:Hr;
      [discriminate|].
    destruct (nonempty (inter _ (IPSet_of (flat_map _ _)))) eqn:Hf; [discriminate|].
    pose proof (Hn n eq_refl) as Hc.
    apply Hend; trivial. unfold block_all_cidrs. rewrite !forallb_app.
    now rewrite !inter_empty_apart.
  - discriminate.
  - unfold mbind at 1, M_bind at 1.
    destruct (List.find _ _) as [p|] eqn:Hfind; [|discriminate].
    apply find_in in Hfind as [Hp Hfit].
    destruct (Z.leb_spec (ereq_size req) 32) as [Hsize|Hsize].
    + destruct (carve_listed _ p _ false Hp Hfit Hsize) as (Hcarve & _ & Hlen & Hnet).
      unfold lift. rewrite Hcarve. unfold mbind, M_bind, cosmos_replace, mret, M_ret.
      assert (Hw : (prefixlen (carved false p (Z.to_nat (ereq_size req))) <= width)%nat)
        by (unfold width; lia).
      destruct (listed_subnet_in _ p _ (wf_free_set _ _) Hp Hw Hnet) as [Hc Hin].
      destruct (free_net_apart _ _ _ HI Hc Hin). apply Hend; trivial.
    + unfold lift, carve. unfold fits in Hfit. apply Z.leb_le in Hfit.
      destruct (Z.ltb_spec (ereq_size req) (Z.of_nat (prefixlen p))); [lia|].
      destruct (Z.ltb_spec (Z.of_nat width) (ereq_size req)); [discriminate|].
      unfold width in *. lia.
Qed.

(** ** Attaching a network *)

(** C9, at the failing input: the network [vnet2] has two prefixes inside
    the block and the second one is reserved.  The block satisfies I3;
    [create_block_net] checks the first prefix alone, attaches the network
    and writes a block that breaks I3.  The same prefix as an explicit
    external network is refused. *)
Theorem attach_breaks_coverage :
  I3 [vnet_two] blk_resv = true
  /\ create_block_net (root [vnet_two]) (mkVNetRef "vnet2" false) "corp" "blk1"
       [corp_resv]
     = (Return (set_vnets blk_resv [mkVNetRef "vnet2" true]),
        [set_blocks corp_resv [set_vnets blk_resv [mkVNetRef "vnet2" true]]])
  /\ I3 [vnet_two] (set_vnets blk_resv [mkVNetRef "vnet2" true]) = false
  /\ fst (create_external_network (root [vnet_two])
            (mkExtNetReq "ext1" "lab" (Some (Some (mkNet (ip 10 0 1 0) 24))) 24)
            "corp" "blk1" [corp_resv])
     = Raise (HTTPException 400
                "Block contains unfulfilled reservation(s) which overlap the target external network.").
Proof. repeat split; vm_compute; reflexivity. Qed.

(** ** Writes come last *)

Section Atomicity.

Context {A B : Type}.

Lemma readonly_ret (a : A) : readonly (mret a : M A).
Proof. now intros st. Qed.

Lemma readonly_raise (e : Exc) : readonly (raise e : M A).
Proof. now intros st. Qed.

Lemma readonly_lift (o : Outcome A) : readonly (lift o).
Proof. now intros st. Qed.

Lemma readonly_bind (m : M A) (f : A -> M B) :
  readonly m -> (forall a, readonly (f a)) -> readonly (m ≫= f).
Proof.
  intros Hm Hf st. unfold mbind, M_bind. specialize (Hm st).
  destruct (m st) as [[a|e] st']; simpl in Hm; subst st'; [apply Hf | reflexivity].
Qed.

Lemma atomic_readonly (m : M A) : readonly m -> atomic m.
Proof. intros H st e _. apply H. Qed.

Lemma atomic_bind (m : M A) (f : A -> M B) :
  readonly m -> (forall a, atomic (f a)) -> atomic (m ≫= f).
Proof.
  intros Hm Hf st e. unfold mbind, M_bind. specialize (Hm st).
  destruct (m st) as [[a|e'] st']; simpl in Hm; subst st'; [apply Hf | reflexivity].
Qed.

(** A write that cannot fail, followed by the answer. *)
Lemma atomic_write (w : M unit) (a : A) :
  (forall st, fst (w st) = Return tt) -> atomic (w ≫= λ _, mret a).
Proof.
  intros Hw st e. unfold mbind, M_bind. specialize (Hw st).
  destruct (w st) as [[u|e'] st']; simpl in Hw; [discriminate | discriminate].
Qed.

End Atomicity.

Lemma atomic_last (w : M unit) :
  (forall st, fst (w st) = Return tt) -> atomic w.
Proof. intros Hw st e H. rewrite Hw in H. discriminate. Qed.

Lemma atomic_answer {A} (m : M A) : atomic m -> atomic (answer m).
Proof.
  intros Hm st e. unfold answer, mbind, M_bind. specialize (Hm st).
  destruct (m st) as [[a|e'] st']; simpl in *; [discriminate | eauto].
Qed.

Lemma readonly_query_space space : readonly (cosmos_query_space space).
Proof. now intros st. Qed.

Lemma readonly_query_spaces : readonly cosmos_query_spaces.
Proof. now intros st. Qed.

Lemma readonly_first_space q : readonly (first_space q).
Proof. destruct q; now intros st. Qed.

Lemma readonly_keep_valid item error ok : readonly (keep_valid item error ok).
Proof. destruct ok; now intros st. Qed.

Lemma readonly_regex_valid re v : readonly (regex_valid re v).
Proof. now intros st. Qed.

Lemma readonly_parse_canonical what v : readonly (parse_canonical what v).
Proof. destruct v as [t n| |]; simpl; try destruct (negb _); now intros st. Qed.

Lemma readonly_value_set v : readonly (value_set v).
Proof. destruct v; now intros st. Qed.

(** One step of a proof that a handler reads only, or writes last. *)
Ltac step :=
  match goal with
  | |- readonly (mret _) => apply readonly_ret
  | |- readonly (raise _) => apply readonly_raise
  | |- readonly (lift _) => apply readonly_lift
  | |- readonly (cosmos_query_space _) => apply readonly_query_space
  | |- readonly cosmos_query_spaces => apply readonly_query_spaces
  | |- readonly (first_space _) => apply readonly_first_space
  | |- readonly (keep_valid _ _ _) => apply readonly_keep_valid
  | |- readonly (regex_valid _ _) => apply readonly_regex_valid
  | |- readonly (parse_canonical _ _) => apply readonly_parse_canonical
  | |- readonly (value_set _) => apply readonly_value_set
  | |- readonly (_ ≫= _) => apply readonly_bind; [|intros]
  | |- atomic (mret _) => apply atomic_readonly
  | |- atomic (raise _) => apply atomic_readonly
  | |- atomic (lift _) => apply atomic_readonly
  | |- atomic (cosmos_replace _ _ ≫= _) => apply atomic_write; reflexivity
  | |- atomic (cosmos_upsert _ ≫= _) => apply atomic_write; reflexivity
  | |- atomic (cosmos_replace _ _) => apply atomic_last; reflexivity
  | |- atomic (cosmos_delete _) => apply atomic_last; reflexivity
  | |- atomic (_ ≫= _) => apply atomic_bind; [|intros]
  | |- _ (if ?c then _ else _) => destruct c
  | |- _ (match ?x with Some _ => _ | None => _ end) => destruct x
  | |- _ (match ?x with (_, _) => _ end) => destruct x
  | |- _ (match ?x with [] => _ | _ :: _ => _ end) => destruct x
  | |- _ (match ?x with CidrValue _ _ => _ | AddrValue _ _ => _ | TextValue _ => _ end) =>
      destruct x
  | H : _ |- _ => solve [apply H]
  end.

Ltac steps := cbv zeta; repeat (step; cbv zeta).

Lemma readonly_valid_block_name_update v s b :
  readonly (valid_block_name_update v s b).
Proof. unfold valid_block_name_update. steps. Qed.

Lemma readonly_valid_block_cidr_update ctx v s b :
  readonly (valid_block_cidr_update ctx v s b).
Proof. unfold valid_block_cidr_update. steps. Qed.

Lemma readonly_scrub_block_patch ctx patch s b :
  readonly (scrub_block_patch ctx patch s b).
Proof.
  induction patch as [|item rest IH]; cbn [scrub_block_patch]; steps;
    first [apply readonly_valid_block_name_update
          | apply readonly_valid_block_cidr_update].
Qed.

Lemma readonly_valid_space_name_update v s : readonly (valid_space_name_update v s).
Proof. unfold valid_space_name_update. steps. Qed.

Lemma readonly_scrub_space_patch patch s : readonly (scrub_space_patch patch s).
Proof.
  induction patch as [|item rest IH]; cbn [scrub_space_patch]; steps.
  apply readonly_valid_space_name_update.
Qed.

Lemma readonly_valid_ext_network_name_update v s b e :
  readonly (valid_ext_network_name_update v s b e).
Proof. unfold valid_ext_network_name_update. steps. Qed.

Lemma readonly_valid_ext_network_cidr_update ctx v s b e :
  readonly (valid_ext_network_cidr_update ctx v s b e).
Proof. unfold valid_ext_network_cidr_update. steps. Qed.

Lemma readonly_scrub_ext_network_patch ctx patch s b e :
  readonly (scrub_ext_network_patch ctx patch s b e).
Proof.
  induction patch as [|item rest IH]; cbn [scrub_ext_network_patch]; steps;
    first [apply readonly_valid_ext_network_name_update
          | apply readonly_valid_ext_network_cidr_update].
Qed.

Lemma readonly_valid_ext_subnet_cidr_update v s b e n :
  readonly (valid_ext_subnet_cidr_update v s b e n).
Proof. unfold valid_ext_subnet_cidr_update. steps. Qed.

Lemma readonly_scrub_ext_subnet_patch patch s b e n :
  readonly (scrub_ext_subnet_patch patch s b e n).
Proof.
  induction patch as [|item rest IH]; cbn [scrub_ext_subnet_patch]; steps;
    first [apply readonly_regex_valid | apply readonly_valid_ext_subnet_cidr_update].
Qed.

Lemma readonly_valid_ext_endpoint_ip_update v s b e n p :
  readonly (valid_ext_endpoint_ip_update v s b e n p).
Proof. unfold valid_ext_endpoint_ip_update. steps. Qed.

Lemma readonly_scrub_ext_endpoint_patch patch s b e n p :
  readonly (scrub_ext_endpoint_patch patch s b e n p).
Proof.
  induction patch as [|item rest IH]; cbn [scrub_ext_endpoint_patch]; steps;
    first [apply readonly_regex_valid | apply readonly_valid_ext_endpoint_ip_update].
Qed.

Lemma readonly_find_subnet sp b e n msg : readonly (find_subnet sp b e n msg).
Proof. unfold find_subnet. steps. Qed.

Ltac handler :=
  repeat progress
    (steps;
     try first
       [ apply readonly_scrub_block_patch | apply readonly_scrub_space_patch
       | apply readonly_scrub_ext_network_patch | apply readonly_scrub_ext_subnet_patch
       | apply readonly_scrub_ext_endpoint_patch | apply readonly_find_subnet ]).

Section WriteLast.

Variable iter_hosts : IPNetwork -> list Z.
Variable issubset_network : IPSet -> IPNetwork -> bool.
Variable ctx : Ctx.

Lemma atomic_create_space t body : atomic (create_space ctx t body).
Proof. unfold create_space. handler. Qed.

Lemma atomic_update_space u s : atomic (update_space ctx u s).
Proof. unfold update_space. handler. Qed.

Lemma atomic_delete_space s f : atomic (delete_space ctx s f).
Proof. unfold delete_space. handler. Qed.

Lemma atomic_create_multi_block_reservation body s :
  atomic (create_multi_block_reservation ctx body s).
Proof. unfold create_multi_block_reservation. handler. Qed.

Lemma atomic_create_block body s : atomic (create_block ctx body s).
Proof. unfold create_block. handler. Qed.

Lemma atomic_update_block u s b : atomic (update_block ctx u s b).
Proof. unfold update_block. handler. Qed.

Lemma atomic_delete_block s b f : atomic (delete_block ctx s b f).
Proof. unfold delete_block. handler. Qed.

Lemma atomic_create_block_net body s b : atomic (create_block_net ctx body s b).
Proof. unfold create_block_net. handler. Qed.

Lemma atomic_update_block_vnets body s b : atomic (update_block_vnets ctx body s b).
Proof. unfold update_block_vnets. handler. Qed.

Lemma atomic_delete_block_nets body s b : atomic (delete_block_nets ctx body s b).
Proof. unfold delete_block_nets. handler. Qed.

Lemma atomic_create_external_network body s b :
  atomic (create_external_network ctx body s b).
Proof. unfold create_external_network. handler. Qed.

Lemma atomic_update_ext_network u s b e : atomic (update_ext_network ctx u s b e).
Proof. unfold update_ext_network. handler. Qed.

Lemma atomic_delete_external_network s b e f :
  atomic (delete_external_network ctx s b e f).
Proof. unfold delete_external_network. handler. Qed.

Lemma atomic_create_external_subnet body s b e :
  atomic (create_external_subnet ctx body s b e).
Proof. unfold create_external_subnet. handler. Qed.

Lemma atomic_update_ext_subnet u s b e n : atomic (update_ext_subnet ctx u s b e n).
Proof. unfold update_ext_subnet. handler. Qed.

Lemma atomic_delete_external_subnet s b e n f :
  atomic (delete_external_subnet ctx s b e n f).
Proof. unfold delete_external_subnet. handler. Qed.

Lemma atomic_create_external_subnet_endpoint body s b e n :
  atomic (create_external_subnet_endpoint iter_hosts issubset_network ctx body s b e n).
Proof. unfold create_external_subnet_endpoint. handler. Qed.

Lemma atomic_update_external_subnet_enpoints body s b e n :
  atomic (update_external_subnet_enpoints iter_hosts issubset_network ctx body s b e n).
Proof. unfold update_external_subnet_enpoints. handler. Qed.

Lemma atomic_delete_external_subnet_endpoints body s b e n :
  atomic (delete_external_subnet_endpoints ctx body s b e n).
Proof. unfold delete_external_subnet_endpoints. handler. Qed.

Lemma atomic_update_ext_endpoint u s b e n p :
  atomic (update_ext_endpoint ctx u s b e n p).
Proof. unfold update_ext_endpoint. handler. Qed.

Lemma atomic_delete_external_subnet_endpoint s b e n p :
  atomic (delete_external_subnet_endpoint ctx s b e n p).
Proof. unfold delete_external_subnet_endpoint. handler. Qed.

Lemma atomic_create_block_reservation body s b :
  atomic (create_block_reservation ctx body s b).
Proof. unfold create_block_reservation. handler. Qed.

Lemma atomic_delete_block_reservations body s b :
  atomic (delete_block_reservations ctx body s b).
Proof. unfold delete_block_reservations. handler. Qed.

Lemma atomic_delete_block_reservation s b r :
  atomic (delete_block_reservation ctx s b r).
Proof. unfold delete_block_reservation. handler. Qed.

End WriteLast.

(** C10.  Every write endpoint of the router writes its document once,
    after all its checks: a request that ends in an exception, an HTTP
    error or an error that escapes the handler, leaves the stored
    documents as they were. *)
Theorem errors_leave_store iter_hosts issubset_network ctx r st e :
  fst (handle iter_hosts issubset_network ctx r st) = Raise e ->
  snd (handle iter_hosts issubset_network ctx r st) = st.
Proof.
  revert st e. change (atomic (handle iter_hosts issubset_network ctx r)).
  destruct r; cbn [handle]; try apply atomic_answer;
    first
      [ apply atomic_create_space | apply atomic_update_space
      | apply atomic_delete_space | apply atomic_create_multi_block_reservation
      | apply atomic_create_block | apply atomic_update_block
      | apply atomic_delete_block | apply atomic_create_block_net
      | apply atomic_update_block_vnets | apply atomic_delete_block_nets
      | apply atomic_create_external_network | apply atomic_update_ext_network
      | apply atomic_delete_external_network | apply atomic_create_external_subnet
      | apply atomic_update_ext_subnet | apply atomic_delete_external_subnet
      | apply atomic_create_external_subnet_endpoint
      | apply atomic_update_external_subnet_enpoints
      | apply atomic_delete_external_subnet_endpoints | apply atomic_update_ext_endpoint
      | apply atomic_delete_external_subnet_endpoint
      | apply atomic_create_block_reservation | apply atomic_delete_block_reservations
      | apply atomic_delete_block_reservation ].
Qed.

Lemma errors_leave_store_witness :
  snd (handle (fun _ => []) (fun _ _ => true) alice
         (POST_reservation "corp" "blk1" (by_size 8 false true)) [corp])
  = [corp].
Proof.
  apply (errors_leave_store _ _ _ _ _ ValueError). vm_compute. reflexivity.
Defined.
